(** * NebulaVault: a confidential staking vault over encrypted balances

    Shallow embedding of [contract NebulaVault] (the Solidity contract shipped
    with the deployment script) together with the collaborators it calls:
    the FHE coprocessor with its access-control list, the overflow-aware
    arithmetic of [FHESafeMath], and the two ERC7984 tokens.

    A ciphertext handle ([euint64], [ebool]) is a 256-bit word; handle [0] is
    the uninitialised handle.  The coprocessor is a table from handles to the
    cleartexts they encrypt, plus the persistent and the transient
    (per-transaction) allow lists.  Contract code runs in a state-and-error
    monad: a revert discards every effect of the transaction. *)

From Stdlib Require Import ZArith Lia.
From Stdlib Require String Ascii.
From stdpp Require Import base option gmap sets list.

Local Open Scope Z_scope.
Set Warnings "-clear-no-such-hyp".

(** ** Words, handles, errors *)

Abbreviation address := N (only parsing).
Abbreviation euint64 := N (only parsing).
Abbreviation ebool := N (only parsing).
Abbreviation externalEuint64 := N (only parsing).
Abbreviation bytes := (list N) (only parsing).

Definition wrap64 (z : Z) : Z := z mod 2 ^ 64.

Inductive Asset := METH | MUSDT.

#[global] Instance Asset_eq_dec : EqDecision Asset.
Proof. solve_decision. Defined.

Inductive Error :=
| NebulaVaultOperatorMissing
| NebulaVaultInvalidToken
| InvalidProof
| SenderNotAllowed (h : euint64) (who : address)
| TokenReverted (token : address).

(** ** The state-and-error monad of contract code *)

Definition Exec (S A : Type) : Type := S -> Error + (A * S).

Definition ret {S A} (a : A) : Exec S A := fun s => inr (a, s).

Definition bind {S A B} (m : Exec S A) (k : A -> Exec S B) : Exec S B :=
  fun s => match m s with
           | inl e => inl e
           | inr (a, s') => k a s'
           end.

Definition revert {S A} (e : Error) : Exec S A := fun _ => inl e.

Notation "x <- m ;; k" := (bind m (fun x => k))
  (at level 100, m at next level, right associativity).
Notation "m ;;; k" := (bind m (fun _ => k))
  (at level 100, right associativity).

(** ** The FHE coprocessor and its access-control list *)

(** Modelled from the spec: the FHE library ([FHE.sol]) and the coprocessor
    behind it are not part of the sources.  Spec 2 and 3: a ciphertext is an
    opaque handle to a 64-bit unsigned value, and every ciphertext has a
    list of the principals that were granted access to it. *)
Record FHEVM := mkFHEVM {
  ciphertexts : gmap N Z;
  acl_persistent : gset (N * N);
  acl_transient : gset (N * N);
  counter : N
}.

(** What a handle decrypts to; the uninitialised handle reads as zero. *)
Definition cleartext (f : FHEVM) (h : euint64) : Z :=
  if decide (h = 0%N) then 0 else default 0 (ciphertexts f !! h).

Definition isAllowed (f : FHEVM) (h : euint64) (who : address) : bool :=
  bool_decide ((h, who) ∈ acl_persistent f ∨ (h, who) ∈ acl_transient f).

(** A new ciphertext of cleartext [v], computed on behalf of [this]: the
    result is usable by [this] for the rest of the transaction.  Handles are
    numbered in the order in which the ciphertexts are made, so that every
    operation yields a handle that did not exist before. *)
Definition store_ct (this : address) (v : Z) (f : FHEVM) : FHEVM :=
  let h := N.succ (counter f) in
  {| ciphertexts := <[h := wrap64 v]> (ciphertexts f);
     acl_persistent := acl_persistent f;
     acl_transient := {[ (h, this) ]} ∪ acl_transient f;
     counter := h |}.

Definition new_ct (this : address) (v : Z) (f : FHEVM) : euint64 * FHEVM :=
  (N.succ (counter f), store_ct this v f).

Definition grant (h : euint64) (who : address) (f : FHEVM) : FHEVM :=
  {| ciphertexts := ciphertexts f;
     acl_persistent := {[ (h, who) ]} ∪ acl_persistent f;
     acl_transient := acl_transient f;
     counter := counter f |}.

(** End of a transaction: transient permissions are dropped. *)
Definition clear_transient (f : FHEVM) : FHEVM :=
  {| ciphertexts := ciphertexts f;
     acl_persistent := acl_persistent f;
     acl_transient := ∅;
     counter := counter f |}.

Module FHE.

(** Modelled from the spec: the operations of [FHE.sol], which is not part
    of the sources, are black boxes on encrypted 64-bit integers (spec 2,
    4.3).  An operand must be readable by the calling contract; an
    uninitialised operand stands for an encrypted zero. *)
Definition operand (this : address) (h : euint64) : Exec FHEVM Z :=
  fun f =>
    if decide (h = 0%N) then inr (0, f)
    else if isAllowed f h this then inr (cleartext f h, f)
    else inl (SenderNotAllowed h this).

Definition alloc (this : address) (v : Z) : Exec FHEVM euint64 :=
  fun f => inr (new_ct this v f).

Definition asEuint64 (this : address) (v : Z) : Exec FHEVM euint64 :=
  alloc this v.

Definition add (this : address) (a b : euint64) : Exec FHEVM euint64 :=
  x <- operand this a ;; y <- operand this b ;; alloc this (x + y).

Definition sub (this : address) (a b : euint64) : Exec FHEVM euint64 :=
  x <- operand this a ;; y <- operand this b ;; alloc this (x - y).

Definition ge (this : address) (a b : euint64) : Exec FHEVM ebool :=
  x <- operand this a ;; y <- operand this b ;;
  alloc this (if x >=? y then 1 else 0).

Definition select (this : address) (c : ebool) (a b : euint64)
  : Exec FHEVM euint64 :=
  p <- operand this c ;; x <- operand this a ;; y <- operand this b ;;
  alloc this (if p =? 0 then y else x).

(** [FHE.allow]: only a party that may use the handle can share it. *)
Definition allow (this : address) (h : euint64) (who : address)
  : Exec FHEVM unit :=
  fun f =>
    if isAllowed f h this then inr (tt, grant h who f)
    else inl (SenderNotAllowed h this).

Definition allowThis (this : address) (h : euint64) : Exec FHEVM unit :=
  allow this h this.

(** [FHE.fromExternal]: the input verifier checks that the proof binds the
    input to the contract and to the sender, and yields the validated amount
    or nothing (spec 6); the validated ciphertext is usable by the contract
    for this transaction. *)
Definition fromExternal
    (verifyInput : address -> address -> externalEuint64 -> bytes -> option Z)
    (this sender : address)
    (encryptedAmount : externalEuint64) (inputProof : bytes)
  : Exec FHEVM euint64 :=
  match verifyInput this sender encryptedAmount inputProof with
  | Some v => alloc this v
  | None => revert InvalidProof
  end.

End FHE.

Module FHESafeMath.

(** Modelled from the spec: [FHESafeMath.tryIncrease] is not part of the
    sources.  Spec 4.1: it computes [current + delta] in the 64-bit type,
    [ok] tells whether the sum stayed in range, and [result] is the sum.
    Spec 4.1 fixes what the result decrypts to while the sum stays in
    range; that the result is always a ciphertext made by the call, and
    that it is the wrapped sum when the sum leaves the range, are choices
    of this model.  [FHESafeMathInPlace] below makes the other choices, and
    [Linked] gives the vault over either. *)
Definition tryIncrease (this : address) (oldValue delta : euint64)
  : Exec FHEVM (ebool * euint64) :=
  newValue <- FHE.add this oldValue delta ;;
  success <- FHE.ge this newValue oldValue ;;
  ret (success, newValue).

(** Modelled from the spec: [FHESafeMath.tryDecrease] is not part of the
    sources.  Spec 4.1: [ok = current >= delta] and
    [result = select(ok, current - delta, current)].  The result is the
    ciphertext that [select] makes. *)
Definition tryDecrease (this : address) (oldValue delta : euint64)
  : Exec FHEVM (ebool * euint64) :=
  success <- FHE.ge this oldValue delta ;;
  diff <- FHE.sub this oldValue delta ;;
  updated <- FHE.select this success diff oldValue ;;
  ret (success, updated).

End FHESafeMath.

Definition fhevm0 : FHEVM := mkFHEVM ∅ ∅ ∅ 0.

(** Sum of [g] over the values of a finite map. *)
Definition sumZ {V} (g : V -> Z) (m : gmap N V) : Z :=
  map_fold (fun _ v acc => g v + acc) 0 m.

(** ** The external collaborators *)

(** The confidential token behind an asset (spec 6), seen through what the
    vault calls.  A transfer is given the cleartext of the requested amount
    and answers with the amount it actually moved, or reverts ([None]);
    [initial] are the states the token may be in when the vault is deployed
    and [external_step] is what everybody else may do to the token between
    two transactions of the vault. *)
Record IERC7984 := {
  tstate : Type;
  initial : tstate -> Prop;
  isOperator : tstate -> address -> address -> bool;
  confidentialTransferFrom :
    tstate -> address -> address -> address -> Z -> option (Z * tstate);
  confidentialTransfer :
    tstate -> address -> address -> Z -> option (Z * tstate);
  external_step : tstate -> tstate -> Prop
}.

(** ** Storage of the vault *)

Record Storage := mkStorage {
  methToken : address;
  musdtToken : address;
  _methStakes : gmap N N;
  _musdtStakes : gmap N N;
  _totalMethStaked : euint64;
  _totalMusdtStaked : euint64
}.

(** A Solidity mapping reads as the zero word where nothing was written. *)
Definition mapping_get (m : gmap N N) (k : address) : euint64 :=
  default 0%N (m !! k).

Definition set_methStakes (m : gmap N N) (s : Storage) : Storage :=
  mkStorage (methToken s) (musdtToken s) m (_musdtStakes s)
            (_totalMethStaked s) (_totalMusdtStaked s).

Definition set_musdtStakes (m : gmap N N) (s : Storage) : Storage :=
  mkStorage (methToken s) (musdtToken s) (_methStakes s) m
            (_totalMethStaked s) (_totalMusdtStaked s).

Definition set_totalMethStaked (h : euint64) (s : Storage) : Storage :=
  mkStorage (methToken s) (musdtToken s) (_methStakes s) (_musdtStakes s)
            h (_totalMusdtStaked s).

Definition set_totalMusdtStaked (h : euint64) (s : Storage) : Storage :=
  mkStorage (methToken s) (musdtToken s) (_methStakes s) (_musdtStakes s)
            (_totalMethStaked s) h.

Definition constructor (methTokenAddress musdtTokenAddress : address)
  : Error + Storage :=
  if (methTokenAddress =? 0)%N || (musdtTokenAddress =? 0)%N
  then inl NebulaVaultInvalidToken
  else inr (mkStorage methTokenAddress musdtTokenAddress ∅ ∅ 0%N 0%N).

Definition _getStake (asset : Asset) (account : address) (s : Storage)
  : euint64 :=
  if decide (asset = METH) then mapping_get (_methStakes s) account
  else mapping_get (_musdtStakes s) account.

Definition _getToken (asset : Asset) (s : Storage) : address :=
  if decide (asset = METH) then methToken s else musdtToken s.

Definition getEncryptedStake (account : address) (asset : Asset) (s : Storage)
  : euint64 := _getStake asset account s.

Definition getTotalStaked (asset : Asset) (s : Storage) : euint64 :=
  if decide (asset = METH) then _totalMethStaked s else _totalMusdtStaked s.

(** What a transaction leaves behind besides storage: the calls made to the
    tokens (with the handle passed and the handle returned) and the events. *)
Inductive Effect :=
| Call_confidentialTransferFrom
    (token from to : address) (amount transferred : euint64)
| Call_confidentialTransfer (token to : address) (amount sent : euint64)
| Staked (user : address) (asset : Asset) (amount : euint64)
| Unstaked (user : address) (asset : Asset) (amount : euint64).

(** ** The contract *)

Section NebulaVault.

(** The token model, the encrypted-input verifier (spec 6: it yields the
    validated amount or fails with [InvalidProof]) and [address(this)]. *)
Variable T : IERC7984.
Variable verifyInput :
  address -> address -> externalEuint64 -> bytes -> option Z.
Variable this : address.

(** The chain as the vault sees it.  Each asset has a token state of its
    own: the two assets are served by two token contracts. *)
Record World := mkWorld {
  fhevm : FHEVM;
  vault : Storage;
  methState : tstate T;
  musdtState : tstate T;
  log : list Effect
}.

Definition tokenState (asset : Asset) (w : World) : tstate T :=
  if decide (asset = METH) then methState w else musdtState w.

Definition set_fhevm (f : FHEVM) (w : World) : World :=
  mkWorld f (vault w) (methState w) (musdtState w) (log w).

Definition set_vault (s : Storage) (w : World) : World :=
  mkWorld (fhevm w) s (methState w) (musdtState w) (log w).

Definition set_tokenState (asset : Asset) (t : tstate T) (w : World)
  : World :=
  if decide (asset = METH)
  then mkWorld (fhevm w) (vault w) t (musdtState w) (log w)
  else mkWorld (fhevm w) (vault w) (methState w) t (log w).

Definition record (e : Effect) (w : World) : World :=
  mkWorld (fhevm w) (vault w) (methState w) (musdtState w) (log w ++ [e]).

(** Lifting: coprocessor calls, storage reads and writes, events. *)
Definition fhe {A} (m : Exec FHEVM A) : Exec World A :=
  fun w => match m (fhevm w) with
           | inl e => inl e
           | inr (a, f) => inr (a, set_fhevm f w)
           end.

Definition view {A} (g : Storage -> A) : Exec World A :=
  fun w => inr (g (vault w), w).

Definition sstore (g : Storage -> Storage) : Exec World unit :=
  fun w => inr (tt, set_vault (g (vault w)) w).

Definition emit (e : Effect) : Exec World unit :=
  fun w => inr (tt, record e w).

(** Calls into the token of an asset.  The token must have been allowed to
    read the amount; the ciphertext it returns is readable by both ends of
    the transfer. *)
Definition token_isOperator (asset : Asset) (holder spender : address)
  : Exec World bool :=
  fun w => inr (isOperator T (tokenState asset w) holder spender, w).

Definition token_confidentialTransferFrom
    (asset : Asset) (from to : address) (amount : euint64)
  : Exec World euint64 :=
  fun w =>
    let token := _getToken asset (vault w) in
    if isAllowed (fhevm w) amount token then
      match confidentialTransferFrom T (tokenState asset w) this from to
              (cleartext (fhevm w) amount) with
      | Some (moved, t) =>
          let (transferred, f) := new_ct token moved (fhevm w) in
          inr (transferred,
               record (Call_confidentialTransferFrom
                         token from to amount transferred)
                 (set_tokenState asset t
                    (set_fhevm (grant transferred to
                                  (grant transferred from f)) w)))
      | None => inl (TokenReverted token)
      end
    else inl (TokenReverted token).

Definition token_confidentialTransfer
    (asset : Asset) (to : address) (amount : euint64)
  : Exec World euint64 :=
  fun w =>
    let token := _getToken asset (vault w) in
    if isAllowed (fhevm w) amount token then
      match confidentialTransfer T (tokenState asset w) this to
              (cleartext (fhevm w) amount) with
      | Some (moved, t) =>
          let (sent, f) := new_ct token moved (fhevm w) in
          inr (sent,
               record (Call_confidentialTransfer token to amount sent)
                 (set_tokenState asset t
                    (set_fhevm (grant sent to (grant sent this f)) w)))
      | None => inl (TokenReverted token)
      end
    else inl (TokenReverted token).

(** *** Private functions *)

Definition _updateStakeStorage
    (asset : Asset) (account : address) (value : euint64)
  : Exec World unit :=
  fhe (FHE.allowThis this value) ;;;
  fhe (FHE.allow this value account) ;;;
  if decide (asset = METH)
  then sstore (fun s => set_methStakes (<[account := value]> (_methStakes s)) s)
  else sstore (fun s => set_musdtStakes (<[account := value]> (_musdtStakes s)) s).

Definition _increaseStake
    (asset : Asset) (account : address) (amount : euint64)
  : Exec World unit :=
  current <- view (_getStake asset account) ;;
  r <- fhe (FHESafeMath.tryIncrease this current amount) ;;
  _updateStakeStorage asset account (snd r).

Definition _decreaseStake
    (asset : Asset) (account : address) (amount : euint64)
  : Exec World (ebool * euint64) :=
  current <- view (_getStake asset account) ;;
  fhe (FHESafeMath.tryDecrease this current amount).

Definition _increaseTotal (asset : Asset) (amount : euint64)
  : Exec World unit :=
  if decide (asset = METH) then
    total <- view _totalMethStaked ;;
    r <- fhe (FHESafeMath.tryIncrease this total amount) ;;
    fhe (FHE.allowThis this (snd r)) ;;;
    sstore (set_totalMethStaked (snd r))
  else
    total <- view _totalMusdtStaked ;;
    r <- fhe (FHESafeMath.tryIncrease this total amount) ;;
    fhe (FHE.allowThis this (snd r)) ;;;
    sstore (set_totalMusdtStaked (snd r)).

Definition _decreaseTotal (asset : Asset) (amount : euint64)
  : Exec World unit :=
  if decide (asset = METH) then
    total <- view _totalMethStaked ;;
    r <- fhe (FHESafeMath.tryDecrease this total amount) ;;
    fhe (FHE.allowThis this (snd r)) ;;;
    sstore (set_totalMethStaked (snd r))
  else
    total <- view _totalMusdtStaked ;;
    r <- fhe (FHESafeMath.tryDecrease this total amount) ;;
    fhe (FHE.allowThis this (snd r)) ;;;
    sstore (set_totalMusdtStaked (snd r)).

(** *** External functions; [sender] is [msg.sender] *)

Definition stake (sender : address) (asset : Asset)
    (encryptedAmount : externalEuint64) (inputProof : bytes)
  : Exec World unit :=
  token <- view (_getToken asset) ;;
  approved <- token_isOperator asset sender this ;;
  if negb approved then revert NebulaVaultOperatorMissing else
  amount <- fhe (FHE.fromExternal verifyInput this sender encryptedAmount
                 inputProof) ;;
  fhe (FHE.allow this amount token) ;;;
  transferred <- token_confidentialTransferFrom asset sender this amount ;;
  _increaseStake asset sender transferred ;;;
  _increaseTotal asset transferred ;;;
  emit (Staked sender asset transferred).

Definition unstake (sender : address) (asset : Asset)
    (encryptedAmount : externalEuint64) (inputProof : bytes)
  : Exec World unit :=
  token <- view (_getToken asset) ;;
  requested <- fhe (FHE.fromExternal verifyInput this sender encryptedAmount
                    inputProof) ;;
  r <- _decreaseStake asset sender requested ;;
  zero <- fhe (FHE.asEuint64 this 0) ;;
  withdrawAmount <- fhe (FHE.select this (fst r) requested zero) ;;
  fhe (FHE.allow this withdrawAmount token) ;;;
  sent <- token_confidentialTransfer asset sender withdrawAmount ;;
  _updateStakeStorage asset sender (snd r) ;;;
  _decreaseTotal asset sent ;;;
  emit (Unstaked sender asset sent).

(** *** Transactions *)

Inductive Tx :=
| TxStake (sender : address) (asset : Asset)
    (encryptedAmount : externalEuint64) (inputProof : bytes)
| TxUnstake (sender : address) (asset : Asset)
    (encryptedAmount : externalEuint64) (inputProof : bytes).

Definition tx_sender (tx : Tx) : address :=
  match tx with TxStake s _ _ _ | TxUnstake s _ _ _ => s end.

Definition tx_asset (tx : Tx) : Asset :=
  match tx with TxStake _ a _ _ | TxUnstake _ a _ _ => a end.

Definition call (tx : Tx) : Exec World unit :=
  match tx with
  | TxStake sender asset e p => stake sender asset e p
  | TxUnstake sender asset e p => unstake sender asset e p
  end.

(** A transaction either commits (and its transient permissions end) or
    reverts and leaves the world as it was. *)
Definition commit (w : World) : World :=
  set_fhevm (clear_transient (fhevm w)) w.

Definition execute (tx : Tx) (w : World) : option Error * World :=
  match call tx w with
  | inl e => (Some e, w)
  | inr (_, w') => (None, commit w')
  end.

(** *** Reachable worlds

    Besides the vault's transactions, anybody else may act on the tokens,
    create ciphertexts, and share the ciphertexts they may read.  The vault
    has no code that calls its own external functions, so [msg.sender] is
    never [address(this)]. *)

Inductive Step :=
| Transact (tx : Tx)
| TokenStep (asset : Asset) (t : tstate T)
| Encrypt (who : address) (v : Z)
| Allow (who : address) (h : euint64) (to : address).

Definition enabled (st : Step) (w : World) : Prop :=
  match st with
  | Transact tx => tx_sender tx <> this
  | TokenStep asset t => external_step T (tokenState asset w) t
  | Encrypt who v => who <> this
  | Allow who h to => who <> this /\ (h, who) ∈ acl_persistent (fhevm w)
  end.

Definition next (st : Step) (w : World) : World :=
  match st with
  | Transact tx => snd (execute tx w)
  | TokenStep asset t => set_tokenState asset t w
  | Encrypt who v =>
      let n := new_ct who v (fhevm w) in
      set_fhevm (clear_transient (grant (fst n) who (snd n))) w
  | Allow who h to => set_fhevm (grant h to (fhevm w)) w
  end.

Definition deployed (w : World) : Prop :=
  exists m u s tm tu,
    constructor m u = inr s /\ initial T tm /\ initial T tu /\
    w = mkWorld fhevm0 s tm tu [].

(** Worlds reachable when every transaction of the vault satisfies [P] in
    the world it is sent to. *)
Inductive reachable_by (P : Tx -> World -> Prop) : World -> Prop :=
| reach_deploy w : deployed w -> reachable_by P w
| reach_step w st :
    reachable_by P w -> enabled st w ->
    (forall tx, st = Transact tx -> P tx w) ->
    reachable_by P (next st w).

Definition reachable : World -> Prop := reachable_by (fun _ _ => True).

(** The worlds a given world may evolve into. *)
Inductive evolves (w : World) : World -> Prop :=
| evolves_refl : evolves w w
| evolves_step w' st :
    evolves w w' -> enabled st w' -> evolves w (next st w').

(** *** Decrypted views *)

Definition stakes (asset : Asset) (s : Storage) : gmap N N :=
  if decide (asset = METH) then _methStakes s else _musdtStakes s.

Definition stake_of (w : World) (account : address) (asset : Asset) : Z :=
  cleartext (fhevm w) (getEncryptedStake account asset (vault w)).

Definition total_staked (w : World) (asset : Asset) : Z :=
  cleartext (fhevm w) (getTotalStaked asset (vault w)).

Definition staked_sum (w : World) (asset : Asset) : Z :=
  sumZ (cleartext (fhevm w)) (stakes asset (vault w)).

(** The effects a transaction adds to the log. *)
Definition effects (tx : Tx) (w : World) : list Effect :=
  drop (length (log w)) (log (snd (execute tx w))).

(** A transaction during which the token sends out exactly the amount the
    vault asked it to send, and takes in no more than the total can hold. *)
Definition conservative (tx : Tx) (w : World) : Prop :=
  let w' := snd (execute tx w) in
  forall e, e ∈ effects tx w ->
    match e with
    | Call_confidentialTransfer _ _ amount sent =>
        cleartext (fhevm w') sent = cleartext (fhevm w') amount
    | Call_confidentialTransferFrom _ _ _ _ transferred =>
        total_staked w (tx_asset tx) + cleartext (fhevm w') transferred
        < 2 ^ 64
    | _ => True
    end.

(** *** Invariants of the reachable worlds *)

Definition acl_sound (f : FHEVM) : Prop :=
  forall h a,
    (h, a) ∈ acl_persistent f \/ (h, a) ∈ acl_transient f ->
    (0 < h <= counter f)%N.

Definition in_range (f : FHEVM) : Prop :=
  forall h, 0 <= cleartext f h < 2 ^ 64.

Definition stakes_granted (w : World) : Prop :=
  forall asset a,
    _getStake asset a (vault w) <> 0%N ->
    (_getStake asset a (vault w), this) ∈ acl_persistent (fhevm w) /\
    (_getStake asset a (vault w), a) ∈ acl_persistent (fhevm w).

Definition totals_private (w : World) : Prop :=
  forall asset,
    getTotalStaked asset (vault w) <> 0%N ->
    (getTotalStaked asset (vault w), this) ∈ acl_persistent (fhevm w) /\
    forall p, (getTotalStaked asset (vault w), p) ∈ acl_persistent (fhevm w)
              -> p = this.

Definition vault_inv (w : World) : Prop :=
  acl_sound (fhevm w) /\ in_range (fhevm w) /\
  acl_transient (fhevm w) = ∅ /\
  stakes_granted w /\ totals_private w.

(** A handle that only the vault may read stays so: the vault shares
    nothing but the handles it has just computed, and nobody else can
    share a handle they may not read. *)
Definition sealed (w : World) (h : euint64) : Prop :=
  (h <= counter (fhevm w))%N /\
  forall p, (h, p) ∈ acl_persistent (fhevm w) -> p = this.

End NebulaVault.

Arguments fhe {T A} _ _.
Arguments view {T A} _ _.
Arguments sstore {T} _ _.
Arguments emit {T} _ _.
Arguments token_isOperator {T} _ _ _ _.
Arguments token_confidentialTransferFrom {T} _ _ _ _ _ _.
Arguments token_confidentialTransfer {T} _ _ _ _ _.
Arguments _updateStakeStorage {T} _ _ _ _ _.
Arguments _increaseStake {T} _ _ _ _ _.
Arguments _decreaseStake {T} _ _ _ _ _.
Arguments _increaseTotal {T} _ _ _ _.
Arguments _decreaseTotal {T} _ _ _ _.
Arguments fhevm {T} _.
Arguments vault {T} _.
Arguments methState {T} _.
Arguments musdtState {T} _.
Arguments log {T} _.
Arguments mkWorld {T} _ _ _ _ _.
Arguments tokenState {T} _ _.
Arguments set_fhevm {T} _ _.
Arguments set_vault {T} _ _.
Arguments set_tokenState {T} _ _ _.
Arguments record {T} _ _.
Arguments commit {T} _.
Arguments stake {T} _ _ _ _ _ _ _.
Arguments unstake {T} _ _ _ _ _ _ _.
Arguments call {T} _ _ _ _.
Arguments execute {T} _ _ _ _.
Arguments effects {T} _ _ _ _.
Arguments conservative {T} _ _ _ _.
Arguments enabled {T} _ _ _.
Arguments next {T} _ _ _ _.
Arguments deployed {T} _.
Arguments reachable_by {T} _ _ _ _.
Arguments reachable {T} _ _ _.
Arguments evolves {T} _ _ _ _.
Arguments stake_of {T} _ _ _.
Arguments total_staked {T} _ _.
Arguments staked_sum {T} _ _.
Arguments stakes_granted {T} _ _.
Arguments totals_private {T} _ _.
Arguments vault_inv {T} _ _.
Arguments sealed {T} _ _ _.

(** ** Closed forms

    What a call that does not revert leaves in the coprocessor and in the
    world, written as a function of the cleartexts involved.  [fresh f k] is
    the [k]-th handle created after state [f]. *)

Definition usable (f : FHEVM) (this : address) (h : euint64) : Prop :=
  h = 0%N \/ isAllowed f h this = true.

Definition fresh (f : FHEVM) (k : nat) : euint64 :=
  Nat.iter k N.succ (counter f).

Definition inc (this : address) (x y : Z) (f : FHEVM) : FHEVM :=
  store_ct this (if wrap64 (x + y) >=? x then 1 else 0)
    (store_ct this (x + y) f).

Definition dec (this : address) (x y : Z) (f : FHEVM) : FHEVM :=
  store_ct this (if x >=? y then wrap64 (x - y) else x)
    (store_ct this (x - y) (store_ct this (if x >=? y then 1 else 0) f)).

Definition set_stake (asset : Asset) (account : address) (value : euint64)
    (s : Storage) : Storage :=
  if decide (asset = METH)
  then set_methStakes (<[account := value]> (_methStakes s)) s
  else set_musdtStakes (<[account := value]> (_musdtStakes s)) s.

Definition set_total (asset : Asset) (value : euint64) (s : Storage)
  : Storage :=
  if decide (asset = METH) then set_totalMethStaked value s
  else set_totalMusdtStaked value s.

(** The amount released by a withdrawal: all of it or nothing. *)
Definition withdrawable (s0 r : Z) : Z := if s0 >=? r then r else 0.

Definition stake_fhevm (this token sender : address) (s0 t0 v moved : Z)
    (f : FHEVM) : FHEVM :=
  let f1 := grant (fresh f 1) token (store_ct this v f) in
  let f2 := grant (fresh f 2) this
              (grant (fresh f 2) sender (store_ct token moved f1)) in
  let f3 := grant (fresh f 3) sender
              (grant (fresh f 3) this (inc this s0 (wrap64 moved) f2)) in
  grant (fresh f 5) this (inc this t0 (wrap64 moved) f3).

Definition unstake_fhevm (this token sender : address) (s0 t0 v moved : Z)
    (f : FHEVM) : FHEVM :=
  let r := wrap64 v in
  let f1 := dec this s0 r (store_ct this v f) in
  let f2 := store_ct this (withdrawable s0 r) (store_ct this 0 f1) in
  let f3 := grant (fresh f 7) sender
              (grant (fresh f 7) this
                 (store_ct token moved (grant (fresh f 6) token f2))) in
  let f4 := grant (fresh f 4) sender (grant (fresh f 4) this f3) in
  grant (fresh f 10) this (dec this t0 (wrap64 moved) f4).

Section ClosedForms.

Context {T : IERC7984}.

Definition stake_world (this sender : address) (asset : Asset)
    (v moved : Z) (t : tstate T) (w : World T) : World T :=
  let f := fhevm w in
  let token := _getToken asset (vault w) in
  record (Staked sender asset (fresh f 2))
    (record (Call_confidentialTransferFrom token sender this
               (fresh f 1) (fresh f 2))
       (set_tokenState asset t
          (mkWorld
             (stake_fhevm this token sender (stake_of w sender asset)
                (total_staked w asset) v moved f)
             (set_total asset (fresh f 5)
                (set_stake asset sender (fresh f 3) (vault w)))
             (methState w) (musdtState w) (log w)))).

Definition unstake_world (this sender : address) (asset : Asset)
    (v moved : Z) (t : tstate T) (w : World T) : World T :=
  let f := fhevm w in
  let token := _getToken asset (vault w) in
  record (Unstaked sender asset (fresh f 7))
    (record (Call_confidentialTransfer token sender (fresh f 6) (fresh f 7))
       (set_tokenState asset t
          (mkWorld
             (unstake_fhevm this token sender (stake_of w sender asset)
                (total_staked w asset) v moved f)
             (set_total asset (fresh f 10)
                (set_stake asset sender (fresh f 4) (vault w)))
             (methState w) (musdtState w) (log w)))).

End ClosedForms.

(** The coprocessor after a committed call that wrote the handle [hS] into
    the stake of [sender] and the handle [hT] into a total. *)
Record written (this sender : address) (f F : FHEVM) (hS hT : euint64)
  : Prop := {
  wr_counter : (counter f <= counter F)%N;
  wr_stake_new : (counter f < hS <= counter F)%N;
  wr_total_new : (counter f < hT <= counter F)%N;
  wr_distinct : hS <> hT;
  wr_transient : acl_transient F = ∅;
  wr_old : forall h, (h <= counter f)%N -> cleartext F h = cleartext f h;
  wr_range : in_range f -> in_range F;
  wr_mono :
    forall h a, (h, a) ∈ acl_persistent f -> (h, a) ∈ acl_persistent F;
  wr_old_acl :
    forall h a, (h, a) ∈ acl_persistent F -> (h <= counter f)%N ->
                (h, a) ∈ acl_persistent f;
  wr_new_acl :
    forall h a, (h, a) ∈ acl_persistent F -> ~ (h <= counter f)%N ->
                (counter f < h <= counter F)%N;
  wr_stake_this : (hS, this) ∈ acl_persistent F;
  wr_stake_owner : (hS, sender) ∈ acl_persistent F;
  wr_total_this : (hT, this) ∈ acl_persistent F;
  wr_total_only : forall p, (hT, p) ∈ acl_persistent F -> p = this
}.

(** ** The vault over any arithmetic library

    [FHESafeMath] is linked into the vault from a package, and spec 4.1
    fixes what its results decrypt to, not which ciphertext carries them.
    The contract is therefore also given over a library that is a
    parameter; [Linked.stake] and [Linked.unstake] are [stake] and
    [unstake] with [FHESafeMath] replaced by the library [L]. *)

Record SafeArithmetic := {
  tryIncrease : address -> euint64 -> euint64 -> Exec FHEVM (ebool * euint64);
  tryDecrease : address -> euint64 -> euint64 -> Exec FHEVM (ebool * euint64)
}.

(** The library as it is modelled above: every result is a ciphertext made
    by the call. *)
Definition FHESafeMath_library : SafeArithmetic :=
  {| tryIncrease := FHESafeMath.tryIncrease;
     tryDecrease := FHESafeMath.tryDecrease |}.

Module FHESafeMathInPlace.

(** Modelled from the spec: a library that agrees with [FHESafeMath] on
    what spec 4.1 fixes, the value of a sum that stays in range, and
    differs where it does not.  It makes no new ciphertext where there is
    nothing to compute: increasing a value that was never written gives
    back the very ciphertext it was asked to add, with the flag set.  And
    a sum that leaves the range is dropped: the result is the old value. *)
Definition tryIncrease (this : address) (oldValue delta : euint64)
  : Exec FHEVM (ebool * euint64) :=
  if decide (oldValue = 0%N) then
    success <- FHE.alloc this 1 ;;
    ret (success, delta)
  else
    newValue <- FHE.add this oldValue delta ;;
    success <- FHE.ge this newValue oldValue ;;
    updated <- FHE.select this success newValue oldValue ;;
    ret (success, updated).

Definition tryDecrease (this : address) (oldValue delta : euint64)
  : Exec FHEVM (ebool * euint64) :=
  FHESafeMath.tryDecrease this oldValue delta.

End FHESafeMathInPlace.

Definition FHESafeMathInPlace_library : SafeArithmetic :=
  {| tryIncrease := FHESafeMathInPlace.tryIncrease;
     tryDecrease := FHESafeMathInPlace.tryDecrease |}.

(** A library that makes its results: a call leaves the lasting
    permissions as they are, and its result is a ciphertext created during
    the call, as is every ciphertext it leaves a permission of the
    transaction on. *)
Definition makes_its_result
    (op : address -> euint64 -> euint64 -> Exec FHEVM (ebool * euint64))
  : Prop :=
  forall this x y f ok r f',
    op this x y f = inr ((ok, r), f') ->
    (counter f < r <= counter f')%N /\
    acl_persistent f' = acl_persistent f /\
    forall h a,
      (h, a) ∈ acl_transient f' ->
      (h, a) ∈ acl_transient f \/ (counter f < h <= counter f')%N.

Definition makes_its_results (L : SafeArithmetic) : Prop :=
  makes_its_result (tryIncrease L) /\ makes_its_result (tryDecrease L).

Module Linked.

Section Vault.

Variable L : SafeArithmetic.
Variable T : IERC7984.
Variable verifyInput :
  address -> address -> externalEuint64 -> bytes -> option Z.
Variable this : address.

Definition _increaseStake
    (asset : Asset) (account : address) (amount : euint64)
  : Exec (World T) unit :=
  current <- view (_getStake asset account) ;;
  r <- fhe (tryIncrease L this current amount) ;;
  _updateStakeStorage this asset account (snd r).

Definition _decreaseStake
    (asset : Asset) (account : address) (amount : euint64)
  : Exec (World T) (ebool * euint64) :=
  current <- view (_getStake asset account) ;;
  fhe (tryDecrease L this current amount).

Definition _increaseTotal (asset : Asset) (amount : euint64)
  : Exec (World T) unit :=
  if decide (asset = METH) then
    total <- view _totalMethStaked ;;
    r <- fhe (tryIncrease L this total amount) ;;
    fhe (FHE.allowThis this (snd r)) ;;;
    sstore (set_totalMethStaked (snd r))
  else
    total <- view _totalMusdtStaked ;;
    r <- fhe (tryIncrease L this total amount) ;;
    fhe (FHE.allowThis this (snd r)) ;;;
    sstore (set_totalMusdtStaked (snd r)).

Definition _decreaseTotal (asset : Asset) (amount : euint64)
  : Exec (World T) unit :=
  if decide (asset = METH) then
    total <- view _totalMethStaked ;;
    r <- fhe (tryDecrease L this total amount) ;;
    fhe (FHE.allowThis this (snd r)) ;;;
    sstore (set_totalMethStaked (snd r))
  else
    total <- view _totalMusdtStaked ;;
    r <- fhe (tryDecrease L this total amount) ;;
    fhe (FHE.allowThis this (snd r)) ;;;
    sstore (set_totalMusdtStaked (snd r)).

Definition stake (sender : address) (asset : Asset)
    (encryptedAmount : externalEuint64) (inputProof : bytes)
  : Exec (World T) unit :=
  token <- view (_getToken asset) ;;
  approved <- token_isOperator asset sender this ;;
  if negb approved then revert NebulaVaultOperatorMissing else
  amount <- fhe (FHE.fromExternal verifyInput this sender encryptedAmount
                 inputProof) ;;
  fhe (FHE.allow this amount token) ;;;
  transferred <- token_confidentialTransferFrom this asset sender this
                   amount ;;
  _increaseStake asset sender transferred ;;;
  _increaseTotal asset transferred ;;;
  emit (Staked sender asset transferred).

Definition unstake (sender : address) (asset : Asset)
    (encryptedAmount : externalEuint64) (inputProof : bytes)
  : Exec (World T) unit :=
  token <- view (_getToken asset) ;;
  requested <- fhe (FHE.fromExternal verifyInput this sender encryptedAmount
                    inputProof) ;;
  r <- _decreaseStake asset sender requested ;;
  zero <- fhe (FHE.asEuint64 this 0) ;;
  withdrawAmount <- fhe (FHE.select this (fst r) requested zero) ;;
  fhe (FHE.allow this withdrawAmount token) ;;;
  sent <- token_confidentialTransfer this asset sender withdrawAmount ;;
  _updateStakeStorage this asset sender (snd r) ;;;
  _decreaseTotal asset sent ;;;
  emit (Unstaked sender asset sent).

Definition call (tx : Tx) : Exec (World T) unit :=
  match tx with
  | TxStake sender asset e p => stake sender asset e p
  | TxUnstake sender asset e p => unstake sender asset e p
  end.

Definition execute (tx : Tx) (w : World T) : option Error * World T :=
  match call tx w with
  | inl e => (Some e, w)
  | inr (_, w') => (None, commit w')
  end.

Definition next (st : Step T) (w : World T) : World T :=
  match st with
  | Transact _ tx => snd (execute tx w)
  | TokenStep _ asset t => set_tokenState asset t w
  | Encrypt _ who v =>
      let n := new_ct who v (fhevm w) in
      set_fhevm (clear_transient (grant (fst n) who (snd n))) w
  | Allow _ who h to => set_fhevm (grant h to (fhevm w)) w
  end.

Inductive reachable : World T -> Prop :=
| reach_deploy w : deployed w -> reachable w
| reach_step w st :
    reachable w -> enabled this st w -> reachable (next st w).

Inductive evolves (w : World T) : World T -> Prop :=
| evolves_refl : evolves w w
| evolves_step w' st :
    evolves w w' -> enabled this st w' -> evolves w (next st w').

End Vault.

End Linked.

(** ** What a call leaves behind

    Predicates on the runs of contract code and on the worlds in the
    course of a call, for the vault over any library. *)

(** Weakest preconditions for runs that return. *)
Definition wp {S A} (m : Exec S A) (Q : A -> S -> Prop) (s : S) : Prop :=
  match m s with
  | inl _ => True
  | inr (a, s') => Q a s'
  end.

(** The coprocessor in the course of a transaction that started at [f0]. *)
Record during (f0 f : FHEVM) : Prop := {
  du_counter : (counter f0 <= counter f)%N;
  du_sound : acl_sound f;
  du_old : forall h a, (h, a) ∈ acl_persistent f -> (h <= counter f0)%N ->
                       (h, a) ∈ acl_persistent f0
}.

(** What a call that returns leaves: it has shared no ciphertext that
    existed before, and a total it has written is a ciphertext made during
    the call that only the vault may read. *)
Definition left_by {T : IERC7984} (this : address) (w0 w : World T) : Prop :=
  during (fhevm w0) (fhevm w) /\
  forall asset,
    getTotalStaked asset (vault w) = getTotalStaked asset (vault w0) \/
    ((counter (fhevm w0) < getTotalStaked asset (vault w)
      <= counter (fhevm w))%N /\
     forall p, (getTotalStaked asset (vault w), p)
                 ∈ acl_persistent (fhevm w) -> p = this).

(** A world in the course of a call that started in [w0]: no ciphertext
    that existed before has been shared and the totals are still those of
    [w0]. *)
Definition mid {T : IERC7984} (w0 w : World T) : Prop :=
  during (fhevm w0) (fhevm w) /\
  forall asset, getTotalStaked asset (vault w) = getTotalStaked asset (vault w0).

Definition made_in {T : IERC7984} (w0 : World T) (h : euint64) : Prop :=
  (counter (fhevm w0) < h)%N.

(** Between transactions: the permissions are sound, none is left over
    from a transaction. *)
Definition quiet {T : IERC7984} (w : World T) : Prop :=
  acl_sound (fhevm w) /\ acl_transient (fhevm w) = ∅.

(** ** Tokens and inputs to run the vault against *)

Definition MAX_UINT64 : Z := 2 ^ 64 - 1.

Module ERC7984.

(** Modelled from the spec: the token contracts extend [ERC7984.sol],
    which is not part of the sources (spec 1, 6).  This is a token "that
    moves exactly the requested amounts" (spec 8): a transfer moves the
    whole amount when the holder's balance covers it and nothing otherwise;
    [mint] is what the faucets of the two tokens do, and the supply stays
    within 64 bits. *)
Record state := mkState {
  balances : gmap N Z;
  operators : gset (N * N)
}.

Definition empty : state := mkState ∅ ∅.

Definition balanceOf (t : state) (a : address) : Z :=
  default 0 (balances t !! a).

Definition totalSupply (t : state) : Z := sumZ (fun z => z) (balances t).

Definition isOperator (t : state) (holder spender : address) : bool :=
  bool_decide (holder = spender) ||
  bool_decide ((holder, spender) ∈ operators t).

Definition setOperator (t : state) (holder operator : address) : state :=
  mkState (balances t) ({[ (holder, operator) ]} ∪ operators t).

Definition credit (b : gmap N Z) (to : address) (amount : Z) : gmap N Z :=
  <[to := wrap64 (default 0 (b !! to) + amount)]> b.

Definition _update (t : state) (from to : address) (amount : Z)
  : Z * state :=
  let transferred := if amount <=? balanceOf t from then amount else 0 in
  let b := <[from := balanceOf t from - transferred]> (balances t) in
  (transferred, mkState (credit b to transferred) (operators t)).

Definition mint (t : state) (to : address) (amount : Z) : state :=
  let minted :=
    if totalSupply t + amount <=? MAX_UINT64 then amount else 0 in
  mkState (credit (balances t) to minted) (operators t).

Definition transferFrom (t : state) (caller from to : address) (amount : Z)
  : option (Z * state) :=
  if isOperator t from caller then Some (_update t from to amount)
  else None.

Definition transfer (t : state) (caller to : address) (amount : Z)
  : option (Z * state) :=
  Some (_update t caller to amount).

(** What the other accounts do to the token; the vault itself only acts
    through [stake] and [unstake]. *)
Inductive step (vault : address) (t : state) : state -> Prop :=
| step_mint to amount :
    0 <= amount -> step vault t (mint t to amount)
| step_setOperator holder operator :
    holder <> vault -> step vault t (setOperator t holder operator)
| step_transfer caller to amount :
    caller <> vault -> 0 <= amount ->
    step vault t (snd (_update t caller to amount))
| step_transferFrom caller from to amount :
    caller <> vault -> isOperator t from caller = true -> 0 <= amount ->
    step vault t (snd (_update t from to amount)).

Definition model (vault : address) : IERC7984 :=
  Build_IERC7984 state (fun t => t = empty) isOperator transferFrom
    transfer (step vault).

(** Balances are never negative, the supply fits 64 bits, and [vault] has
    made nobody an operator of its own balance. *)
Definition sane (vault : N) (t : state) : Prop :=
  (forall a z, balances t !! a = Some z -> 0 <= z) /\
  totalSupply t <= MAX_UINT64 /\
  (forall x, (vault, x) ∈ operators t -> x = vault).

End ERC7984.

(** The tokens are sane and the vault holds at least what is staked. *)
Definition custody (this : address) (w : World (ERC7984.model this))
  : Prop :=
  forall asset,
    ERC7984.sane this (tokenState asset w) /\
    staked_sum w asset <= ERC7984.balanceOf (tokenState asset w) this.

(** A token that keeps half of every outgoing transfer as a fee. *)
Definition FeeToken : IERC7984 :=
  {| tstate := unit;
     initial := fun _ => True;
     isOperator := fun _ _ _ => true;
     confidentialTransferFrom := fun t _ _ _ amount => Some (amount, t);
     confidentialTransfer := fun t _ _ amount => Some (amount / 2, t);
     external_step := fun _ _ => False |}.

(** A token that reports one unit more than it was asked to send. *)
Definition BonusToken : IERC7984 :=
  {| tstate := unit;
     initial := fun _ => True;
     isOperator := fun _ _ _ => true;
     confidentialTransferFrom := fun t _ _ _ amount => Some (amount, t);
     confidentialTransfer := fun t _ _ amount => Some (amount + 1, t);
     external_step := fun _ _ => False |}.

(** A token that refuses to move anything out of an account that never
    held a balance; its state is the set of accounts that have held one. *)
Definition ZeroBalanceToken : IERC7984 :=
  {| tstate := gset N;
     initial := fun t => t = ∅;
     isOperator := fun _ _ _ => true;
     confidentialTransferFrom :=
       fun t _ from to amount =>
         if decide (from ∈ t) then Some (amount, {[ to ]} ∪ t) else None;
     confidentialTransfer :=
       fun t caller to amount =>
         if decide (caller ∈ t) then Some (amount, {[ to ]} ∪ t) else None;
     external_step := fun t t' => exists a, t' = {[ a ]} ∪ t |}.

(** Modelled from the spec: the input verifier is external (spec 6).  This
    is the one of the mock network used by the tests: an input is bound to
    the contract and to the user it was encrypted for. *)
Definition mock_verifyInput (contract user : address)
    (encrypted : externalEuint64) (inputProof : bytes) : option Z :=
  if decide (inputProof = [contract; user]) then Some (Z.of_N encrypted)
  else None.

(** ** The scenario of the test suite

    [alice] receives 1,000,000 units of mETH from the faucet, makes the vault
    an operator, stakes half of her balance and takes it out again. *)

Module Scenario.

Definition vault_address : address := 0xA0%N.
Definition meth : address := 0xE1%N.
Definition musdt : address := 0xE2%N.
Definition alice : address := 0xA1%N.
Definition bob : address := 0xB0%N.

Definition M : IERC7984 := ERC7984.model vault_address.

Definition proof_for (user : address) : bytes := [vault_address; user].

Definition run (st : Step M) (w : World M) : World M :=
  next mock_verifyInput vault_address st w.

Definition w_deployed : World M :=
  mkWorld (T := M) fhevm0 (mkStorage meth musdt ∅ ∅ 0%N 0%N)
    ERC7984.empty ERC7984.empty [].

Definition w_funded : World M :=
  run (TokenStep M METH (ERC7984.mint ERC7984.empty alice 1000000))
    w_deployed.

Definition w_approved : World M :=
  run (TokenStep M METH
         (ERC7984.setOperator (tokenState METH w_funded) alice
            vault_address))
    w_funded.

Definition tx_stake_half : Tx :=
  TxStake alice METH 500000%N (proof_for alice).

Definition tx_unstake_half : Tx :=
  TxUnstake alice METH 500000%N (proof_for alice).

Definition tx_unstake_too_much : Tx :=
  TxUnstake alice METH 600000%N (proof_for alice).

Definition w_staked : World M := run (Transact M tx_stake_half) w_approved.

Definition w_unstaked : World M :=
  run (Transact M tx_unstake_half) w_staked.

(** The same deposit of 10 units against the two unfaithful tokens. *)
Definition tx_stake_ten : Tx := TxStake alice METH 10%N (proof_for alice).

Definition tx_unstake_ten : Tx :=
  TxUnstake alice METH 10%N (proof_for alice).

Definition w_fee_deployed : World FeeToken :=
  mkWorld (T := FeeToken) fhevm0 (mkStorage meth musdt ∅ ∅ 0%N 0%N) tt tt [].

Definition w_fee_staked : World FeeToken :=
  next mock_verifyInput vault_address
    (Transact FeeToken tx_stake_ten) w_fee_deployed.

Definition w_fee_unstaked : World FeeToken :=
  next mock_verifyInput vault_address
    (Transact FeeToken tx_unstake_ten) w_fee_staked.

(** Two deposits of 2^63 units each, by alice and by bob, through a token
    that has that much to move. *)
Definition tx_stake_big (who : address) : Tx :=
  TxStake who METH (2 ^ 63)%N (proof_for who).

Definition w_fee_big : World FeeToken :=
  next mock_verifyInput vault_address
    (Transact FeeToken (tx_stake_big bob))
    (next mock_verifyInput vault_address
       (Transact FeeToken (tx_stake_big alice)) w_fee_deployed).

Definition w_bonus_deployed : World BonusToken :=
  mkWorld (T := BonusToken) fhevm0 (mkStorage meth musdt ∅ ∅ 0%N 0%N)
    tt tt [].

Definition w_bonus_staked : World BonusToken :=
  next mock_verifyInput vault_address
    (Transact BonusToken tx_stake_ten) w_bonus_deployed.

Definition w_bonus_unstaked : World BonusToken :=
  next mock_verifyInput vault_address
    (Transact BonusToken tx_unstake_ten) w_bonus_staked.

(** A withdrawal of 11 units against the stake of 10, with the token that
    reports one unit more than it was asked to send. *)
Definition tx_unstake_eleven : Tx :=
  TxUnstake alice METH 11%N (proof_for alice).

Definition w_bonus_over : World BonusToken :=
  next mock_verifyInput vault_address
    (Transact BonusToken tx_unstake_eleven) w_bonus_staked.

(** A vault that never held a token, with the token that moves nothing
    out of such an account: alice asks for 5 units. *)
Definition w_strict_deployed : World ZeroBalanceToken :=
  mkWorld (T := ZeroBalanceToken) fhevm0 (mkStorage meth musdt ∅ ∅ 0%N 0%N)
    ∅ ∅ [].

Definition tx_unstake_five : Tx :=
  TxUnstake alice METH 5%N (proof_for alice).

(** A stake of 2^64 - 1 units, then one unit more. *)
Definition tx_stake_most : Tx :=
  TxStake alice METH (2 ^ 64 - 1)%N (proof_for alice).

Definition tx_stake_one : Tx := TxStake alice METH 1%N (proof_for alice).

Definition w_fee_full : World FeeToken :=
  next mock_verifyInput vault_address
    (Transact FeeToken tx_stake_most) w_fee_deployed.

Definition w_fee_over : World FeeToken :=
  next mock_verifyInput vault_address
    (Transact FeeToken tx_stake_one) w_fee_full.

(** The same two deposits, and the stake of the test, by a vault that is
    linked against [FHESafeMathInPlace]. *)
Definition run_in_place {T : IERC7984} (st : Step T) (w : World T)
  : World T :=
  Linked.next FHESafeMathInPlace_library T mock_verifyInput vault_address
    st w.

Definition w_in_place_fee_full : World FeeToken :=
  run_in_place (Transact FeeToken tx_stake_most) w_fee_deployed.

Definition w_in_place_fee_over : World FeeToken :=
  run_in_place (Transact FeeToken tx_stake_one) w_in_place_fee_full.

Definition w_in_place_staked : World M :=
  run_in_place (Transact M tx_stake_half) w_approved.

End Scenario.

(** ** The trace of a vault

    What the log of a vault looks like: every call into a token is followed
    by the event that reports it. *)

(** A deposit pulls from the staker into the vault and reports the handle
    the token returned; a withdrawal sends to the unstaker and reports the
    handle the token returned; the token is the one of the asset. *)
Fixpoint paired (this : address) (s : Storage) (l : list Effect) : bool :=
  match l with
  | [] => true
  | Call_confidentialTransferFrom token from to _ transferred
      :: Staked user asset amount :: l' =>
      bool_decide (token = _getToken asset s /\ from = user /\ to = this /\
                   amount = transferred)
      && paired this s l'
  | Call_confidentialTransfer token to _ sent
      :: Unstaked user asset amount :: l' =>
      bool_decide (token = _getToken asset s /\ to = user /\ amount = sent)
      && paired this s l'
  | _ => false
  end.

(** Whether [account] has a committed [stake] or [unstake] on [asset]. *)
Definition touched (account : address) (asset : Asset) (l : list Effect)
  : bool :=
  existsb (fun e => match e with
                    | Staked user a _ | Unstaked user a _ =>
                        bool_decide (user = account /\ a = asset)
                    | _ => false
                    end) l.

(** ** The helpers of the test suite *)

(** Modelled from the spec: user decryption is a service of the relayer,
    which is not part of the sources.  Spec 6: it "returns the plaintext
    value iff a PermissionGrant exists for that requester"; the request
    names a contract, which must hold a lasting grant as well. *)
Definition userDecryptEuint (f : FHEVM) (handle : euint64)
    (contractAddress signer : address) : option Z :=
  if bool_decide ((handle, signer) ∈ acl_persistent f)
     && bool_decide ((handle, contractAddress) ∈ acl_persistent f)
  then Some (cleartext f handle)
  else None.

(** [Number(clear)] for a non-negative [bigint]: the nearest double, ties
    to even.  A double holds 53 significant bits; [k] is the number of bits
    of [n] beyond them. *)
Definition Number_of_bigint (n : Z) : Z :=
  let k := Z.log2 n - 52 in
  if k <=? 0 then n
  else
    let q := Z.shiftr n k in
    let r := Z.land n (Z.ones k) in
    let half := Z.shiftl 1 (k - 1) in
    let q' := if (half <? r) || ((r =? half) && Z.odd q) then q + 1 else q in
    Z.shiftl q' k.

(** [decryptBalance] of the tests: the zero handle reads as 0 without
    asking the relayer. *)
Definition decryptBalance (f : FHEVM) (tokenAddress : address)
    (encryptedValue : euint64) (signer : address) : option Z :=
  if decide (encryptedValue = 0%N) then Some 0
  else Number_of_bigint <$> userDecryptEuint f encryptedValue tokenAddress
                              signer.

(** ** The command-line tasks *)

(** [enum Asset { METH, MUSDT }] as a call encodes it: the members are
    numbered from 0 in the order of the declaration, and a call that
    carries any other number reverts before the function body runs. *)
Definition Asset_of_uint8 (n : N) : option Asset :=
  match n with
  | 0%N => Some METH
  | 1%N => Some MUSDT
  | _ => None
  end.

Module Tasks.

Import Stdlib.Strings.String Stdlib.Strings.Ascii.
Local Open Scope string_scope.

(** [enum AssetFlag { METH = 0, MUSDT = 1 }]. *)
Inductive AssetFlag := METH | MUSDT.

Definition AssetFlag_value (flag : AssetFlag) : N :=
  match flag with
  | METH => 0
  | MUSDT => 1
  end.

(** [toLowerCase] on the characters of a command-line argument, one
    character per byte.  Only the letters A to Z change; no character
    outside ASCII becomes one of the letters of the two accepted names, so
    leaving those characters as they are does not change what [parseAsset]
    answers. *)
Definition lower (c : ascii) : ascii :=
  let n := N_of_ascii c in
  if (65 <=? n)%N && (n <=? 90)%N then ascii_of_N (n + 32) else c.

Fixpoint toLowerCase (s : string) : string :=
  match s with
  | EmptyString => EmptyString
  | String c s' => String (lower c) (toLowerCase s')
  end.

(** [parseAsset]; [inl] is the message of the error thrown. *)
Definition parseAsset (asset : string) : string + AssetFlag :=
  if toLowerCase asset =? "meth" then inr METH
  else if toLowerCase asset =? "musdt" then inr MUSDT
  else inl "asset must be either meth or musdt".

End Tasks.

(** ** The dashboard

    The [VaultApp] component: its state, and the handlers that talk to the
    wallet and to the chain.  What a handler awaits is settled when it asks
    for it: a promise is its value or what it was rejected with. *)

Module VaultApp.

Import Stdlib.Strings.String.
Local Open Scope string_scope.

(** [type TokenKey = 'meth' | 'musdt'], and the key inside a template
    literal. *)
Inductive TokenKey := meth | musdt.

Definition key_text (token : TokenKey) : string :=
  match token with
  | meth => "meth"
  | musdt => "musdt"
  end.

Definition ZERO_ADDRESS : string :=
  "0x0000000000000000000000000000000000000000".

(** [CONTRACT_ADDRESSES] comes from [config/contracts.ts], which is not
    part of the sources; the component reads its entries [meth], [musdt]
    and [vault]. *)
Record ContractAddresses := {
  ca_meth : string;
  ca_musdt : string;
  ca_vault : string
}.

Definition Object_values (c : ContractAddresses) : list string :=
  [ca_meth c; ca_musdt c; ca_vault c].

Record TokenConfig := {
  label : string;
  description : string;
  faucetHint : string;
  assetIndex : N;
  address : string
}.

Definition TOKEN_CONFIG (c : ContractAddresses) (token : TokenKey)
  : TokenConfig :=
  match token with
  | meth =>
      {| label := "mETH";
         description := "Confidential ETH twin minted inside NebulaVault.";
         faucetHint := "Mints 1.0 mETH (10^6 base units).";
         assetIndex := 0;
         address := ca_meth c |}
  | musdt =>
      {| label := "mUSDT";
         description := "Encrypted stablecoin backed by the vault.";
         faucetHint := "Mints 1000 mUSDT for quick testing.";
         assetIndex := 1;
         address := ca_musdt c |}
  end.

(** *** State *)

Inductive Field := stake | unstake.

Record Form := mkForm { form_stake : string; form_unstake : string }.

Record Forms := mkForms { forms_meth : Form; forms_musdt : Form }.

Definition initialForms : Forms :=
  mkForms (mkForm EmptyString EmptyString) (mkForm EmptyString EmptyString).

(** [forms[token]], [form[field]], and the two spreads
    [{...form, [field]: value}] and [{...forms, [token]: form}]. *)
Definition prop_form (forms : Forms) (token : TokenKey) : Form :=
  match token with
  | meth => forms_meth forms
  | musdt => forms_musdt forms
  end.

Definition prop_field (form : Form) (field : Field) : string :=
  match field with
  | stake => form_stake form
  | unstake => form_unstake form
  end.

Definition with_field (form : Form) (field : Field) (value : string)
  : Form :=
  match field with
  | stake => mkForm value (form_unstake form)
  | unstake => mkForm (form_stake form) value
  end.

Definition with_form (forms : Forms) (token : TokenKey) (form : Form)
  : Forms :=
  match token with
  | meth => mkForms form (forms_musdt forms)
  | musdt => mkForms (forms_meth forms) form
  end.

(** What is thrown: an [Error] with its message, or another value. *)
Inductive Thrown := ErrorObject (message : string) | OtherValue.

Definition Promise (A : Type) : Type := (Thrown + A)%type.

(** A contract object: the address it points to and the signer it sends
    with.  Signers, transaction responses, ciphertext handles and input
    proofs are named by strings. *)
Record Contract := { target : string; runner : string }.

Record Encrypted := { handles : list string; inputProof : string }.

Inductive Method :=
| Method_faucet (to : option string)
| Method_setOperator (operator : string) (until : Z)
| Method_stake (asset : N) (handle : option string) (proof : string)
| Method_unstake (asset : N) (handle : option string) (proof : string).

(** The five [useState] cells of the component, and the calls it has asked
    the wallet to send. *)
Record Page := mkPage {
  forms : Forms;
  pendingAction : option string;
  statusMessage : string;
  decryptedValues : list (string * string);
  decryptingKey : option string;
  requests : list (Contract * Method)
}.

(** What the component gets from its hooks and from the libraries it
    calls: the connected account ([address] of [useAccount]), the signer,
    the encryption instance, the answers of the chain, and the clock.
    [parseToUnits] computes on floating-point numbers and is left as it is
    found: a function from the text of a field to an amount or an error. *)
Record Env := {
  CONTRACT_ADDRESSES : ContractAddresses;
  account : option string;
  signerPromise : Promise (option string);
  instance : option unit;
  encrypt : string -> string -> Z -> Promise Encrypted;
  send : Contract -> Method -> Promise string;
  wait : string -> Promise unit;
  parseToUnits : string -> Promise Z;
  Date_now : Z
}.

(** *** Asynchronous handlers: state passing with exceptions *)

Definition Async (A : Type) : Type := Page -> Promise A * Page.

#[export] Instance Async_ret : MRet Async := fun A a p => (inr a, p).

#[export] Instance Async_bind : MBind Async :=
  fun A B k m p =>
    match m p with
    | (inl e, p') => (inl e, p')
    | (inr a, p') => k a p'
    end.

Definition throw {A} (message : string) : Async A :=
  fun p => (inl (ErrorObject message), p).

Definition await {A} (promise : Promise A) : Async A :=
  fun p => (promise, p).

Definition try_catch {A} (body : Async A) (handler : Thrown -> Async A)
  : Async A :=
  fun p =>
    match body p with
    | (inl e, p') => handler e p'
    | (inr a, p') => (inr a, p')
    end.

Definition try_finally {A} (body : Async A) (finalizer : Async unit)
  : Async A :=
  fun p =>
    let (r, p') := body p in
    match finalizer p' with
    | (inl e, p'') => (inl e, p'')
    | (inr _, p'') => (r, p'')
    end.

Definition useForms : Async Forms := fun p => (inr (forms p), p).

Definition setForms (update : Forms -> Forms) : Async unit :=
  fun p =>
    (inr tt,
     mkPage (update (forms p)) (pendingAction p) (statusMessage p)
       (decryptedValues p) (decryptingKey p) (requests p)).

Definition setPendingAction (value : option string) : Async unit :=
  fun p =>
    (inr tt,
     mkPage (forms p) value (statusMessage p) (decryptedValues p)
       (decryptingKey p) (requests p)).

Definition setStatusMessage (value : string) : Async unit :=
  fun p =>
    (inr tt,
     mkPage (forms p) (pendingAction p) value (decryptedValues p)
       (decryptingKey p) (requests p)).

(** A call of a method of a contract object. *)
Definition request (env : Env) (contract : Contract) (method : Method)
  : Async string :=
  fun p =>
    (send env contract method,
     mkPage (forms p) (pendingAction p) (statusMessage p)
       (decryptedValues p) (decryptingKey p)
       (app (requests p) [(contract, method)])).

(** *** The component *)

(** [!value] for an optional string. *)
Definition falsy (value : option string) : bool :=
  match value with
  | Some s => s =? EmptyString
  | None => true
  end.

Definition addressesReady (env : Env) : bool :=
  forallb (fun value => negb (value =? ZERO_ADDRESS))
    (Object_values (CONTRACT_ADDRESSES env)).

Definition handleInputChange (token : TokenKey) (field : Field)
    (value : string) : Async unit :=
  setForms (fun prev =>
              with_form prev token
                (with_field (prop_form prev token) field value)).

Definition withStatus (actionKey : string) (action : Async unit)
  : Async unit :=
  try_finally
    (try_catch
       (_ ← setPendingAction (Some actionKey);
        _ ← setStatusMessage EmptyString;
        _ ← action;
        setStatusMessage
          "Request submitted to the network. Waiting for confirmation...")
       (fun error =>
          setStatusMessage
            match error with
            | ErrorObject message => message
            | OtherValue => "Action failed"
            end))
    (setPendingAction None).

Definition buildTokenContract (env : Env) (token : TokenKey)
  : Async Contract :=
  signer ← await (signerPromise env);
  match signer with
  | None => throw "Connect your wallet to continue"
  | Some signer =>
      if address (TOKEN_CONFIG (CONTRACT_ADDRESSES env) token)
         =? ZERO_ADDRESS
      then throw "Token address is not configured"
      else mret {| target :=
                     address (TOKEN_CONFIG (CONTRACT_ADDRESSES env) token);
                   runner := signer |}
  end.

Definition buildVaultContract (env : Env) : Async Contract :=
  signer ← await (signerPromise env);
  match signer with
  | None => throw "Connect your wallet to continue"
  | Some signer =>
      if ca_vault (CONTRACT_ADDRESSES env) =? ZERO_ADDRESS
      then throw "Vault address is not configured"
      else mret {| target := ca_vault (CONTRACT_ADDRESSES env);
                   runner := signer |}
  end.

Definition encryptAmount (env : Env) (value : Z) : Async Encrypted :=
  match instance env, account env with
  | Some _, Some user =>
      if user =? EmptyString
      then throw "Encryption service is not ready"
      else if negb (addressesReady env)
      then throw "Contracts are not configured"
      else await (encrypt env (ca_vault (CONTRACT_ADDRESSES env)) user value)
  | _, _ => throw "Encryption service is not ready"
  end.

Definition claimTokens (env : Env) (token : TokenKey) : Async unit :=
  withStatus ("claim-" ++ key_text token)
    (if negb (addressesReady env)
     then throw "Set deployed contract addresses before minting"
     else
       contract ← buildTokenContract env token;
       tx ← request env contract (Method_faucet (account env));
       _ ← await (wait env tx);
       setStatusMessage
         (label (TOKEN_CONFIG (CONTRACT_ADDRESSES env) token)
          ++ " minted successfully")).

(** [Date.now()] is a whole number of milliseconds; below 2^53 the
    quotient by 1000 rounded down is the same on doubles and on integers. *)
Definition approveVault (env : Env) (token : TokenKey) : Async unit :=
  withStatus ("approve-" ++ key_text token)
    (if negb (addressesReady env)
     then throw
            "Set deployed contract addresses before approving the vault"
     else
       contract ← buildTokenContract env token;
       let now := (Date_now env / 1000)%Z in
       let expiry := (now + 30 * 24 * 60 * 60)%Z in
       tx ← request env contract
              (Method_setOperator (ca_vault (CONTRACT_ADDRESSES env))
                 expiry);
       _ ← await (wait env tx);
       setStatusMessage
         ("Vault approved to move "
          ++ label (TOKEN_CONFIG (CONTRACT_ADDRESSES env) token))).

Definition stakeTokens (env : Env) (token : TokenKey) : Async unit :=
  withStatus ("stake-" ++ key_text token)
    (if negb (addressesReady env)
     then throw "Set deployed contract addresses before staking"
     else
       forms ← useForms;
       amount ← await (parseToUnits env (form_stake (prop_form forms token)));
       encrypted ← encryptAmount env amount;
       vault ← buildVaultContract env;
       tx ← request env vault
              (Method_stake
                 (assetIndex (TOKEN_CONFIG (CONTRACT_ADDRESSES env) token))
                 (head (handles encrypted)) (inputProof encrypted));
       _ ← await (wait env tx);
       _ ← setForms (fun prev =>
                       with_form prev token
                         (with_field (prop_form prev token) stake
                            EmptyString));
       setStatusMessage
         ("Staked " ++ label (TOKEN_CONFIG (CONTRACT_ADDRESSES env) token))).

Definition unstakeTokens (env : Env) (token : TokenKey) : Async unit :=
  withStatus ("unstake-" ++ key_text token)
    (if negb (addressesReady env)
     then throw "Set deployed contract addresses before unstaking"
     else
       forms ← useForms;
       amount ← await (parseToUnits env
                         (form_unstake (prop_form forms token)));
       encrypted ← encryptAmount env amount;
       vault ← buildVaultContract env;
       tx ← request env vault
              (Method_unstake
                 (assetIndex (TOKEN_CONFIG (CONTRACT_ADDRESSES env) token))
                 (head (handles encrypted)) (inputProof encrypted));
       _ ← await (wait env tx);
       _ ← setForms (fun prev =>
                       with_form prev token
                         (with_field (prop_form prev token) unstake
                            EmptyString));
       setStatusMessage
         ("Unstaked "
          ++ label (TOKEN_CONFIG (CONTRACT_ADDRESSES env) token))).

End VaultApp.

(* ================================================================== *)
(** * Verification *)

Arguments store_ct : simpl never.
Arguments grant : simpl never.
Arguments clear_transient : simpl never.
Arguments inc : simpl never.
Arguments dec : simpl never.
Arguments cleartext : simpl never.
Arguments isAllowed : simpl never.
Arguments stake_fhevm : simpl never.
Arguments unstake_fhevm : simpl never.
Arguments wrap64 : simpl never.

(** ** The monad *)

Lemma bind_ok {S A B} (m : Exec S A) (k : A -> Exec S B) s a s' :
  m s = inr (a, s') -> bind m k s = k a s'.
Proof. intros H. unfold bind. rewrite H. reflexivity. Qed.

Lemma bind_step {S A B} (m : Exec S A) (k : A -> Exec S B) s a s' r :
  m s = inr (a, s') -> k a s' = r -> bind m k s = r.
Proof. intros H1 H2. rewrite (bind_ok _ _ _ _ _ H1). exact H2. Qed.

Lemma bind_fail {S A B} (m : Exec S A) (k : A -> Exec S B) s e :
  m s = inl e -> bind m k s = inl e.
Proof. intros H. unfold bind. rewrite H. reflexivity. Qed.

Lemma bind_inv {S A B} (m : Exec S A) (k : A -> Exec S B) s r :
  bind m k s = inr r -> exists a s', m s = inr (a, s') /\ k a s' = inr r.
Proof.
  unfold bind. destruct (m s) as [e | [a s']]; [discriminate |].
  intros H. exists a, s'. split; [reflexivity | exact H].
Qed.

Lemma bind_err {S A B} (m : Exec S A) (k : A -> Exec S B) s e :
  bind m k s = inl e ->
  m s = inl e \/ exists a s', m s = inr (a, s') /\ k a s' = inl e.
Proof.
  unfold bind. destruct (m s) as [e' | [a s']].
  - intros H. left. congruence.
  - intros H. right. exists a, s'. split; [reflexivity | exact H].
Qed.

(** ** The coprocessor *)

Lemma wrap64_range z : 0 <= wrap64 z < 2 ^ 64.
Proof. unfold wrap64. apply Z.mod_pos_bound. lia. Qed.

Lemma wrap64_small z : 0 <= z < 2 ^ 64 -> wrap64 z = z.
Proof. intros H. unfold wrap64. apply Z.mod_small. exact H. Qed.

Lemma wrap64_idem z : wrap64 (wrap64 z) = wrap64 z.
Proof. apply wrap64_small, wrap64_range. Qed.

Lemma isAllowed_true f h a :
  isAllowed f h a = true <->
  (h, a) ∈ acl_persistent f \/ (h, a) ∈ acl_transient f.
Proof. unfold isAllowed. apply bool_decide_eq_true. Qed.

Lemma cleartext_store_ct c v f h :
  cleartext (store_ct c v f) h =
  if decide (h = N.succ (counter f)) then wrap64 v else cleartext f h.
Proof.
  unfold cleartext, store_ct. simpl.
  destruct (decide (h = 0%N)) as [-> | Hh].
  - rewrite decide_False by lia. reflexivity.
  - destruct (decide (h = N.succ (counter f))) as [-> | Hne].
    + rewrite lookup_insert_eq. reflexivity.
    + rewrite lookup_insert_ne by congruence. reflexivity.
Qed.

Lemma cleartext_store_ct_new c v f :
  cleartext (store_ct c v f) (N.succ (counter f)) = wrap64 v.
Proof. rewrite cleartext_store_ct, decide_True by reflexivity. reflexivity. Qed.

Lemma cleartext_store_ct_old c v f h :
  (h <= counter f)%N -> cleartext (store_ct c v f) h = cleartext f h.
Proof. intros H. rewrite cleartext_store_ct, decide_False by lia. reflexivity. Qed.

Lemma cleartext_grant h a f x : cleartext (grant h a f) x = cleartext f x.
Proof. reflexivity. Qed.

Lemma cleartext_clear_transient f x :
  cleartext (clear_transient f) x = cleartext f x.
Proof. reflexivity. Qed.

Lemma counter_store_ct c v f : counter (store_ct c v f) = N.succ (counter f).
Proof. reflexivity. Qed.

Lemma counter_grant h a f : counter (grant h a f) = counter f.
Proof. reflexivity. Qed.

Lemma counter_clear_transient f : counter (clear_transient f) = counter f.
Proof. reflexivity. Qed.

Lemma counter_inc this x y f :
  counter (inc this x y f) = N.succ (N.succ (counter f)).
Proof. reflexivity. Qed.

Lemma counter_dec this x y f :
  counter (dec this x y f) = N.succ (N.succ (N.succ (counter f))).
Proof. reflexivity. Qed.

Lemma persistent_store_ct c v f :
  acl_persistent (store_ct c v f) = acl_persistent f.
Proof. reflexivity. Qed.

Lemma persistent_grant h a f :
  acl_persistent (grant h a f) = {[ (h, a) ]} ∪ acl_persistent f.
Proof. reflexivity. Qed.

Lemma persistent_clear_transient f :
  acl_persistent (clear_transient f) = acl_persistent f.
Proof. reflexivity. Qed.

Lemma persistent_inc this x y f :
  acl_persistent (inc this x y f) = acl_persistent f.
Proof. reflexivity. Qed.

Lemma persistent_dec this x y f :
  acl_persistent (dec this x y f) = acl_persistent f.
Proof. reflexivity. Qed.

Lemma transient_store_ct c v f :
  acl_transient (store_ct c v f) =
  {[ (N.succ (counter f), c) ]} ∪ acl_transient f.
Proof. reflexivity. Qed.

Lemma transient_grant h a f : acl_transient (grant h a f) = acl_transient f.
Proof. reflexivity. Qed.

Lemma transient_clear_transient f : acl_transient (clear_transient f) = ∅.
Proof. reflexivity. Qed.

Lemma transient_inc this x y f :
  acl_transient (inc this x y f) =
  {[ (N.succ (N.succ (counter f)), this) ]} ∪
  ({[ (N.succ (counter f), this) ]} ∪ acl_transient f).
Proof. reflexivity. Qed.

Lemma transient_dec this x y f :
  acl_transient (dec this x y f) =
  {[ (N.succ (N.succ (N.succ (counter f))), this) ]} ∪
  ({[ (N.succ (N.succ (counter f)), this) ]} ∪
   ({[ (N.succ (counter f), this) ]} ∪ acl_transient f)).
Proof. reflexivity. Qed.

Create Rewrite HintDb fhevm.
#[local] Hint Rewrite counter_store_ct counter_grant counter_inc counter_dec
  counter_clear_transient
  persistent_store_ct persistent_grant persistent_inc persistent_dec
  persistent_clear_transient
  transient_store_ct transient_grant transient_inc transient_dec
  transient_clear_transient : fhevm.

(** Cleartexts through [inc] and [dec]. *)
Lemma cleartext_inc_old this x y f h :
  (h <= counter f)%N -> cleartext (inc this x y f) h = cleartext f h.
Proof.
  intros H. unfold inc.
  rewrite !cleartext_store_ct_old; autorewrite with fhevm; [reflexivity | lia ..].
Qed.

Lemma cleartext_inc_sum this x y f :
  cleartext (inc this x y f) (N.succ (counter f)) = wrap64 (x + y).
Proof.
  unfold inc. rewrite cleartext_store_ct_old by (autorewrite with fhevm; lia).
  apply cleartext_store_ct_new.
Qed.

Lemma cleartext_dec_old this x y f h :
  (h <= counter f)%N -> cleartext (dec this x y f) h = cleartext f h.
Proof.
  intros H. unfold dec.
  rewrite !cleartext_store_ct_old; autorewrite with fhevm; [reflexivity | lia ..].
Qed.

Lemma cleartext_dec_flag this x y f :
  cleartext (dec this x y f) (N.succ (counter f)) =
  if x >=? y then 1 else 0.
Proof.
  unfold dec. rewrite !cleartext_store_ct_old by (autorewrite with fhevm; lia).
  rewrite cleartext_store_ct_new. destruct (x >=? y); reflexivity.
Qed.

Lemma cleartext_dec_updated this x y f :
  cleartext (dec this x y f) (N.succ (N.succ (N.succ (counter f)))) =
  wrap64 (if x >=? y then wrap64 (x - y) else x).
Proof. unfold dec. apply cleartext_store_ct_new. Qed.

(** Running the primitives on usable operands. *)
Lemma operand_ok this h f :
  usable f this h -> FHE.operand this h f = inr (cleartext f h, f).
Proof.
  intros [-> | H]; unfold FHE.operand.
  - reflexivity.
  - destruct (decide (h = 0%N)) as [-> | _]; [reflexivity |].
    rewrite H. reflexivity.
Qed.

Lemma add_ok this a b f :
  usable f this a -> usable f this b ->
  FHE.add this a b f = inr (new_ct this (cleartext f a + cleartext f b) f).
Proof.
  intros Ha Hb. unfold FHE.add.
  eapply bind_step; [apply operand_ok, Ha |].
  eapply bind_step; [apply operand_ok, Hb |]. reflexivity.
Qed.

Lemma sub_ok this a b f :
  usable f this a -> usable f this b ->
  FHE.sub this a b f = inr (new_ct this (cleartext f a - cleartext f b) f).
Proof.
  intros Ha Hb. unfold FHE.sub.
  eapply bind_step; [apply operand_ok, Ha |].
  eapply bind_step; [apply operand_ok, Hb |]. reflexivity.
Qed.

Lemma ge_ok this a b f :
  usable f this a -> usable f this b ->
  FHE.ge this a b f =
  inr (new_ct this (if cleartext f a >=? cleartext f b then 1 else 0) f).
Proof.
  intros Ha Hb. unfold FHE.ge.
  eapply bind_step; [apply operand_ok, Ha |].
  eapply bind_step; [apply operand_ok, Hb |]. reflexivity.
Qed.

Lemma select_ok this c a b f :
  usable f this c -> usable f this a -> usable f this b ->
  FHE.select this c a b f =
  inr (new_ct this
         (if cleartext f c =? 0 then cleartext f b else cleartext f a) f).
Proof.
  intros Hc Ha Hb. unfold FHE.select.
  eapply bind_step; [apply operand_ok, Hc |].
  eapply bind_step; [apply operand_ok, Ha |].
  eapply bind_step; [apply operand_ok, Hb |]. reflexivity.
Qed.

Lemma allow_ok this h who f :
  isAllowed f h this = true ->
  FHE.allow this h who f = inr (tt, grant h who f).
Proof. intros H. unfold FHE.allow. rewrite H. reflexivity. Qed.

(** Permissions only grow while a transaction runs. *)
Lemma usable_store_ct c v f this h :
  usable f this h -> usable (store_ct c v f) this h.
Proof.
  intros [-> | H]; [left; reflexivity | right].
  apply isAllowed_true in H. apply isAllowed_true.
  autorewrite with fhevm. set_solver.
Qed.

Lemma usable_new this v f :
  usable (store_ct this v f) this (N.succ (counter f)).
Proof.
  right. apply isAllowed_true. autorewrite with fhevm. set_solver.
Qed.

Lemma usable_bound f this h :
  acl_sound f -> usable f this h -> (h <= counter f)%N.
Proof.
  intros Hs [-> | H]; [lia |].
  apply isAllowed_true in H. apply Hs in H. lia.
Qed.

Lemma tryIncrease_ok this old delta f :
  usable f this old -> usable f this delta -> (old <= counter f)%N ->
  FHESafeMath.tryIncrease this old delta f =
  inr ((N.succ (N.succ (counter f)), N.succ (counter f)),
       inc this (cleartext f old) (cleartext f delta) f).
Proof.
  intros Ho Hd Hb. unfold FHESafeMath.tryIncrease.
  eapply bind_step; [apply add_ok; assumption |].
  eapply bind_step.
  { apply ge_ok; [apply usable_new | apply usable_store_ct, Ho]. }
  unfold ret, inc. simpl.
  rewrite cleartext_store_ct_new, cleartext_store_ct_old by exact Hb.
  reflexivity.
Qed.

Lemma tryDecrease_ok this old delta f :
  usable f this old -> usable f this delta ->
  (old <= counter f)%N -> (delta <= counter f)%N ->
  FHESafeMath.tryDecrease this old delta f =
  inr ((N.succ (counter f), N.succ (N.succ (N.succ (counter f)))),
       dec this (cleartext f old) (cleartext f delta) f).
Proof.
  intros Ho Hd Hbo Hbd. unfold FHESafeMath.tryDecrease.
  eapply bind_step; [apply ge_ok; assumption |].
  eapply bind_step.
  { apply sub_ok; apply usable_store_ct; assumption. }
  eapply bind_step.
  { apply select_ok.
    - apply usable_store_ct, usable_new.
    - apply usable_new.
    - do 2 apply usable_store_ct. exact Ho. }
  unfold ret, dec. simpl.
  rewrite !(cleartext_store_ct_old _ _ _ old) by (autorewrite with fhevm; lia).
  rewrite !(cleartext_store_ct_old _ _ _ delta) by (autorewrite with fhevm; lia).
  rewrite cleartext_store_ct_new.
  rewrite (cleartext_store_ct_old _ _ _ (N.succ (counter f)))
    by (autorewrite with fhevm; lia).
  rewrite cleartext_store_ct_new.
  destruct (cleartext f old >=? cleartext f delta); reflexivity.
Qed.

(** ** Storage updates *)

Lemma mapping_get_insert m k v k' :
  mapping_get (<[k := v]> m) k' =
  if decide (k' = k) then v else mapping_get m k'.
Proof.
  unfold mapping_get. destruct (decide (k' = k)) as [-> | Hne].
  - rewrite lookup_insert_eq. reflexivity.
  - rewrite lookup_insert_ne by congruence. reflexivity.
Qed.

Lemma getStake_stakes asset a s :
  _getStake asset a s = mapping_get (stakes asset s) a.
Proof. destruct asset; reflexivity. Qed.

Lemma stakes_set_stake asset account value s asset' :
  stakes asset' (set_stake asset account value s) =
  if decide (asset' = asset) then <[account := value]> (stakes asset s)
  else stakes asset' s.
Proof. destruct asset, asset'; reflexivity. Qed.

Lemma stakes_set_total asset value s asset' :
  stakes asset' (set_total asset value s) = stakes asset' s.
Proof. destruct asset, asset'; reflexivity. Qed.

Lemma getStake_set_stake asset account value s asset' a' :
  _getStake asset' a' (set_stake asset account value s) =
  if decide (asset' = asset /\ a' = account) then value
  else _getStake asset' a' s.
Proof.
  rewrite !getStake_stakes, stakes_set_stake.
  destruct (decide (asset' = asset)) as [-> | Hne].
  - rewrite mapping_get_insert.
    destruct (decide (a' = account)) as [-> | Hne].
    + rewrite decide_True by (split; reflexivity). reflexivity.
    + rewrite decide_False by (intros [_ ?]; congruence). reflexivity.
  - rewrite decide_False by (intros [? _]; congruence). reflexivity.
Qed.

Lemma getStake_set_total asset value s asset' a' :
  _getStake asset' a' (set_total asset value s) = _getStake asset' a' s.
Proof. destruct asset, asset'; reflexivity. Qed.

Lemma getTotal_set_total asset value s asset' :
  getTotalStaked asset' (set_total asset value s) =
  if decide (asset' = asset) then value else getTotalStaked asset' s.
Proof. destruct asset, asset'; reflexivity. Qed.

Lemma getTotal_set_stake asset account value s asset' :
  getTotalStaked asset' (set_stake asset account value s) =
  getTotalStaked asset' s.
Proof. destruct asset, asset'; reflexivity. Qed.

Lemma getToken_set_stake asset account value s asset' :
  _getToken asset' (set_stake asset account value s) = _getToken asset' s.
Proof. destruct asset, asset'; reflexivity. Qed.

Lemma getToken_set_total asset value s asset' :
  _getToken asset' (set_total asset value s) = _getToken asset' s.
Proof. destruct asset, asset'; reflexivity. Qed.

Arguments set_stake : simpl never.
Arguments set_total : simpl never.
Arguments _getStake : simpl never.
Arguments getTotalStaked : simpl never.
Arguments _getToken : simpl never.

(** ** Running the contract *)

Section Run.

Context (T : IERC7984).
Context (verifyInput :
           address -> address -> externalEuint64 -> bytes -> option Z).
Context (this : address).
Implicit Types (w : World T) (f : FHEVM).

Lemma fhevm_set_tokenState asset t w :
  fhevm (set_tokenState asset t w) = fhevm w.
Proof. destruct asset; reflexivity. Qed.

Lemma vault_set_tokenState asset t w :
  vault (set_tokenState asset t w) = vault w.
Proof. destruct asset; reflexivity. Qed.

Lemma log_set_tokenState asset t w :
  log (set_tokenState asset t w) = log w.
Proof. destruct asset; reflexivity. Qed.

Lemma tokenState_set_tokenState asset t w asset' :
  tokenState asset' (set_tokenState asset t w) =
  if decide (asset' = asset) then t else tokenState asset' w.
Proof. destruct asset, asset'; reflexivity. Qed.

Lemma fhe_ok {A} (m : Exec FHEVM A) w a f :
  m (fhevm w) = inr (a, f) -> fhe m w = inr (a, set_fhevm f w).
Proof. intros H. unfold fhe. rewrite H. reflexivity. Qed.

Lemma fhe_fail {A} (m : Exec FHEVM A) w e :
  m (fhevm w) = inl e -> fhe (T := T) m w = inl e.
Proof. intros H. unfold fhe. rewrite H. reflexivity. Qed.

Lemma fromExternal_ok sender e p v w :
  verifyInput this sender e p = Some v ->
  fhe (FHE.fromExternal verifyInput this sender e p) w =
  inr (N.succ (counter (fhevm w)), set_fhevm (store_ct this v (fhevm w)) w).
Proof.
  intros H. unfold fhe, FHE.fromExternal. rewrite H. reflexivity.
Qed.

Lemma transferFrom_ok asset from to amount moved t w :
  isAllowed (fhevm w) amount (_getToken asset (vault w)) = true ->
  confidentialTransferFrom T (tokenState asset w) this from to
    (cleartext (fhevm w) amount) = Some (moved, t) ->
  token_confidentialTransferFrom this asset from to amount w =
  inr (N.succ (counter (fhevm w)),
       let token := _getToken asset (vault w) in
       let h := N.succ (counter (fhevm w)) in
       record (Call_confidentialTransferFrom token from to amount h)
         (set_tokenState asset t
            (set_fhevm
               (grant h to (grant h from (store_ct token moved (fhevm w))))
               w))).
Proof.
  intros Ha Ht. unfold token_confidentialTransferFrom.
  cbv zeta. rewrite Ha, Ht. reflexivity.
Qed.

Lemma transfer_ok asset to amount moved t w :
  isAllowed (fhevm w) amount (_getToken asset (vault w)) = true ->
  confidentialTransfer T (tokenState asset w) this to
    (cleartext (fhevm w) amount) = Some (moved, t) ->
  token_confidentialTransfer this asset to amount w =
  inr (N.succ (counter (fhevm w)),
       let token := _getToken asset (vault w) in
       let h := N.succ (counter (fhevm w)) in
       record (Call_confidentialTransfer token to amount h)
         (set_tokenState asset t
            (set_fhevm
               (grant h to (grant h this (store_ct token moved (fhevm w))))
               w))).
Proof.
  intros Ha Ht. unfold token_confidentialTransfer.
  cbv zeta. rewrite Ha, Ht. reflexivity.
Qed.

Lemma updateStakeStorage_ok asset account value w :
  isAllowed (fhevm w) value this = true ->
  _updateStakeStorage this asset account value w =
  inr (tt, mkWorld (grant value account (grant value this (fhevm w)))
             (set_stake asset account value (vault w))
             (methState w) (musdtState w) (log w)).
Proof.
  intros H. unfold _updateStakeStorage.
  eapply bind_step; [apply fhe_ok, allow_ok, H |].
  eapply bind_step.
  { apply fhe_ok, allow_ok. apply isAllowed_true in H.
    apply isAllowed_true. simpl. autorewrite with fhevm. set_solver. }
  destruct asset; reflexivity.
Qed.

Lemma increaseStake_ok asset account amount w :
  usable (fhevm w) this (_getStake asset account (vault w)) ->
  usable (fhevm w) this amount ->
  (_getStake asset account (vault w) <= counter (fhevm w))%N ->
  _increaseStake this asset account amount w =
  inr (tt,
       let f := fhevm w in
       let hS := N.succ (counter f) in
       mkWorld (grant hS account
                  (grant hS this
                     (inc this
                        (cleartext f (_getStake asset account (vault w)))
                        (cleartext f amount) f)))
         (set_stake asset account hS (vault w))
         (methState w) (musdtState w) (log w)).
Proof.
  intros Hc Ha Hb. unfold _increaseStake.
  eapply bind_step; [reflexivity |].
  eapply bind_step; [apply fhe_ok, tryIncrease_ok; assumption |].
  rewrite updateStakeStorage_ok; [reflexivity |].
  apply isAllowed_true. simpl. autorewrite with fhevm. set_solver.
Qed.

Lemma decreaseStake_ok asset account amount w :
  usable (fhevm w) this (_getStake asset account (vault w)) ->
  usable (fhevm w) this amount ->
  (_getStake asset account (vault w) <= counter (fhevm w))%N ->
  (amount <= counter (fhevm w))%N ->
  _decreaseStake this asset account amount w =
  inr ((N.succ (counter (fhevm w)),
        N.succ (N.succ (N.succ (counter (fhevm w))))),
       set_fhevm
         (dec this (cleartext (fhevm w) (_getStake asset account (vault w)))
            (cleartext (fhevm w) amount) (fhevm w)) w).
Proof.
  intros Hc Ha Hb Hb'. unfold _decreaseStake.
  eapply bind_step; [reflexivity |].
  apply fhe_ok, tryDecrease_ok; assumption.
Qed.

Lemma increaseTotal_ok asset amount w :
  usable (fhevm w) this (getTotalStaked asset (vault w)) ->
  usable (fhevm w) this amount ->
  (getTotalStaked asset (vault w) <= counter (fhevm w))%N ->
  _increaseTotal this asset amount w =
  inr (tt,
       let f := fhevm w in
       let hT := N.succ (counter f) in
       mkWorld (grant hT this
                  (inc this (cleartext f (getTotalStaked asset (vault w)))
                     (cleartext f amount) f))
         (set_total asset hT (vault w))
         (methState w) (musdtState w) (log w)).
Proof.
  intros Hc Ha Hb. unfold _increaseTotal.
  destruct asset; simpl.
  all: eapply bind_step; [reflexivity |].
  all: eapply bind_step; [apply fhe_ok, tryIncrease_ok; assumption |].
  all: eapply bind_step;
    [apply fhe_ok, allow_ok; apply isAllowed_true; simpl;
     autorewrite with fhevm; set_solver
    | reflexivity].
Qed.

Lemma decreaseTotal_ok asset amount w :
  usable (fhevm w) this (getTotalStaked asset (vault w)) ->
  usable (fhevm w) this amount ->
  (getTotalStaked asset (vault w) <= counter (fhevm w))%N ->
  (amount <= counter (fhevm w))%N ->
  _decreaseTotal this asset amount w =
  inr (tt,
       let f := fhevm w in
       let hT := N.succ (N.succ (N.succ (counter f))) in
       mkWorld (grant hT this
                  (dec this (cleartext f (getTotalStaked asset (vault w)))
                     (cleartext f amount) f))
         (set_total asset hT (vault w))
         (methState w) (musdtState w) (log w)).
Proof.
  intros Hc Ha Hb Hb'. unfold _decreaseTotal.
  destruct asset; simpl.
  all: eapply bind_step; [reflexivity |].
  all: eapply bind_step; [apply fhe_ok, tryDecrease_ok; assumption |].
  all: eapply bind_step;
    [apply fhe_ok, allow_ok; apply isAllowed_true; simpl;
     autorewrite with fhevm; set_solver
    | reflexivity].
Qed.

Lemma usable_stake w asset a :
  stakes_granted this w ->
  usable (fhevm w) this (_getStake asset a (vault w)).
Proof.
  intros H. destruct (decide (_getStake asset a (vault w) = 0%N)) as [E | E].
  - left. exact E.
  - right. apply isAllowed_true. left. apply (H asset a E).
Qed.

Lemma usable_total w asset :
  totals_private this w ->
  usable (fhevm w) this (getTotalStaked asset (vault w)).
Proof.
  intros H. destruct (decide (getTotalStaked asset (vault w) = 0%N)) as [E | E].
  - left. exact E.
  - right. apply isAllowed_true. left. apply (H asset E).
Qed.

Ltac world_simpl :=
  simpl;
  rewrite ?fhevm_set_tokenState, ?vault_set_tokenState, ?log_set_tokenState,
    ?getTotal_set_stake, ?getStake_set_total, ?getToken_set_stake,
    ?getToken_set_total;
  simpl.

Ltac solve_allowed :=
  apply isAllowed_true; world_simpl; autorewrite with fhevm; set_solver.

Ltac solve_usable H :=
  let E := fresh in
  world_simpl;
  destruct H as [E | E];
  [ left; exact E
  | right; apply isAllowed_true in E; solve_allowed ].

Ltac solve_bound := world_simpl; autorewrite with fhevm; lia.

Ltac ct_step :=
  first
    [ rewrite cleartext_grant
    | rewrite cleartext_store_ct_new
    | rewrite cleartext_inc_sum
    | rewrite cleartext_dec_flag
    | rewrite cleartext_dec_updated
    | rewrite cleartext_store_ct_old by (autorewrite with fhevm; lia)
    | rewrite cleartext_inc_old by (autorewrite with fhevm; lia)
    | rewrite cleartext_dec_old by (autorewrite with fhevm; lia) ].

Ltac ct_norm := repeat ct_step.

Lemma stake_ok w sender asset e p v moved t :
  vault_inv this w ->
  isOperator T (tokenState asset w) sender this = true ->
  verifyInput this sender e p = Some v ->
  confidentialTransferFrom T (tokenState asset w) this sender this
    (wrap64 v) = Some (moved, t) ->
  stake verifyInput this sender asset e p w =
  inr (tt, stake_world this sender asset v moved t w).
Proof.
  intros (Hsound & Hrange & Htr & Hst & Htot) Hop Hv Ht.
  pose proof (usable_stake w asset sender Hst) as Hcur.
  pose proof (usable_total w asset Htot) as Htotal.
  pose proof (usable_bound _ _ _ Hsound Hcur) as Bcur.
  pose proof (usable_bound _ _ _ Hsound Htotal) as Btot.
  unfold stake.
  eapply bind_step; [reflexivity |].
  eapply bind_step; [reflexivity |].
  rewrite Hop. cbn [negb].
  eapply bind_step; [apply fromExternal_ok, Hv |].
  eapply bind_step; [apply fhe_ok, allow_ok; solve_allowed |].
  eapply bind_step.
  { apply transferFrom_ok.
    - solve_allowed.
    - simpl. rewrite cleartext_grant, cleartext_store_ct_new.
      exact Ht. }
  cbv zeta.
  eapply bind_step.
  { apply increaseStake_ok.
    - solve_usable Hcur.
    - right; solve_allowed.
    - solve_bound. }
  cbv zeta.
  eapply bind_step.
  { apply increaseTotal_ok.
    - solve_usable Htotal.
    - right; solve_allowed.
    - solve_bound. }
  cbv zeta.
  unfold emit, stake_world, stake_fhevm, stake_of, total_staked,
    getEncryptedStake, fresh.
  world_simpl. ct_norm. destruct asset; reflexivity.
Qed.

Lemma select_flag (b : bool) (x y : Z) :
  (if (if b then 1 else 0) =? 0 then y else x) = if b then x else y.
Proof. destruct b; reflexivity. Qed.

Lemma wrap64_withdrawable s0 v :
  wrap64 (withdrawable s0 (wrap64 v)) = withdrawable s0 (wrap64 v).
Proof.
  unfold withdrawable. destruct (s0 >=? wrap64 v).
  - apply wrap64_idem.
  - reflexivity.
Qed.

Lemma unstake_ok w sender asset e p v moved t :
  vault_inv this w ->
  verifyInput this sender e p = Some v ->
  confidentialTransfer T (tokenState asset w) this sender
    (withdrawable (stake_of w sender asset) (wrap64 v)) = Some (moved, t) ->
  unstake verifyInput this sender asset e p w =
  inr (tt, unstake_world this sender asset v moved t w).
Proof.
  intros (Hsound & Hrange & Htr & Hst & Htot) Hv Ht.
  pose proof (usable_stake w asset sender Hst) as Hcur.
  pose proof (usable_total w asset Htot) as Htotal.
  pose proof (usable_bound _ _ _ Hsound Hcur) as Bcur.
  pose proof (usable_bound _ _ _ Hsound Htotal) as Btot.
  unfold unstake.
  eapply bind_step; [reflexivity |].
  eapply bind_step; [apply fromExternal_ok, Hv |].
  eapply bind_step.
  { apply decreaseStake_ok.
    - solve_usable Hcur.
    - right; solve_allowed.
    - solve_bound.
    - solve_bound. }
  eapply bind_step; [apply fhe_ok; reflexivity |].
  eapply bind_step.
  { apply fhe_ok, select_ok; right; solve_allowed. }
  eapply bind_step; [apply fhe_ok, allow_ok; solve_allowed |].
  eapply bind_step.
  { apply transfer_ok.
    - solve_allowed.
    - world_simpl. ct_norm. rewrite select_flag.
      change (wrap64 0) with 0.
      fold (withdrawable
              (cleartext (fhevm w) (_getStake asset sender (vault w)))
              (wrap64 v)).
      rewrite wrap64_withdrawable. exact Ht. }
  cbv zeta.
  eapply bind_step.
  { apply updateStakeStorage_ok. solve_allowed. }
  eapply bind_step.
  { apply decreaseTotal_ok.
    - solve_usable Htotal.
    - right; solve_allowed.
    - solve_bound.
    - solve_bound. }
  cbv zeta.
  unfold emit, unstake_world, unstake_fhevm, stake_of, total_staked,
    getEncryptedStake, fresh.
  world_simpl. ct_norm. rewrite select_flag. change (wrap64 0) with 0.
  destruct asset; reflexivity.
Qed.

(** *** Calls that revert *)

Lemma transferFrom_fail asset from to amount w :
  confidentialTransferFrom T (tokenState asset w) this from to
    (cleartext (fhevm w) amount) = None ->
  token_confidentialTransferFrom this asset from to amount w =
  inl (TokenReverted (_getToken asset (vault w))).
Proof.
  intros Ht. unfold token_confidentialTransferFrom. cbv zeta. rewrite Ht.
  destruct (isAllowed _ _ _); reflexivity.
Qed.

Lemma transfer_fail asset to amount w :
  confidentialTransfer T (tokenState asset w) this to
    (cleartext (fhevm w) amount) = None ->
  token_confidentialTransfer this asset to amount w =
  inl (TokenReverted (_getToken asset (vault w))).
Proof.
  intros Ht. unfold token_confidentialTransfer. cbv zeta. rewrite Ht.
  destruct (isAllowed _ _ _); reflexivity.
Qed.

Lemma stake_not_operator w sender asset e p :
  isOperator T (tokenState asset w) sender this = false ->
  stake verifyInput this sender asset e p w =
  inl NebulaVaultOperatorMissing.
Proof.
  intros Hop. unfold stake.
  eapply bind_step; [reflexivity |].
  eapply bind_step; [reflexivity |].
  rewrite Hop. reflexivity.
Qed.

Lemma stake_invalid_proof w sender asset e p :
  isOperator T (tokenState asset w) sender this = true ->
  verifyInput this sender e p = None ->
  stake verifyInput this sender asset e p w = inl InvalidProof.
Proof.
  intros Hop Hv. unfold stake.
  eapply bind_step; [reflexivity |].
  eapply bind_step; [reflexivity |].
  rewrite Hop. cbn [negb].
  apply bind_fail. unfold fhe, FHE.fromExternal. rewrite Hv. reflexivity.
Qed.

Lemma stake_token_reverts w sender asset e p v :
  isOperator T (tokenState asset w) sender this = true ->
  verifyInput this sender e p = Some v ->
  confidentialTransferFrom T (tokenState asset w) this sender this
    (wrap64 v) = None ->
  stake verifyInput this sender asset e p w =
  inl (TokenReverted (_getToken asset (vault w))).
Proof.
  intros Hop Hv Ht. unfold stake.
  eapply bind_step; [reflexivity |].
  eapply bind_step; [reflexivity |].
  rewrite Hop. cbn [negb].
  eapply bind_step; [apply fromExternal_ok, Hv |].
  eapply bind_step; [apply fhe_ok, allow_ok; solve_allowed |].
  apply bind_fail.
  eapply eq_trans; [apply transferFrom_fail | reflexivity].
  world_simpl. ct_norm. exact Ht.
Qed.

Lemma unstake_invalid_proof w sender asset e p :
  verifyInput this sender e p = None ->
  unstake verifyInput this sender asset e p w = inl InvalidProof.
Proof.
  intros Hv. unfold unstake.
  eapply bind_step; [reflexivity |].
  apply bind_fail. unfold fhe, FHE.fromExternal. rewrite Hv. reflexivity.
Qed.

Lemma unstake_token_reverts w sender asset e p v :
  vault_inv this w ->
  verifyInput this sender e p = Some v ->
  confidentialTransfer T (tokenState asset w) this sender
    (withdrawable (stake_of w sender asset) (wrap64 v)) = None ->
  unstake verifyInput this sender asset e p w =
  inl (TokenReverted (_getToken asset (vault w))).
Proof.
  intros (Hsound & Hrange & Htr & Hst & Htot) Hv Ht.
  pose proof (usable_stake w asset sender Hst) as Hcur.
  pose proof (usable_bound _ _ _ Hsound Hcur) as Bcur.
  unfold unstake.
  eapply bind_step; [reflexivity |].
  eapply bind_step; [apply fromExternal_ok, Hv |].
  eapply bind_step.
  { apply decreaseStake_ok.
    - solve_usable Hcur.
    - right; solve_allowed.
    - solve_bound.
    - solve_bound. }
  eapply bind_step; [apply fhe_ok; reflexivity |].
  eapply bind_step.
  { apply fhe_ok, select_ok; right; solve_allowed. }
  eapply bind_step; [apply fhe_ok, allow_ok; solve_allowed |].
  apply bind_fail.
  eapply eq_trans; [apply transfer_fail | reflexivity].
  world_simpl. ct_norm. rewrite select_flag. change (wrap64 0) with 0.
  fold (withdrawable
          (cleartext (fhevm w) (_getStake asset sender (vault w)))
          (wrap64 v)).
  rewrite wrap64_withdrawable. exact Ht.
Qed.

(** *** The worlds in closed form, field by field *)

Lemma fhevm_stake_world sender asset v moved t w :
  fhevm (stake_world this sender asset v moved t w) =
  stake_fhevm this (_getToken asset (vault w)) sender
    (stake_of w sender asset) (total_staked w asset) v moved (fhevm w).
Proof. unfold stake_world. simpl. apply fhevm_set_tokenState. Qed.

Lemma vault_stake_world sender asset v moved t w :
  vault (stake_world this sender asset v moved t w) =
  set_total asset (fresh (fhevm w) 5)
    (set_stake asset sender (fresh (fhevm w) 3) (vault w)).
Proof. unfold stake_world. simpl. apply vault_set_tokenState. Qed.

Lemma log_stake_world sender asset v moved t w :
  log (stake_world this sender asset v moved t w) =
  log w ++
  [Call_confidentialTransferFrom (_getToken asset (vault w)) sender this
     (fresh (fhevm w) 1) (fresh (fhevm w) 2);
   Staked sender asset (fresh (fhevm w) 2)].
Proof.
  unfold stake_world. simpl. rewrite log_set_tokenState. simpl.
  rewrite <- app_assoc. reflexivity.
Qed.

Lemma tokenState_stake_world sender asset v moved t w asset' :
  tokenState asset' (stake_world this sender asset v moved t w) =
  if decide (asset' = asset) then t else tokenState asset' w.
Proof. destruct asset, asset'; reflexivity. Qed.

Lemma fhevm_unstake_world sender asset v moved t w :
  fhevm (unstake_world this sender asset v moved t w) =
  unstake_fhevm this (_getToken asset (vault w)) sender
    (stake_of w sender asset) (total_staked w asset) v moved (fhevm w).
Proof. unfold unstake_world. simpl. apply fhevm_set_tokenState. Qed.

Lemma vault_unstake_world sender asset v moved t w :
  vault (unstake_world this sender asset v moved t w) =
  set_total asset (fresh (fhevm w) 10)
    (set_stake asset sender (fresh (fhevm w) 4) (vault w)).
Proof. unfold unstake_world. simpl. apply vault_set_tokenState. Qed.

Lemma log_unstake_world sender asset v moved t w :
  log (unstake_world this sender asset v moved t w) =
  log w ++
  [Call_confidentialTransfer (_getToken asset (vault w)) sender
     (fresh (fhevm w) 6) (fresh (fhevm w) 7);
   Unstaked sender asset (fresh (fhevm w) 7)].
Proof.
  unfold unstake_world. simpl. rewrite log_set_tokenState. simpl.
  rewrite <- app_assoc. reflexivity.
Qed.

Lemma tokenState_unstake_world sender asset v moved t w asset' :
  tokenState asset' (unstake_world this sender asset v moved t w) =
  if decide (asset' = asset) then t else tokenState asset' w.
Proof. destruct asset, asset'; reflexivity. Qed.

End Run.

(** ** What a committed call leaves in the coprocessor *)

Lemma in_range_store_ct c v f : in_range f -> in_range (store_ct c v f).
Proof.
  intros H h. rewrite cleartext_store_ct.
  destruct (decide (h = N.succ (counter f))); [apply wrap64_range | apply H].
Qed.

Lemma in_range_grant h a f : in_range f -> in_range (grant h a f).
Proof. intros H x. apply H. Qed.

Lemma in_range_clear_transient f : in_range f -> in_range (clear_transient f).
Proof. intros H x. apply H. Qed.

Lemma in_range_inc this x y f : in_range f -> in_range (inc this x y f).
Proof. intros H. unfold inc. do 2 apply in_range_store_ct. exact H. Qed.

Lemma in_range_dec this x y f : in_range f -> in_range (dec this x y f).
Proof. intros H. unfold dec. do 3 apply in_range_store_ct. exact H. Qed.

Lemma in_range_fhevm0 : in_range fhevm0.
Proof.
  intros h. unfold cleartext, fhevm0. simpl.
  destruct (decide (h = 0%N)); [lia |]. rewrite lookup_empty. simpl. lia.
Qed.

Ltac solve_in_range :=
  repeat match goal with
         | |- in_range (grant _ _ _) => apply in_range_grant
         | |- in_range (clear_transient _) => apply in_range_clear_transient
         | |- in_range (inc _ _ _ _) => apply in_range_inc
         | |- in_range (dec _ _ _ _) => apply in_range_dec
         | |- in_range (store_ct _ _ _) => apply in_range_store_ct
         end;
  assumption.

Lemma written_stake this token sender s0 t0 v moved f :
  acl_sound f ->
  written this sender f
    (clear_transient (stake_fhevm this token sender s0 t0 v moved f))
    (fresh f 3) (fresh f 5).
Proof.
  intros Hs.
  assert (Hold : forall h a, (h, a) ∈ acl_persistent f -> (h <= counter f)%N).
  { intros h a H. apply (Hs h a). left. exact H. }
  unfold stake_fhevm, fresh. simpl.
  split; autorewrite with fhevm; try lia.
  - reflexivity.
  - intros h Hh. rewrite cleartext_clear_transient.
    repeat first [ rewrite cleartext_grant
                 | rewrite cleartext_store_ct_old by (autorewrite with fhevm; lia)
                 | rewrite cleartext_inc_old by (autorewrite with fhevm; lia) ].
    reflexivity.
  - intros H. apply in_range_clear_transient.
    solve_in_range.
  - intros h a H. set_solver.
  - intros h a H Hh. set_unfold. naive_solver lia.
  - intros h a H Hh. set_unfold. naive_solver lia.
  - set_solver.
  - set_solver.
  - set_solver.
  - intros p H. set_unfold.
    destruct H as [H | [H | [H | [H | [H | [H | H]]]]]];
      try (injection H; intros; subst; lia || reflexivity).
    apply Hold in H. lia.
Qed.

Lemma written_unstake this token sender s0 t0 v moved f :
  acl_sound f ->
  written this sender f
    (clear_transient (unstake_fhevm this token sender s0 t0 v moved f))
    (fresh f 4) (fresh f 10).
Proof.
  intros Hs.
  assert (Hold : forall h a, (h, a) ∈ acl_persistent f -> (h <= counter f)%N).
  { intros h a H. apply (Hs h a). left. exact H. }
  unfold unstake_fhevm, fresh. simpl.
  split; autorewrite with fhevm; try lia.
  - reflexivity.
  - intros h Hh. rewrite cleartext_clear_transient.
    repeat first [ rewrite cleartext_grant
                 | rewrite cleartext_store_ct_old by (autorewrite with fhevm; lia)
                 | rewrite cleartext_dec_old by (autorewrite with fhevm; lia) ].
    reflexivity.
  - intros H. solve_in_range.
  - intros h a H. set_solver.
  - intros h a H Hh. set_unfold. naive_solver lia.
  - intros h a H Hh. set_unfold. naive_solver lia.
  - set_solver.
  - set_solver.
  - set_solver.
  - intros p H. set_unfold.
    destruct H as [H | [H | [H | [H | [H | [H | H]]]]]];
      try (injection H; intros; subst; lia || reflexivity).
    apply Hold in H. lia.
Qed.

(** ** Invariants of the reachable worlds *)

Section Invariants.

Context (T : IERC7984).
Context (verifyInput :
           address -> address -> externalEuint64 -> bytes -> option Z).
Context (this : address).
Implicit Types (w : World T) (f : FHEVM).

Lemma fhevm_commit w : fhevm (commit w) = clear_transient (fhevm w).
Proof. reflexivity. Qed.

Lemma vault_commit w : vault (commit w) = vault w.
Proof. reflexivity. Qed.

Lemma log_commit w : log (commit w) = log w.
Proof. reflexivity. Qed.

Lemma tokenState_commit w asset :
  tokenState asset (commit w) = tokenState asset w.
Proof. reflexivity. Qed.

(** Every transaction either reverts and changes nothing, or commits one
    of the two closed forms. *)
Lemma execute_cases tx w :
  vault_inv this w ->
  (exists e, execute verifyInput this tx w = (Some e, w)) \/
  (exists sender asset e p v moved t,
      tx = TxStake sender asset e p /\
      isOperator T (tokenState asset w) sender this = true /\
      verifyInput this sender e p = Some v /\
      confidentialTransferFrom T (tokenState asset w) this sender this
        (wrap64 v) = Some (moved, t) /\
      execute verifyInput this tx w =
      (None, commit (stake_world this sender asset v moved t w))) \/
  (exists sender asset e p v moved t,
      tx = TxUnstake sender asset e p /\
      verifyInput this sender e p = Some v /\
      confidentialTransfer T (tokenState asset w) this sender
        (withdrawable (stake_of w sender asset) (wrap64 v))
      = Some (moved, t) /\
      execute verifyInput this tx w =
      (None, commit (unstake_world this sender asset v moved t w))).
Proof.
  intros Hinv. destruct tx as [sender asset e p | sender asset e p];
    unfold execute, call.
  - destruct (isOperator T (tokenState asset w) sender this) eqn:Hop.
    2: { left. rewrite (stake_not_operator _ _ _ _ _ _ _ _ Hop). eauto. }
    destruct (verifyInput this sender e p) as [v |] eqn:Hv.
    2: { left. rewrite (stake_invalid_proof _ _ _ _ _ _ _ _ Hop Hv). eauto. }
    destruct (confidentialTransferFrom T (tokenState asset w) this sender
                this (wrap64 v)) as [[moved t] |] eqn:Ht.
    2: { left.
         rewrite (stake_token_reverts _ _ _ _ _ _ _ _ _ Hop Hv Ht). eauto. }
    right. left. exists sender, asset, e, p, v, moved, t.
    rewrite (stake_ok _ _ _ _ _ _ _ _ _ _ _ Hinv Hop Hv Ht). auto.
  - destruct (verifyInput this sender e p) as [v |] eqn:Hv.
    2: { left. rewrite (unstake_invalid_proof _ _ _ _ _ _ _ _ Hv). eauto. }
    destruct (confidentialTransfer T (tokenState asset w) this sender
                (withdrawable (stake_of w sender asset) (wrap64 v)))
      as [[moved t] |] eqn:Ht.
    2: { left.
         rewrite (unstake_token_reverts _ _ _ _ _ _ _ _ _ Hinv Hv Ht).
         eauto. }
    right. right. exists sender, asset, e, p, v, moved, t.
    rewrite (unstake_ok _ _ _ _ _ _ _ _ _ _ _ Hinv Hv Ht). auto.
Qed.

Lemma written_commit_stake sender asset v moved t w :
  vault_inv this w ->
  written this sender (fhevm w)
    (fhevm (commit (stake_world this sender asset v moved t w)))
    (fresh (fhevm w) 3) (fresh (fhevm w) 5).
Proof.
  intros Hinv. rewrite fhevm_commit, fhevm_stake_world.
  apply written_stake, Hinv.
Qed.

Lemma written_commit_unstake sender asset v moved t w :
  vault_inv this w ->
  written this sender (fhevm w)
    (fhevm (commit (unstake_world this sender asset v moved t w)))
    (fresh (fhevm w) 4) (fresh (fhevm w) 10).
Proof.
  intros Hinv. rewrite fhevm_commit, fhevm_unstake_world.
  apply written_unstake, Hinv.
Qed.

Lemma vault_inv_written w w' sender asset hS hT :
  vault_inv this w ->
  written this sender (fhevm w) (fhevm w') hS hT ->
  vault w' = set_total asset hT (set_stake asset sender hS (vault w)) ->
  vault_inv this w'.
Proof.
  intros (Hsound & Hrange & Htr & Hst & Htot) W Hv.
  assert (Hold : forall h a, (h, a) ∈ acl_persistent (fhevm w) ->
                             (0 < h <= counter (fhevm w))%N).
  { intros h a H. apply (Hsound h a). left. exact H. }
  split; [| split; [| split; [| split]]].
  - intros h a [H | H].
    + destruct (decide (h <= counter (fhevm w))%N) as [Hle | Hgt].
      * apply (wr_old_acl _ _ _ _ _ _ W) in H; [| exact Hle].
        apply Hold in H. pose proof (wr_counter _ _ _ _ _ _ W). lia.
      * apply (wr_new_acl _ _ _ _ _ _ W) in H; [lia | exact Hgt].
    + rewrite (wr_transient _ _ _ _ _ _ W) in H. set_solver.
  - apply (wr_range _ _ _ _ _ _ W Hrange).
  - apply (wr_transient _ _ _ _ _ _ W).
  - intros asset' a. rewrite Hv, getStake_set_total, getStake_set_stake.
    case_decide as Hd.
    + destruct Hd as [-> ->]. intros _. split.
      * apply (wr_stake_this _ _ _ _ _ _ W).
      * apply (wr_stake_owner _ _ _ _ _ _ W).
    + intros Hne. destruct (Hst asset' a Hne) as [H1 H2].
      split; apply (wr_mono _ _ _ _ _ _ W); assumption.
  - intros asset'. rewrite Hv, getTotal_set_total.
    case_decide as Hd.
    + intros _. split.
      * apply (wr_total_this _ _ _ _ _ _ W).
      * apply (wr_total_only _ _ _ _ _ _ W).
    + rewrite getTotal_set_stake. intros Hne.
      destruct (Htot asset' Hne) as [H1 H2]. split.
      * apply (wr_mono _ _ _ _ _ _ W). exact H1.
      * intros p Hp. apply H2.
        apply (wr_old_acl _ _ _ _ _ _ W); [exact Hp |].
        apply Hold in H1. lia.
Qed.

Lemma vault_inv_deployed w : deployed w -> vault_inv this w.
Proof.
  intros (m & u & s & tm & tu & Hc & _ & _ & ->). unfold constructor in Hc.
  destruct (_ || _); [discriminate |]. injection Hc as <-.
  split; [| split; [| split; [| split]]]; simpl.
  - intros h a [H | H]; set_solver.
  - apply in_range_fhevm0.
  - reflexivity.
  - intros asset a H. destruct asset; contradiction.
  - intros asset H. destruct asset; contradiction.
Qed.

Lemma vault_inv_encrypt w who v :
  who <> this -> vault_inv this w ->
  vault_inv this (next verifyInput this (Encrypt T who v) w).
Proof.
  intros Hwho (Hsound & Hrange & Htr & Hst & Htot).
  assert (Hold : forall h a, (h, a) ∈ acl_persistent (fhevm w) ->
                             (0 < h <= counter (fhevm w))%N).
  { intros h a H. apply (Hsound h a). left. exact H. }
  split; [| split; [| split; [| split]]]; simpl.
  - intros h a. autorewrite with fhevm.
    intros [H | H]; [| set_solver].
    apply elem_of_union in H as [H | H].
    + apply elem_of_singleton in H. injection H as -> ->. lia.
    + apply Hold in H. lia.
  - solve_in_range.
  - reflexivity.
  - intros asset a H. simpl in H. destruct (Hst asset a H) as [H1 H2].
    autorewrite with fhevm. split; set_solver.
  - intros asset H. simpl in H. destruct (Htot asset H) as [H1 H2].
    autorewrite with fhevm. split; [set_solver |].
    intros p Hp. apply elem_of_union in Hp as [Hp | Hp].
    + apply elem_of_singleton in Hp. injection Hp as Hp ->.
      apply Hold in H1. lia.
    + apply H2, Hp.
Qed.

Lemma vault_inv_allow w who h to :
  who <> this -> (h, who) ∈ acl_persistent (fhevm w) ->
  vault_inv this w ->
  vault_inv this (next verifyInput this (Allow T who h to) w).
Proof.
  intros Hwho Hin (Hsound & Hrange & Htr & Hst & Htot).
  split; [| split; [| split; [| split]]]; simpl.
  - intros h' a. autorewrite with fhevm. intros [H | H].
    + apply elem_of_union in H as [H | H].
      * apply elem_of_singleton in H. injection H as -> ->.
        apply (Hsound h who). left. exact Hin.
      * apply (Hsound h' a). left. exact H.
    + apply (Hsound h' a). right. exact H.
  - solve_in_range.
  - exact Htr.
  - intros asset a H. simpl in H. destruct (Hst asset a H) as [H1 H2].
    autorewrite with fhevm. split; set_solver.
  - intros asset H. simpl in H. destruct (Htot asset H) as [H1 H2].
    autorewrite with fhevm. split; [set_solver |].
    intros p Hp. apply elem_of_union in Hp as [Hp | Hp].
    + apply elem_of_singleton in Hp. injection Hp as Hp ->.
      rewrite Hp in H2. specialize (H2 who Hin). contradiction.
    + apply H2, Hp.
Qed.

Lemma vault_inv_token w asset t :
  vault_inv this w -> vault_inv this (set_tokenState asset t w).
Proof. destruct asset; exact (fun H => H). Qed.

Lemma vault_inv_execute w tx :
  vault_inv this w -> vault_inv this (snd (execute verifyInput this tx w)).
Proof.
  intros Hinv.
  destruct (execute_cases tx w Hinv)
    as [[e ->] | [(sender & asset & e & p & v & moved & t & -> & _ & _ & _ & ->)
                 | (sender & asset & e & p & v & moved & t & -> & _ & _ & ->)]];
    simpl.
  - exact Hinv.
  - eapply vault_inv_written; [exact Hinv | |].
    + apply written_commit_stake, Hinv.
    + rewrite vault_commit. apply vault_stake_world.
  - eapply vault_inv_written; [exact Hinv | |].
    + apply written_commit_unstake, Hinv.
    + rewrite vault_commit. apply vault_unstake_world.
Qed.

Lemma vault_inv_next w st :
  enabled this st w -> vault_inv this w ->
  vault_inv this (next verifyInput this st w).
Proof.
  intros Hen Hinv. destruct st as [tx | asset t | who v | who h to].
  - apply vault_inv_execute, Hinv.
  - apply vault_inv_token, Hinv.
  - apply vault_inv_encrypt; assumption.
  - destruct Hen as [Hwho Hin]. apply vault_inv_allow; assumption.
Qed.

Lemma reachable_inv P w :
  reachable_by verifyInput this P w -> vault_inv this w.
Proof.
  induction 1 as [w Hd | w st _ IH Hen _].
  - apply vault_inv_deployed, Hd.
  - apply vault_inv_next; assumption.
Qed.

End Invariants.

(** ** Cleartexts written by the two calls *)

Ltac ct_simpl :=
  repeat first
    [ rewrite cleartext_clear_transient
    | rewrite cleartext_grant
    | rewrite cleartext_store_ct_new
    | rewrite cleartext_inc_sum
    | rewrite cleartext_dec_flag
    | rewrite cleartext_dec_updated
    | rewrite cleartext_store_ct_old by (autorewrite with fhevm; lia)
    | rewrite cleartext_inc_old by (autorewrite with fhevm; lia)
    | rewrite cleartext_dec_old by (autorewrite with fhevm; lia) ].

Lemma cleartext_stake_amount this token sender s0 t0 v moved f :
  cleartext (stake_fhevm this token sender s0 t0 v moved f) (fresh f 1) =
  wrap64 v.
Proof. unfold stake_fhevm, fresh. simpl. ct_simpl. reflexivity. Qed.

Lemma cleartext_stake_transferred this token sender s0 t0 v moved f :
  cleartext (stake_fhevm this token sender s0 t0 v moved f) (fresh f 2) =
  wrap64 moved.
Proof. unfold stake_fhevm, fresh. simpl. ct_simpl. reflexivity. Qed.

Lemma cleartext_stake_stake this token sender s0 t0 v moved f :
  cleartext (stake_fhevm this token sender s0 t0 v moved f) (fresh f 3) =
  wrap64 (s0 + wrap64 moved).
Proof. unfold stake_fhevm, fresh. simpl. ct_simpl. reflexivity. Qed.

Lemma cleartext_stake_total this token sender s0 t0 v moved f :
  cleartext (stake_fhevm this token sender s0 t0 v moved f) (fresh f 5) =
  wrap64 (t0 + wrap64 moved).
Proof. unfold stake_fhevm, fresh. simpl. ct_simpl. reflexivity. Qed.

Lemma cleartext_unstake_stake this token sender s0 t0 v moved f :
  cleartext (unstake_fhevm this token sender s0 t0 v moved f) (fresh f 4) =
  wrap64 (if s0 >=? wrap64 v then wrap64 (s0 - wrap64 v) else s0).
Proof. unfold unstake_fhevm, fresh. simpl. ct_simpl. reflexivity. Qed.

Lemma cleartext_unstake_amount this token sender s0 t0 v moved f :
  cleartext (unstake_fhevm this token sender s0 t0 v moved f) (fresh f 6) =
  withdrawable s0 (wrap64 v).
Proof.
  unfold unstake_fhevm, fresh. simpl. ct_simpl.
  unfold withdrawable. destruct (s0 >=? wrap64 v).
  - apply wrap64_idem.
  - reflexivity.
Qed.

Lemma cleartext_unstake_sent this token sender s0 t0 v moved f :
  cleartext (unstake_fhevm this token sender s0 t0 v moved f) (fresh f 7) =
  wrap64 moved.
Proof. unfold unstake_fhevm, fresh. simpl. ct_simpl. reflexivity. Qed.

Lemma cleartext_unstake_total this token sender s0 t0 v moved f :
  cleartext (unstake_fhevm this token sender s0 t0 v moved f) (fresh f 10) =
  wrap64 (if t0 >=? wrap64 moved then wrap64 (t0 - wrap64 moved) else t0).
Proof. unfold unstake_fhevm, fresh. simpl. ct_simpl. reflexivity. Qed.

(** In range, the guarded subtraction is the plain one. *)
Lemma guarded_sub x y :
  0 <= x < 2 ^ 64 -> 0 <= y ->
  wrap64 (if x >=? y then wrap64 (x - y) else x) =
  if x >=? y then x - y else x.
Proof.
  intros Hx Hy. destruct (x >=? y) eqn:E.
  - apply Z.geb_le in E. rewrite wrap64_idem. apply wrap64_small. lia.
  - apply wrap64_small. exact Hx.
Qed.

(** ** The decrypted views after a committed call *)

Section Views.

Context (T : IERC7984).
Context (verifyInput :
           address -> address -> externalEuint64 -> bytes -> option Z).
Context (this : address).
Implicit Types (w : World T) (f : FHEVM).

Lemma stake_handle_bound w asset a :
  vault_inv this w ->
  (_getStake asset a (vault w) <= counter (fhevm w))%N.
Proof.
  intros (Hsound & _ & _ & Hst & _).
  eapply usable_bound; [exact Hsound | apply usable_stake, Hst].
Qed.

Lemma total_handle_bound w asset :
  vault_inv this w ->
  (getTotalStaked asset (vault w) <= counter (fhevm w))%N.
Proof.
  intros (Hsound & _ & _ & _ & Htot).
  eapply usable_bound; [exact Hsound | apply usable_total, Htot].
Qed.

Lemma stake_of_range w a asset :
  vault_inv this w -> 0 <= stake_of w a asset < 2 ^ 64.
Proof. intros (_ & Hrange & _). apply Hrange. Qed.

Lemma total_staked_range w asset :
  vault_inv this w -> 0 <= total_staked w asset < 2 ^ 64.
Proof. intros (_ & Hrange & _). apply Hrange. Qed.

Lemma stake_of_stake sender asset v moved t w a asset' :
  vault_inv this w ->
  stake_of (commit (stake_world this sender asset v moved t w)) a asset' =
  if decide (asset' = asset /\ a = sender)
  then wrap64 (stake_of w sender asset + wrap64 moved)
  else stake_of w a asset'.
Proof.
  intros Hinv. unfold stake_of at 1, getEncryptedStake.
  rewrite vault_commit, vault_stake_world, fhevm_commit, fhevm_stake_world.
  rewrite getStake_set_total, getStake_set_stake, cleartext_clear_transient.
  case_decide.
  - apply cleartext_stake_stake.
  - pose proof (written_stake this (_getToken asset (vault w)) sender
                  (stake_of w sender asset) (total_staked w asset) v moved
                  (fhevm w) (proj1 Hinv)) as W.
    rewrite <- (cleartext_clear_transient (stake_fhevm _ _ _ _ _ _ _ _)).
    apply (wr_old _ _ _ _ _ _ W), stake_handle_bound, Hinv.
Qed.

Lemma total_staked_stake sender asset v moved t w asset' :
  vault_inv this w ->
  total_staked (commit (stake_world this sender asset v moved t w)) asset' =
  if decide (asset' = asset)
  then wrap64 (total_staked w asset + wrap64 moved)
  else total_staked w asset'.
Proof.
  intros Hinv. unfold total_staked at 1.
  rewrite vault_commit, vault_stake_world, fhevm_commit, fhevm_stake_world.
  rewrite getTotal_set_total, cleartext_clear_transient.
  case_decide.
  - apply cleartext_stake_total.
  - rewrite getTotal_set_stake.
    pose proof (written_stake this (_getToken asset (vault w)) sender
                  (stake_of w sender asset) (total_staked w asset) v moved
                  (fhevm w) (proj1 Hinv)) as W.
    rewrite <- (cleartext_clear_transient (stake_fhevm _ _ _ _ _ _ _ _)).
    apply (wr_old _ _ _ _ _ _ W), total_handle_bound, Hinv.
Qed.

Lemma stake_of_unstake sender asset v moved t w a asset' :
  vault_inv this w ->
  stake_of (commit (unstake_world this sender asset v moved t w)) a asset' =
  if decide (asset' = asset /\ a = sender)
  then (if stake_of w sender asset >=? wrap64 v
        then stake_of w sender asset - wrap64 v
        else stake_of w sender asset)
  else stake_of w a asset'.
Proof.
  intros Hinv. unfold stake_of at 1, getEncryptedStake.
  rewrite vault_commit, vault_unstake_world, fhevm_commit,
    fhevm_unstake_world.
  rewrite getStake_set_total, getStake_set_stake, cleartext_clear_transient.
  case_decide.
  - rewrite cleartext_unstake_stake. apply guarded_sub.
    + apply stake_of_range, Hinv.
    + apply wrap64_range.
  - pose proof (written_unstake this (_getToken asset (vault w)) sender
                  (stake_of w sender asset) (total_staked w asset) v moved
                  (fhevm w) (proj1 Hinv)) as W.
    rewrite <- (cleartext_clear_transient (unstake_fhevm _ _ _ _ _ _ _ _)).
    apply (wr_old _ _ _ _ _ _ W), stake_handle_bound, Hinv.
Qed.

Lemma total_staked_unstake sender asset v moved t w asset' :
  vault_inv this w ->
  total_staked (commit (unstake_world this sender asset v moved t w)) asset'
  = if decide (asset' = asset)
    then (if total_staked w asset >=? wrap64 moved
          then total_staked w asset - wrap64 moved
          else total_staked w asset)
    else total_staked w asset'.
Proof.
  intros Hinv. unfold total_staked at 1.
  rewrite vault_commit, vault_unstake_world, fhevm_commit,
    fhevm_unstake_world.
  rewrite getTotal_set_total, cleartext_clear_transient.
  case_decide.
  - rewrite cleartext_unstake_total. apply guarded_sub.
    + apply total_staked_range, Hinv.
    + apply wrap64_range.
  - rewrite getTotal_set_stake.
    pose proof (written_unstake this (_getToken asset (vault w)) sender
                  (stake_of w sender asset) (total_staked w asset) v moved
                  (fhevm w) (proj1 Hinv)) as W.
    rewrite <- (cleartext_clear_transient (unstake_fhevm _ _ _ _ _ _ _ _)).
    apply (wr_old _ _ _ _ _ _ W), total_handle_bound, Hinv.
Qed.

(** The effects of the two calls. *)
Lemma effects_stake sender asset e p v moved t w :
  execute verifyInput this (TxStake sender asset e p) w =
  (None, commit (stake_world this sender asset v moved t w)) ->
  effects verifyInput this (TxStake sender asset e p) w =
  [Call_confidentialTransferFrom (_getToken asset (vault w)) sender this
     (fresh (fhevm w) 1) (fresh (fhevm w) 2);
   Staked sender asset (fresh (fhevm w) 2)].
Proof.
  intros H. unfold effects. rewrite H. simpl snd.
  rewrite log_commit, log_stake_world. apply drop_app_length.
Qed.

Lemma effects_unstake sender asset e p v moved t w :
  execute verifyInput this (TxUnstake sender asset e p) w =
  (None, commit (unstake_world this sender asset v moved t w)) ->
  effects verifyInput this (TxUnstake sender asset e p) w =
  [Call_confidentialTransfer (_getToken asset (vault w)) sender
     (fresh (fhevm w) 6) (fresh (fhevm w) 7);
   Unstaked sender asset (fresh (fhevm w) 7)].
Proof.
  intros H. unfold effects. rewrite H. simpl snd.
  rewrite log_commit, log_unstake_world. apply drop_app_length.
Qed.

Lemma execute_stake sender asset e p v moved t w :
  vault_inv this w ->
  isOperator T (tokenState asset w) sender this = true ->
  verifyInput this sender e p = Some v ->
  confidentialTransferFrom T (tokenState asset w) this sender this
    (wrap64 v) = Some (moved, t) ->
  execute verifyInput this (TxStake sender asset e p) w =
  (None, commit (stake_world this sender asset v moved t w)).
Proof.
  intros Hinv Hop Hv Ht. unfold execute, call.
  rewrite (stake_ok _ _ _ _ _ _ _ _ _ _ _ Hinv Hop Hv Ht). reflexivity.
Qed.

Lemma execute_unstake sender asset e p v moved t w :
  vault_inv this w ->
  verifyInput this sender e p = Some v ->
  confidentialTransfer T (tokenState asset w) this sender
    (withdrawable (stake_of w sender asset) (wrap64 v)) = Some (moved, t) ->
  execute verifyInput this (TxUnstake sender asset e p) w =
  (None, commit (unstake_world this sender asset v moved t w)).
Proof.
  intros Hinv Hv Ht. unfold execute, call.
  rewrite (unstake_ok _ _ _ _ _ _ _ _ _ _ _ Hinv Hv Ht). reflexivity.
Qed.

End Views.

(** ** Properties of the calls *)

Section Calls.

Context (T : IERC7984).
Context (verifyInput :
           address -> address -> externalEuint64 -> bytes -> option Z).
Context (this : address).
Implicit Types (w : World T) (f : FHEVM).

Lemma reachable_evolves w w' :
  reachable verifyInput this w -> evolves verifyInput this w w' ->
  reachable verifyInput this w'.
Proof.
  intros Hr. induction 1 as [| w' st _ IH Hen]; [exact Hr |].
  apply reach_step; [exact IH | exact Hen | trivial].
Qed.

(** C5: a [stake] by a caller who has not made the vault an operator of
    the token fails with [NebulaVaultOperatorMissing], whatever the input
    and its proof are (so before they are validated), and the transaction
    leaves the world, hence every stake and every total, as it was. *)
Theorem stake_requires_operator w sender asset e p :
  isOperator T (tokenState asset w) sender this = false ->
  stake verifyInput this sender asset e p w
  = inl NebulaVaultOperatorMissing /\
  execute verifyInput this (TxStake sender asset e p) w
  = (Some NebulaVaultOperatorMissing, w).
Proof.
  intros Hop.
  pose proof (stake_not_operator T verifyInput this w sender asset e p Hop)
    as H.
  split; [exact H |]. unfold execute, call. rewrite H. reflexivity.
Qed.

(** C9: a [stake] or [unstake] by a caller on an asset leaves the stake of
    every other account, the caller's stake in the other asset and the
    total of the other asset as they were, handle and cleartext. *)
Theorem calls_touch_one_position w tx :
  reachable verifyInput this w ->
  let w' := snd (execute verifyInput this tx w) in
  (forall a asset,
      (asset, a) <> (tx_asset tx, tx_sender tx) ->
      getEncryptedStake a asset (vault w')
      = getEncryptedStake a asset (vault w) /\
      stake_of w' a asset = stake_of w a asset) /\
  (forall asset,
      asset <> tx_asset tx ->
      getTotalStaked asset (vault w') = getTotalStaked asset (vault w) /\
      total_staked w' asset = total_staked w asset).
Proof.
  intros Hr w'. subst w'.
  pose proof (reachable_inv T verifyInput this _ w Hr) as Hinv.
  destruct (execute_cases T verifyInput this tx w Hinv)
    as [[e ->] | [(sender & asset & e & p & v & moved & t & -> & _ & _ & _ & ->)
                 | (sender & asset & e & p & v & moved & t & -> & _ & _ & ->)]];
    cbn [snd].
  - split; intros; split; reflexivity.
  - split.
    + intros a asset' Hne. simpl in Hne.
      rewrite (stake_of_stake T this sender asset v moved t w a asset' Hinv).
      unfold getEncryptedStake.
      rewrite vault_commit, vault_stake_world, getStake_set_total,
        getStake_set_stake.
      rewrite !decide_False by (intros [-> ->]; congruence).
      split; reflexivity.
    + intros asset' Hne. simpl in Hne.
      rewrite (total_staked_stake T this sender asset v moved t w asset'
                 Hinv).
      rewrite vault_commit, vault_stake_world, getTotal_set_total,
        getTotal_set_stake.
      rewrite !decide_False by congruence. split; reflexivity.
  - split.
    + intros a asset' Hne. simpl in Hne.
      rewrite (stake_of_unstake T this sender asset v moved t w a asset'
                 Hinv).
      unfold getEncryptedStake.
      rewrite vault_commit, vault_unstake_world, getStake_set_total,
        getStake_set_stake.
      rewrite !decide_False by (intros [-> ->]; congruence).
      split; reflexivity.
    + intros asset' Hne. simpl in Hne.
      rewrite (total_staked_unstake T this sender asset v moved t w asset'
                 Hinv).
      rewrite vault_commit, vault_unstake_world, getTotal_set_total,
        getTotal_set_stake.
      rewrite !decide_False by congruence. split; reflexivity.
Qed.

(** C8: whatever a transaction writes into the stake of an account is, in
    the world it leaves, readable by the vault and by that account, and
    whatever it writes into a total is readable by the vault: no storage
    slot changes without the grants on its new content. *)
Theorem writes_are_granted w tx :
  reachable verifyInput this w ->
  let w' := snd (execute verifyInput this tx w) in
  (forall a asset,
      getEncryptedStake a asset (vault w')
      <> getEncryptedStake a asset (vault w) ->
      (getEncryptedStake a asset (vault w'), this)
        ∈ acl_persistent (fhevm w') /\
      (getEncryptedStake a asset (vault w'), a)
        ∈ acl_persistent (fhevm w')) /\
  (forall asset,
      getTotalStaked asset (vault w') <> getTotalStaked asset (vault w) ->
      (getTotalStaked asset (vault w'), this) ∈ acl_persistent (fhevm w')).
Proof.
  intros Hr w'. subst w'.
  pose proof (reachable_inv T verifyInput this _ w Hr) as Hinv.
  destruct (execute_cases T verifyInput this tx w Hinv)
    as [[e ->] | [(sender & asset & e & p & v & moved & t & -> & _ & _ & _ & ->)
                 | (sender & asset & e & p & v & moved & t & -> & _ & _ & ->)]];
    cbn [snd].
  - split; intros; congruence.
  - pose proof (written_commit_stake T this sender asset v moved t w Hinv)
      as W.
    unfold getEncryptedStake.
    rewrite vault_commit, vault_stake_world. split.
    + intros a asset'. rewrite getStake_set_total, getStake_set_stake.
      case_decide as Hd; [| congruence]. destruct Hd as [-> ->].
      intros _. split.
      * apply (wr_stake_this _ _ _ _ _ _ W).
      * apply (wr_stake_owner _ _ _ _ _ _ W).
    + intros asset'. rewrite getTotal_set_total, getTotal_set_stake.
      case_decide; [| congruence].
      intros _. apply (wr_total_this _ _ _ _ _ _ W).
  - pose proof (written_commit_unstake T this sender asset v moved t w Hinv)
      as W.
    unfold getEncryptedStake.
    rewrite vault_commit, vault_unstake_world. split.
    + intros a asset'. rewrite getStake_set_total, getStake_set_stake.
      case_decide as Hd; [| congruence]. destruct Hd as [-> ->].
      intros _. split.
      * apply (wr_stake_this _ _ _ _ _ _ W).
      * apply (wr_stake_owner _ _ _ _ _ _ W).
    + intros asset'. rewrite getTotal_set_total, getTotal_set_stake.
      case_decide; [| congruence].
      intros _. apply (wr_total_this _ _ _ _ _ _ W).
Qed.

Lemma sealed_total w asset :
  vault_inv this w -> sealed this w (getTotalStaked asset (vault w)).
Proof.
  intros Hinv. split; [apply (total_handle_bound T this), Hinv |].
  destruct Hinv as (Hsound & _ & _ & _ & Htot).
  intros p Hp.
  destruct (decide (getTotalStaked asset (vault w) = 0%N)) as [E | E].
  - rewrite E in Hp. specialize (Hsound 0%N p (or_introl Hp)). lia.
  - apply (Htot asset E), Hp.
Qed.

Lemma sealed_next w st h :
  vault_inv this w -> enabled this st w -> sealed this w h ->
  sealed this (next verifyInput this st w) h.
Proof.
  intros Hinv Hen [Hb Hs].
  destruct st as [tx | asset t | who v | who h0 to]; unfold sealed; simpl.
  - destruct (execute_cases T verifyInput this tx w Hinv)
      as [[e ->] | [(sender & asset & e & p & v & moved & t & -> & _ & _ & _ & ->)
                   | (sender & asset & e & p & v & moved & t & -> & _ & _ & ->)]];
      cbn [snd].
    + split; assumption.
    + pose proof (written_commit_stake T this sender asset v moved t w Hinv)
        as W.
      split.
      * pose proof (wr_counter _ _ _ _ _ _ W). lia.
      * intros q Hq. apply Hs, (wr_old_acl _ _ _ _ _ _ W); assumption.
    + pose proof (written_commit_unstake T this sender asset v moved t w
                    Hinv) as W.
      split.
      * pose proof (wr_counter _ _ _ _ _ _ W). lia.
      * intros q Hq. apply Hs, (wr_old_acl _ _ _ _ _ _ W); assumption.
  - rewrite fhevm_set_tokenState. split; assumption.
  - split; autorewrite with fhevm; [lia |].
    intros q Hq. apply elem_of_union in Hq as [Hq | Hq].
    + apply elem_of_singleton in Hq. injection Hq as Hq _. lia.
    + apply Hs, Hq.
  - destruct Hen as [Hwho Hin]. split; autorewrite with fhevm; [exact Hb |].
    intros q Hq. apply elem_of_union in Hq as [Hq | Hq].
    + apply elem_of_singleton in Hq. injection Hq as -> ->.
      specialize (Hs who Hin). contradiction.
    + apply Hs, Hq.
Qed.

(** C3, amended: a [stake] that goes through credits the stake of the
    caller and the total of the asset with the amount the token reports as
    moved, whatever amount was requested, as long as the new value stays
    below 2^64.  The overflow flag of [tryIncrease] is not looked at: after
    a deposit that would take the stake, or the total, to 2^64 or beyond,
    what is stored is less than the sum, and the deposit is not credited in
    full. *)
Theorem stake_credits_amount_moved w sender asset e p v moved t :
  reachable verifyInput this w ->
  isOperator T (tokenState asset w) sender this = true ->
  verifyInput this sender e p = Some v ->
  confidentialTransferFrom T (tokenState asset w) this sender this
    (wrap64 v) = Some (moved, t) ->
  let tx := TxStake sender asset e p in
  let w' := snd (execute verifyInput this tx w) in
  fst (execute verifyInput this tx w) = None /\
  (exists token amount transferred,
      effects verifyInput this tx w =
      [Call_confidentialTransferFrom token sender this amount transferred;
       Staked sender asset transferred] /\
      cleartext (fhevm w') amount = wrap64 v /\
      cleartext (fhevm w') transferred = wrap64 moved) /\
  (stake_of w sender asset + wrap64 moved < 2 ^ 64 ->
   stake_of w' sender asset = stake_of w sender asset + wrap64 moved) /\
  (total_staked w asset + wrap64 moved < 2 ^ 64 ->
   total_staked w' asset = total_staked w asset + wrap64 moved) /\
  (2 ^ 64 <= stake_of w sender asset + wrap64 moved ->
   stake_of w' sender asset < stake_of w sender asset + wrap64 moved) /\
  (2 ^ 64 <= total_staked w asset + wrap64 moved ->
   total_staked w' asset < total_staked w asset + wrap64 moved).
Proof.
  intros Hr Hop Hv Ht tx w'. subst tx w'.
  pose proof (reachable_inv T verifyInput this _ w Hr) as Hinv.
  pose proof (execute_stake T verifyInput this sender asset e p v moved t w
                Hinv Hop Hv Ht) as Hex.
  rewrite (effects_stake T verifyInput this _ _ _ _ _ _ _ _ Hex).
  rewrite Hex. cbn [fst snd].
  rewrite (stake_of_stake T this sender asset v moved t w sender asset Hinv).
  rewrite (total_staked_stake T this sender asset v moved t w asset Hinv).
  rewrite !decide_True by auto.
  pose proof (stake_of_range T this w sender asset Hinv).
  pose proof (total_staked_range T this w asset Hinv).
  pose proof (wrap64_range moved).
  pose proof (wrap64_range (stake_of w sender asset + wrap64 moved)).
  pose proof (wrap64_range (total_staked w asset + wrap64 moved)).
  split; [reflexivity |]. split.
  - eexists _, _, _. split; [reflexivity |].
    rewrite fhevm_commit, fhevm_stake_world, !cleartext_clear_transient.
    split; [apply cleartext_stake_amount | apply cleartext_stake_transferred].
  - split; [| split; [| split]]; intros.
    + apply wrap64_small; lia.
    + apply wrap64_small; lia.
    + lia.
    + lia.
Qed.


(** C4, amended: an [unstake] of no more than the caller's stake takes
    the requested amount off the stake, whatever the token reports as
    sent; the total is debited with the amount the token reports as sent
    when the total covers it, and is left as it was otherwise. *)
Theorem unstake_debits_requested_and_sent w sender asset e p v moved t :
  reachable verifyInput this w ->
  verifyInput this sender e p = Some v ->
  wrap64 v <= stake_of w sender asset ->
  confidentialTransfer T (tokenState asset w) this sender (wrap64 v)
  = Some (moved, t) ->
  let tx := TxUnstake sender asset e p in
  let w' := snd (execute verifyInput this tx w) in
  fst (execute verifyInput this tx w) = None /\
  (exists token amount sent,
      effects verifyInput this tx w =
      [Call_confidentialTransfer token sender amount sent;
       Unstaked sender asset sent] /\
      cleartext (fhevm w') amount = wrap64 v /\
      cleartext (fhevm w') sent = wrap64 moved) /\
  stake_of w' sender asset = stake_of w sender asset - wrap64 v /\
  total_staked w' asset =
  (if total_staked w asset >=? wrap64 moved
   then total_staked w asset - wrap64 moved
   else total_staked w asset).
Proof.
  intros Hr Hv Hle Ht tx w'. subst tx w'.
  pose proof (reachable_inv T verifyInput this _ w Hr) as Hinv.
  assert (Hge : (stake_of w sender asset >=? wrap64 v) = true).
  { apply Z.geb_le. exact Hle. }
  assert (Hw : withdrawable (stake_of w sender asset) (wrap64 v)
               = wrap64 v).
  { unfold withdrawable. rewrite Hge. reflexivity. }
  rewrite <- Hw in Ht.
  pose proof (execute_unstake T verifyInput this sender asset e p v moved t
                w Hinv Hv Ht) as Hex.
  rewrite (effects_unstake T verifyInput this _ _ _ _ _ _ _ _ Hex).
  rewrite Hex. cbn [fst snd].
  rewrite (stake_of_unstake T this sender asset v moved t w sender asset
             Hinv).
  rewrite (total_staked_unstake T this sender asset v moved t w asset Hinv).
  rewrite !decide_True by auto. rewrite Hge.
  split; [reflexivity |]. split; [| split; reflexivity].
  eexists _, _, _. split; [reflexivity |].
  rewrite fhevm_commit, fhevm_unstake_world, !cleartext_clear_transient.
  rewrite cleartext_unstake_amount, cleartext_unstake_sent.
  split; [exact Hw | reflexivity].
Qed.

(** C7, amended: [unstake] never asks whether the caller made the vault
    an operator: it never fails with [NebulaVaultOperatorMissing].  Before
    anything is written it fails in two ways only: with [InvalidProof] when
    the input does not validate, and with the token when the token's
    [confidentialTransfer] reverts; in both cases the world is left as it
    was.  Otherwise it commits. *)
Theorem unstake_needs_no_operator w sender asset e p :
  reachable verifyInput this w ->
  let tx := TxUnstake sender asset e p in
  (unstake verifyInput this sender asset e p w
   <> inl NebulaVaultOperatorMissing) /\
  match verifyInput this sender e p with
  | None => execute verifyInput this tx w = (Some InvalidProof, w)
  | Some v =>
      match confidentialTransfer T (tokenState asset w) this sender
              (withdrawable (stake_of w sender asset) (wrap64 v)) with
      | None =>
          execute verifyInput this tx w
          = (Some (TokenReverted (_getToken asset (vault w))), w)
      | Some _ => fst (execute verifyInput this tx w) = None
      end
  end.
Proof.
  intros Hr tx. subst tx.
  pose proof (reachable_inv T verifyInput this _ w Hr) as Hinv.
  destruct (verifyInput this sender e p) as [v |] eqn:Hv.
  - destruct (confidentialTransfer T (tokenState asset w) this sender
                (withdrawable (stake_of w sender asset) (wrap64 v)))
      as [[moved t] |] eqn:Ht.
    + split.
      * rewrite (unstake_ok _ _ _ _ _ _ _ _ _ _ _ Hinv Hv Ht). discriminate.
      * rewrite (execute_unstake T verifyInput this sender asset e p v moved
                   t w Hinv Hv Ht).
        reflexivity.
    + unfold execute, call.
      rewrite (unstake_token_reverts _ _ _ _ _ _ _ _ _ Hinv Hv Ht).
      split; [discriminate | reflexivity].
  - unfold execute, call.
    rewrite (unstake_invalid_proof _ _ _ _ _ _ _ _ Hv).
    split; [discriminate | reflexivity].
Qed.

End Calls.


(** ** Sums over finite maps *)

Lemma sumZ_empty {V} (g : V -> Z) : sumZ g ∅ = 0.
Proof. unfold sumZ. apply map_fold_empty. Qed.

Lemma sumZ_insert_fresh {V} (g : V -> Z) (m : gmap N V) k v :
  m !! k = None -> sumZ g (<[k := v]> m) = g v + sumZ g m.
Proof.
  intros H. unfold sumZ.
  rewrite (map_fold_insert_L (fun _ x acc => g x + acc) 0 k v m);
    [reflexivity | | exact H].
  intros. lia.
Qed.

Lemma sumZ_delete {V} (g : V -> Z) (m : gmap N V) k v :
  m !! k = Some v -> sumZ g m = g v + sumZ g (delete k m).
Proof.
  intros H. rewrite <- (insert_delete_id m k v H) at 1.
  apply sumZ_insert_fresh, lookup_delete_eq.
Qed.

Lemma sumZ_insert {V} (g : V -> Z) (m : gmap N V) k v :
  sumZ g (<[k := v]> m) = g v + sumZ g m - from_option g 0 (m !! k).
Proof.
  destruct (m !! k) as [x |] eqn:E; simpl.
  - rewrite <- insert_delete_eq.
    rewrite sumZ_insert_fresh by apply lookup_delete_eq.
    rewrite (sumZ_delete g m k x E). lia.
  - rewrite sumZ_insert_fresh by exact E. lia.
Qed.

Lemma sumZ_ext {V} (g g' : V -> Z) (m : gmap N V) :
  (forall k v, m !! k = Some v -> g v = g' v) -> sumZ g m = sumZ g' m.
Proof.
  induction m as [| k v m Hk IH] using map_ind; intros H.
  - rewrite !sumZ_empty. reflexivity.
  - rewrite !sumZ_insert_fresh by exact Hk.
    rewrite (H k v) by apply lookup_insert_eq.
    rewrite IH; [reflexivity |].
    intros k' v' Hk'. apply (H k').
    rewrite lookup_insert_ne; [exact Hk' | congruence].
Qed.

Lemma sumZ_nonneg {V} (g : V -> Z) (m : gmap N V) :
  (forall k v, m !! k = Some v -> 0 <= g v) -> 0 <= sumZ g m.
Proof.
  induction m as [| k v m Hk IH] using map_ind; intros H.
  - rewrite sumZ_empty. lia.
  - rewrite sumZ_insert_fresh by exact Hk.
    pose proof (H k v (lookup_insert_eq _ _ _)).
    assert (0 <= sumZ g m); [| lia].
    apply IH. intros k' v' Hk'. apply (H k').
    rewrite lookup_insert_ne; [exact Hk' | congruence].
Qed.

Lemma sumZ_lookup_le {V} (g : V -> Z) (m : gmap N V) k v :
  (forall k v, m !! k = Some v -> 0 <= g v) ->
  m !! k = Some v -> g v <= sumZ g m.
Proof.
  intros Hpos Hk. rewrite (sumZ_delete g m k v Hk).
  assert (0 <= sumZ g (delete k m)); [| lia].
  apply sumZ_nonneg. intros k' v' Hk'.
  apply lookup_delete_Some in Hk' as [_ Hk']. apply (Hpos k' v' Hk').
Qed.

(** ** The total and the sum of the stakes *)

Section Totals.

Context (T : IERC7984).
Context (verifyInput :
           address -> address -> externalEuint64 -> bytes -> option Z).
Context (this : address).
Implicit Types (w : World T) (f : FHEVM).

Lemma stakes_lookup_bound w asset k h :
  vault_inv this w -> stakes asset (vault w) !! k = Some h ->
  (h <= counter (fhevm w))%N.
Proof.
  intros Hinv Hk.
  pose proof (stake_handle_bound T this w asset k Hinv) as H.
  rewrite getStake_stakes in H. unfold mapping_get in H.
  rewrite Hk in H. exact H.
Qed.

Lemma stake_le_sum w asset a :
  vault_inv this w -> stake_of w a asset <= staked_sum w asset.
Proof.
  intros Hinv. unfold stake_of, staked_sum, getEncryptedStake.
  rewrite getStake_stakes. unfold mapping_get.
  destruct (stakes asset (vault w) !! a) as [h |] eqn:E; simpl.
  - apply (sumZ_lookup_le _ _ a h); [| exact E].
    intros k v _. apply Hinv.
  - change (cleartext (fhevm w) 0%N) with 0.
    apply sumZ_nonneg. intros k v _. apply Hinv.
Qed.

(** Worlds that agree on storage and on the old cleartexts have the same
    decrypted views. *)
Lemma staked_sum_same w w' asset :
  vault_inv this w -> vault w' = vault w ->
  (forall h, (h <= counter (fhevm w))%N ->
             cleartext (fhevm w') h = cleartext (fhevm w) h) ->
  staked_sum w' asset = staked_sum w asset.
Proof.
  intros Hinv Hv Hc. unfold staked_sum. rewrite Hv.
  apply sumZ_ext. intros k h Hk.
  apply Hc, (stakes_lookup_bound w asset k h Hinv Hk).
Qed.

Lemma total_staked_same w w' asset :
  vault_inv this w -> vault w' = vault w ->
  (forall h, (h <= counter (fhevm w))%N ->
             cleartext (fhevm w') h = cleartext (fhevm w) h) ->
  total_staked w' asset = total_staked w asset.
Proof.
  intros Hinv Hv Hc. unfold total_staked. rewrite Hv.
  apply Hc, (total_handle_bound T this), Hinv.
Qed.

Lemma stake_of_same w w' a asset :
  vault_inv this w -> vault w' = vault w ->
  (forall h, (h <= counter (fhevm w))%N ->
             cleartext (fhevm w') h = cleartext (fhevm w) h) ->
  stake_of w' a asset = stake_of w a asset.
Proof.
  intros Hinv Hv Hc. unfold stake_of, getEncryptedStake. rewrite Hv.
  apply Hc, (stake_handle_bound T this), Hinv.
Qed.

(** What the environment does leaves the old cleartexts alone. *)
Lemma environment_keeps_cleartexts w st :
  (forall tx, st <> Transact T tx) ->
  vault (next verifyInput this st w) = vault w /\
  forall h, (h <= counter (fhevm w))%N ->
            cleartext (fhevm (next verifyInput this st w)) h
            = cleartext (fhevm w) h.
Proof.
  intros Hst. destruct st as [tx | asset t | who v | who h0 to]; simpl.
  - destruct (Hst tx). reflexivity.
  - rewrite vault_set_tokenState, fhevm_set_tokenState. auto.
  - split; [reflexivity |]. intros h Hh.
    rewrite cleartext_clear_transient, cleartext_grant.
    apply cleartext_store_ct_old, Hh.
  - split; [reflexivity |]. intros h Hh. apply cleartext_grant.
Qed.

(** The sum after a committed call that wrote [hS] for [sender]. *)
Lemma staked_sum_written w w' sender asset hS hT asset' :
  vault_inv this w ->
  written this sender (fhevm w) (fhevm w') hS hT ->
  vault w' = set_total asset hT (set_stake asset sender hS (vault w)) ->
  staked_sum w' asset' =
  if decide (asset' = asset)
  then staked_sum w asset - stake_of w sender asset
       + cleartext (fhevm w') hS
  else staked_sum w asset'.
Proof.
  intros Hinv W Hv. unfold staked_sum at 1.
  rewrite Hv, stakes_set_total, stakes_set_stake.
  assert (Hext : forall a,
             sumZ (cleartext (fhevm w')) (stakes a (vault w))
             = staked_sum w a).
  { intros a. apply sumZ_ext. intros k h Hk.
    apply (wr_old _ _ _ _ _ _ W), (stakes_lookup_bound w a k h Hinv Hk). }
  case_decide as Hd; [subst asset' | apply Hext].
  rewrite sumZ_insert, Hext.
  assert (from_option (cleartext (fhevm w')) 0
            (stakes asset (vault w) !! sender)
          = stake_of w sender asset) as ->; [| lia].
  unfold stake_of, getEncryptedStake. rewrite getStake_stakes.
  unfold mapping_get.
  destruct (stakes asset (vault w) !! sender) as [h |] eqn:E; simpl.
  - apply (wr_old _ _ _ _ _ _ W), (stakes_lookup_bound w asset _ h Hinv E).
  - reflexivity.
Qed.

Lemma staked_sum_stake sender asset v moved t w asset' :
  vault_inv this w ->
  staked_sum (commit (stake_world this sender asset v moved t w)) asset' =
  if decide (asset' = asset)
  then staked_sum w asset - stake_of w sender asset
       + wrap64 (stake_of w sender asset + wrap64 moved)
  else staked_sum w asset'.
Proof.
  intros Hinv.
  rewrite (staked_sum_written w _ sender asset
             (fresh (fhevm w) 3) (fresh (fhevm w) 5) asset' Hinv
             (written_commit_stake T this sender asset v moved t w Hinv)
             (vault_stake_world T this sender asset v moved t w)).
  case_decide; [| reflexivity].
  rewrite fhevm_commit, fhevm_stake_world, cleartext_clear_transient.
  rewrite cleartext_stake_stake. reflexivity.
Qed.

Lemma staked_sum_unstake sender asset v moved t w asset' :
  vault_inv this w ->
  staked_sum (commit (unstake_world this sender asset v moved t w)) asset' =
  if decide (asset' = asset)
  then staked_sum w asset
       - withdrawable (stake_of w sender asset) (wrap64 v)
  else staked_sum w asset'.
Proof.
  intros Hinv.
  rewrite (staked_sum_written w _ sender asset
             (fresh (fhevm w) 4) (fresh (fhevm w) 10) asset' Hinv
             (written_commit_unstake T this sender asset v moved t w Hinv)
             (vault_unstake_world T this sender asset v moved t w)).
  case_decide; [| reflexivity].
  rewrite fhevm_commit, fhevm_unstake_world, cleartext_clear_transient.
  rewrite cleartext_unstake_stake.
  rewrite guarded_sub;
    [| apply (stake_of_range T this), Hinv | apply wrap64_range].
  unfold withdrawable.
  destruct (stake_of w sender asset >=? wrap64 v); lia.
Qed.

Lemma classic_tx (st : Step T) :
  (exists tx, st = Transact T tx) \/ (forall tx, st <> Transact T tx).
Proof.
  destruct st; [left; eauto | right; discriminate ..].
Qed.

Lemma withdrawable_le s0 r : 0 <= s0 -> withdrawable s0 r <= s0.
Proof.
  intros H. unfold withdrawable. destruct (s0 >=? r) eqn:E; [| lia].
  apply Z.geb_le in E. lia.
Qed.

Lemma conservative_stake sender asset e p v moved t w :
  execute verifyInput this (TxStake sender asset e p) w =
  (None, commit (stake_world this sender asset v moved t w)) ->
  conservative verifyInput this (TxStake sender asset e p) w ->
  total_staked w asset + wrap64 moved < 2 ^ 64.
Proof.
  intros Hex Hc. unfold conservative in Hc.
  rewrite (effects_stake T verifyInput this _ _ _ _ _ _ _ _ Hex) in Hc.
  specialize (Hc _ (list_elem_of_here _ _)). simpl in Hc.
  rewrite Hex in Hc. cbn [snd] in Hc.
  rewrite fhevm_commit, fhevm_stake_world, cleartext_clear_transient in Hc.
  rewrite cleartext_stake_transferred in Hc. exact Hc.
Qed.

Lemma conservative_unstake sender asset e p v moved t w :
  execute verifyInput this (TxUnstake sender asset e p) w =
  (None, commit (unstake_world this sender asset v moved t w)) ->
  conservative verifyInput this (TxUnstake sender asset e p) w ->
  wrap64 moved = withdrawable (stake_of w sender asset) (wrap64 v).
Proof.
  intros Hex Hc. unfold conservative in Hc.
  rewrite (effects_unstake T verifyInput this _ _ _ _ _ _ _ _ Hex) in Hc.
  specialize (Hc _ (list_elem_of_here _ _)). simpl in Hc.
  rewrite Hex in Hc. cbn [snd] in Hc.
  rewrite fhevm_commit, fhevm_unstake_world, !cleartext_clear_transient
    in Hc.
  rewrite cleartext_unstake_sent, cleartext_unstake_amount in Hc.
  exact Hc.
Qed.

(** C2, amended: in every world reached through transactions during
    which the token sends out exactly the amount the vault asked it to
    send, and no deposit takes the total beyond 64 bits, the total of
    every asset decrypts to the sum of the decrypted stakes of all
    accounts in it.  What the token reports as moved on a deposit is
    free to differ from the amount requested. *)
Theorem total_is_sum_of_stakes w :
  reachable_by verifyInput this (conservative verifyInput this) w ->
  forall asset, total_staked w asset = staked_sum w asset.
Proof.
  intros Hr.
  induction Hr as [w Hd | w st Hr IH Hen Hcons].
  - destruct Hd as (m & u & s & tm & tu & Hc & _ & _ & ->).
    unfold constructor in Hc. destruct (_ || _); [discriminate |].
    injection Hc as <-. intros asset.
    unfold total_staked, staked_sum. destruct asset; reflexivity.
  - pose proof (reachable_inv T verifyInput this _ w Hr) as Hinv.
    intros asset'.
    destruct (classic_tx st) as [[tx ->] | Hst].
    + specialize (Hcons tx eq_refl). simpl.
      destruct (execute_cases T verifyInput this tx w Hinv)
        as [[e He]
           | [(sender & asset & e & p & v & moved & t & -> & _ & _ & _ & Hex)
             | (sender & asset & e & p & v & moved & t & -> & _ & _ & Hex)]].
      * rewrite He. apply IH.
      * pose proof (conservative_stake _ _ _ _ _ _ _ _ Hex Hcons) as Hb.
        rewrite Hex. cbn [snd].
        rewrite (total_staked_stake T this sender asset v moved t w asset'
                   Hinv).
        rewrite (staked_sum_stake sender asset v moved t w asset' Hinv).
        case_decide as Hd; [subst asset' | apply IH].
        pose proof (stake_le_sum w asset sender Hinv).
        pose proof (stake_of_range T this w sender asset Hinv).
        pose proof (wrap64_range moved).
        rewrite <- (IH asset) in *.
        rewrite (wrap64_small (total_staked w asset + wrap64 moved)) by lia.
        rewrite (wrap64_small (stake_of w sender asset + wrap64 moved))
          by lia.
        lia.
      * pose proof (conservative_unstake _ _ _ _ _ _ _ _ Hex Hcons) as Hm.
        rewrite Hex. cbn [snd].
        rewrite (total_staked_unstake T this sender asset v moved t w asset'
                   Hinv).
        rewrite (staked_sum_unstake sender asset v moved t w asset' Hinv).
        case_decide as Hd; [subst asset' | apply IH].
        pose proof (stake_le_sum w asset sender Hinv).
        pose proof (stake_of_range T this w sender asset Hinv).
        pose proof (withdrawable_le (stake_of w sender asset) (wrap64 v)).
        rewrite <- (IH asset) in *. rewrite Hm.
        destruct (total_staked w asset
                  >=? withdrawable (stake_of w sender asset) (wrap64 v))
          eqn:E; [lia |].
        rewrite Z.geb_leb in E. apply Z.leb_gt in E. lia.
    + destruct (environment_keeps_cleartexts w st Hst) as [Hv Hc].
      rewrite (total_staked_same w _ asset' Hinv Hv Hc).
      rewrite (staked_sum_same w _ asset' Hinv Hv Hc).
      apply IH.
Qed.

End Totals.


(** ** The faithful token *)

Module ERC7984Facts.

Import ERC7984.

Lemma sane_empty vault : sane vault empty.
Proof.
  split; [| split].
  - intros a z H. unfold empty in H. simpl in H.
    rewrite lookup_empty in H. discriminate.
  - unfold totalSupply, empty. simpl. rewrite sumZ_empty.
    unfold MAX_UINT64. lia.
  - intros x H. unfold empty in H. simpl in H. set_solver.
Qed.

Lemma balanceOf_nonneg vault t a : sane vault t -> 0 <= balanceOf t a.
Proof.
  intros (Hpos & _). unfold balanceOf.
  destruct (balances t !! a) as [z |] eqn:E; simpl; [apply (Hpos a z E) | lia].
Qed.

Lemma balanceOf_le_supply vault t a :
  sane vault t -> balanceOf t a <= totalSupply t.
Proof.
  intros (Hpos & _). unfold balanceOf, totalSupply.
  destruct (balances t !! a) as [z |] eqn:E; simpl.
  - apply (sumZ_lookup_le (fun z => z) _ a z); [exact Hpos | exact E].
  - apply sumZ_nonneg. exact Hpos.
Qed.

Lemma two_balances_le_supply vault t a b :
  sane vault t -> a <> b -> balanceOf t a + balanceOf t b <= totalSupply t.
Proof.
  intros Hs Hab. pose proof Hs as (Hpos & _). unfold totalSupply.
  assert (Ha : balanceOf t a <= sumZ (fun z => z) (balances t)
               - balanceOf t b); [| lia].
  unfold balanceOf at 2.
  destruct (balances t !! b) as [z |] eqn:E; simpl.
  - rewrite (sumZ_delete (fun z => z) _ b z E).
    replace (z + sumZ (fun z => z) (delete b (balances t)) - z)
      with (sumZ (fun z => z) (delete b (balances t))) by lia.
    unfold balanceOf.
    destruct (balances t !! a) as [y |] eqn:Ea; simpl.
    + apply (sumZ_lookup_le (fun z => z) _ a y).
      * intros k v Hk. apply lookup_delete_Some in Hk as [_ Hk].
        apply (Hpos k v Hk).
      * rewrite lookup_delete_ne by congruence. exact Ea.
    + apply sumZ_nonneg. intros k v Hk.
      apply lookup_delete_Some in Hk as [_ Hk]. apply (Hpos k v Hk).
  - replace (sumZ (fun z => z) (balances t) - 0)
      with (totalSupply t) by (unfold totalSupply; lia).
    apply (balanceOf_le_supply vault), Hs.
Qed.

Lemma totalSupply_set t a z :
  sumZ (fun z => z) (<[a := z]> (balances t))
  = totalSupply t - balanceOf t a + z.
Proof.
  rewrite sumZ_insert. unfold totalSupply, balanceOf.
  destruct (balances t !! a); simpl; lia.
Qed.

(** What a transfer does to the balances. *)
Lemma update_spec vault t from to amount :
  sane vault t -> 0 <= amount ->
  let tr := if amount <=? balanceOf t from then amount else 0 in
  let t' := snd (_update t from to amount) in
  fst (_update t from to amount) = tr /\
  0 <= tr <= balanceOf t from /\
  sane vault t' /\
  operators t' = operators t /\
  forall a,
    balanceOf t' a =
    balanceOf t a - (if decide (a = from) then tr else 0)
    + (if decide (a = to) then tr else 0).
Proof.
  intros Hs Hamt tr t'.
  pose proof (balanceOf_nonneg vault t from Hs) as Hfrom.
  pose proof (balanceOf_nonneg vault t to Hs) as Hto.
  pose proof Hs as (Hpos & Hsup & Hop).
  assert (Htr : 0 <= tr <= balanceOf t from).
  { subst tr. destruct (amount <=? balanceOf t from) eqn:E; [| lia].
    apply Z.leb_le in E. lia. }
  assert (Hcredit :
            wrap64 (default 0 (<[from := balanceOf t from - tr]> (balances t)
                                 !! to) + tr)
            = balanceOf t to - (if decide (to = from) then tr else 0) + tr).
  { destruct (decide (to = from)) as [-> | Hne].
    - rewrite lookup_insert_eq. simpl. apply wrap64_small.
      pose proof (balanceOf_le_supply vault t from Hs).
      unfold MAX_UINT64 in Hsup. lia.
    - rewrite lookup_insert_ne by congruence.
      fold (balanceOf t to).
      pose proof (two_balances_le_supply vault t to from Hs Hne).
      unfold MAX_UINT64 in Hsup. rewrite wrap64_small; lia. }
  assert (Hbal : forall a,
             balanceOf t' a =
             balanceOf t a - (if decide (a = from) then tr else 0)
             + (if decide (a = to) then tr else 0)).
  { intros a. subst t'. unfold _update, credit, balanceOf at 1. simpl.
    fold tr. rewrite Hcredit.
    destruct (decide (a = to)) as [-> | Hne].
    - rewrite lookup_insert_eq. simpl. lia.
    - rewrite lookup_insert_ne by congruence.
      destruct (decide (a = from)) as [-> | Hne'].
      + rewrite lookup_insert_eq. simpl. lia.
      + rewrite lookup_insert_ne by congruence. fold (balanceOf t a). lia. }
  split; [reflexivity |]. split; [exact Htr |].
  split; [| split; [reflexivity | exact Hbal]].
  split; [| split].
  - intros a z Hz.
    assert (balanceOf t' a = z) as <-.
    { unfold balanceOf. rewrite Hz. reflexivity. }
    rewrite Hbal.
    pose proof (balanceOf_nonneg vault t a Hs).
    repeat case_decide; subst; lia.
  - subst t'. unfold totalSupply, _update, credit. simpl. fold tr.
    rewrite Hcredit, sumZ_insert, sumZ_insert.
    fold (totalSupply t).
    destruct (decide (to = from)) as [-> | Hne].
    + rewrite lookup_insert_eq. simpl. clear Hcredit Hbal.
      unfold balanceOf in *.
      destruct (balances t !! from); simpl in *; lia.
    + rewrite lookup_insert_ne by congruence. clear Hcredit Hbal.
      unfold balanceOf in *.
      destruct (balances t !! from), (balances t !! to); simpl in *; lia.
  - exact Hop.
Qed.

Lemma mint_spec vault t to amount :
  sane vault t -> 0 <= amount ->
  sane vault (mint t to amount) /\
  forall a, balanceOf t a <= balanceOf (mint t to amount) a.
Proof.
  intros Hs Hamt. pose proof Hs as (Hpos & Hsup & Hop).
  pose proof (balanceOf_nonneg vault t to Hs) as Hto.
  pose proof (balanceOf_le_supply vault t to Hs) as Hle.
  set (minted := if totalSupply t + amount <=? MAX_UINT64 then amount else 0).
  assert (Hm : 0 <= minted /\ totalSupply t + minted <= MAX_UINT64).
  { subst minted.
    destruct (totalSupply t + amount <=? MAX_UINT64) eqn:E; [| lia].
    apply Z.leb_le in E. lia. }
  assert (Hcredit : wrap64 (default 0 (balances t !! to) + minted)
                    = balanceOf t to + minted).
  { fold (balanceOf t to). apply wrap64_small. unfold MAX_UINT64 in *. lia. }
  assert (Hbal : forall a,
             balanceOf (mint t to amount) a =
             balanceOf t a + (if decide (a = to) then minted else 0)).
  { intros a. unfold mint, credit, balanceOf at 1. simpl. fold minted.
    rewrite Hcredit.
    destruct (decide (a = to)) as [-> | Hne].
    - rewrite lookup_insert_eq. reflexivity.
    - rewrite lookup_insert_ne by congruence. fold (balanceOf t a). lia. }
  split.
  - split; [| split].
    + intros a z Hz.
      assert (balanceOf (mint t to amount) a = z) as <-.
      { unfold balanceOf. rewrite Hz. reflexivity. }
      rewrite Hbal. pose proof (balanceOf_nonneg vault t a Hs).
      case_decide; lia.
    + unfold totalSupply, mint, credit. simpl. fold minted.
      rewrite Hcredit, totalSupply_set. lia.
    + exact Hop.
  - intros a. rewrite Hbal. case_decide; lia.
Qed.

(** What the other accounts do keeps the token sane and never lowers the
    balance of [vault]. *)
Lemma step_spec vault t t' :
  sane vault t -> step vault t t' ->
  sane vault t' /\ balanceOf t vault <= balanceOf t' vault.
Proof.
  intros Hs Hstep.
  destruct Hstep as [to amount Hamt
                    | holder operator Hh
                    | caller to amount Hc Hamt
                    | caller from to amount Hc Hop Hamt].
  - destruct (mint_spec vault t to amount Hs Hamt) as [H1 H2]. auto.
  - split; [| reflexivity].
    destruct Hs as (Hpos & Hsup & Hop). split; [exact Hpos |].
    split; [exact Hsup |].
    intros x Hx. unfold setOperator in Hx. simpl in Hx.
    apply elem_of_union in Hx as [Hx | Hx]; [| apply Hop, Hx].
    apply elem_of_singleton in Hx. injection Hx as Hx _. congruence.
  - destruct (update_spec vault t caller to amount Hs Hamt)
      as (_ & Htr & Hs' & _ & Hbal).
    split; [exact Hs' |]. rewrite Hbal.
    rewrite decide_False by congruence. case_decide; lia.
  - destruct (update_spec vault t from to amount Hs Hamt)
      as (_ & Htr & Hs' & _ & Hbal).
    split; [exact Hs' |]. rewrite Hbal.
    assert (Hne : vault <> from).
    { intros <-. unfold isOperator in Hop.
      apply orb_true_iff in Hop as [Hop | Hop];
        apply bool_decide_eq_true in Hop.
      - congruence.
      - destruct Hs as (_ & _ & Hv). apply Hv in Hop. congruence. }
    rewrite decide_False by exact Hne. case_decide; lia.
Qed.

End ERC7984Facts.

(** ** The vault and the faithful token together *)

Section RoundTrip.

Context (verifyInput : N -> N -> N -> list N -> option Z).
Context (this : N).

Local Abbreviation M := (ERC7984.model this).

Implicit Types (w : World M).

Lemma pair_of_projections {A B} (p : A * B) x y :
  fst p = x -> snd p = y -> p = (x, y).
Proof. destruct p. simpl. congruence. Qed.

Lemma transferFrom_inv (t : ERC7984.state) caller from to amount moved t' :
  confidentialTransferFrom M t caller from to amount = Some (moved, t') ->
  ERC7984._update t from to amount = (moved, t').
Proof.
  simpl. unfold ERC7984.transferFrom.
  destruct (ERC7984.isOperator t from caller); [| discriminate].
  intros H. injection H as <- <-. apply surjective_pairing.
Qed.

Lemma transfer_inv (t : ERC7984.state) caller to amount moved t' :
  confidentialTransfer M t caller to amount = Some (moved, t') ->
  ERC7984._update t caller to amount = (moved, t').
Proof.
  simpl. unfold ERC7984.transfer.
  intros H. injection H as <- <-. apply surjective_pairing.
Qed.

Lemma custody_deployed w : deployed w -> custody this w.
Proof.
  intros (m & u & s & tm & tu & Hc & Hm & Hu & ->).
  unfold constructor in Hc. destruct (_ || _); [discriminate |].
  injection Hc as <-. simpl in Hm, Hu. subst tm tu.
  intros asset. split.
  - destruct asset; apply ERC7984Facts.sane_empty.
  - destruct asset; vm_compute; discriminate.
Qed.

Lemma custody_stake sender asset v moved t w :
  sender <> this -> vault_inv this w -> custody this w ->
  confidentialTransferFrom M (tokenState asset w) this sender this (wrap64 v)
  = Some (moved, t) ->
  custody this (commit (stake_world this sender asset v moved t w)).
Proof.
  intros Hne Hinv Hcus Ht asset'.
  rewrite tokenState_commit, tokenState_stake_world.
  rewrite (staked_sum_stake M this sender asset v moved t w asset' Hinv).
  case_decide as Hd; [subst asset' | apply Hcus].
  destruct (Hcus asset) as [Hs Hc].
  apply transferFrom_inv in Ht.
  destruct (ERC7984Facts.update_spec this _ sender this (wrap64 v) Hs
              (proj1 (wrap64_range v))) as (Hfst & Htr & Hs' & _ & Hbal).
  rewrite Ht in Hfst, Hs', Hbal. simpl in Hfst, Hs', Hbal.
  split; [exact Hs' |].
  rewrite (Hbal this), decide_False, decide_True by congruence.
  pose proof (stake_le_sum M this w asset sender Hinv).
  pose proof (stake_of_range M this w sender asset Hinv).
  pose proof (ERC7984Facts.two_balances_le_supply this _ this sender Hs
                (not_eq_sym Hne)).
  destruct Hs as (_ & Hsup & _). unfold MAX_UINT64 in Hsup.
  rewrite <- Hfst in *.
  rewrite (wrap64_small moved) by lia.
  rewrite wrap64_small by lia. lia.
Qed.

Lemma custody_unstake sender asset v moved t w :
  sender <> this -> vault_inv this w -> custody this w ->
  confidentialTransfer M (tokenState asset w) this sender
    (withdrawable (stake_of w sender asset) (wrap64 v)) = Some (moved, t) ->
  moved = withdrawable (stake_of w sender asset) (wrap64 v) /\
  custody this (commit (unstake_world this sender asset v moved t w)).
Proof.
  intros Hne Hinv Hcus Ht.
  destruct (Hcus asset) as [Hs Hc].
  pose proof (stake_le_sum M this w asset sender Hinv).
  pose proof (stake_of_range M this w sender asset Hinv).
  pose proof (withdrawable_le (stake_of w sender asset) (wrap64 v)).
  assert (Hw : 0 <= withdrawable (stake_of w sender asset) (wrap64 v)).
  { unfold withdrawable. pose proof (wrap64_range v).
    destruct (_ >=? _); lia. }
  apply transfer_inv in Ht.
  destruct (ERC7984Facts.update_spec this _ this sender _ Hs Hw)
    as (Hfst & Htr & Hs' & _ & Hbal).
  rewrite Ht in Hfst, Hs', Hbal. simpl in Hfst, Hs', Hbal.
  assert (Hm : moved = withdrawable (stake_of w sender asset) (wrap64 v)).
  { rewrite Hfst.
    destruct (_ <=? _) eqn:E; [reflexivity |].
    apply Z.leb_gt in E. lia. }
  split; [exact Hm |]. intros asset'.
  rewrite tokenState_commit, tokenState_unstake_world.
  rewrite (staked_sum_unstake M this sender asset v moved t w asset' Hinv).
  case_decide as Hd; [subst asset' | apply Hcus].
  split; [exact Hs' |].
  rewrite (Hbal this), decide_True, decide_False by congruence.
  rewrite <- Hfst, Hm. lia.
Qed.

Lemma custody_next w st :
  vault_inv this w -> enabled this st w -> custody this w ->
  custody this (next verifyInput this st w).
Proof.
  intros Hinv Hen Hcus.
  destruct (classic_tx M st) as [[tx ->] | Hst].
  - simpl in Hen. simpl.
    destruct (execute_cases M verifyInput this tx w Hinv)
      as [[e ->]
         | [(sender & asset & e & p & v & moved & t & -> & _ & _ & Ht & ->)
           | (sender & asset & e & p & v & moved & t & -> & _ & Ht & ->)]];
      cbn [snd].
    + exact Hcus.
    + apply custody_stake; assumption.
    + apply custody_unstake; assumption.
  - destruct (environment_keeps_cleartexts M verifyInput this w st Hst)
      as [Hv Hc].
    intros asset'.
    rewrite (staked_sum_same M this w _ asset' Hinv Hv Hc).
    destruct st as [tx | asset t | who v | who h0 to]; simpl.
    + destruct (Hst tx). reflexivity.
    + rewrite tokenState_set_tokenState.
      case_decide as Hd; [subst asset' | apply Hcus].
      destruct (Hcus asset) as [Hs Hle]. simpl in Hen.
      destruct (ERC7984Facts.step_spec this _ _ Hs Hen) as [Hs' Hmono].
      split; [exact Hs' | lia].
    + apply Hcus.
    + apply Hcus.
Qed.

Lemma reachable_custody w : reachable verifyInput this w -> custody this w.
Proof.
  induction 1 as [w Hd | w st Hr IH Hen _].
  - apply custody_deployed, Hd.
  - apply custody_next; [| exact Hen | exact IH].
    apply (reachable_inv M verifyInput this _ w Hr).
Qed.

(** C6: with a token that moves exactly the requested amounts, a [stake]
    of [a] by an account that holds at least [a] and has approved the
    vault, followed by an [unstake] of [a], brings the stake of the
    account and its wallet balance back to what they were.  The account is
    not the vault itself, which never calls its own functions. *)
Theorem stake_unstake_round_trip w sender asset e1 p1 e2 p2 a :
  reachable verifyInput this w ->
  sender <> this ->
  isOperator M (tokenState asset w) sender this = true ->
  verifyInput this sender e1 p1 = Some a ->
  verifyInput this sender e2 p2 = Some a ->
  0 <= a <= ERC7984.balanceOf (tokenState asset w) sender ->
  let w1 := snd (execute verifyInput this (TxStake sender asset e1 p1) w) in
  let w2 := snd (execute verifyInput this (TxUnstake sender asset e2 p2) w1) in
  fst (execute verifyInput this (TxStake sender asset e1 p1) w) = None /\
  fst (execute verifyInput this (TxUnstake sender asset e2 p2) w1) = None /\
  stake_of w1 sender asset = stake_of w sender asset + a /\
  ERC7984.balanceOf (tokenState asset w1) sender
  = ERC7984.balanceOf (tokenState asset w) sender - a /\
  stake_of w2 sender asset = stake_of w sender asset /\
  ERC7984.balanceOf (tokenState asset w2) sender
  = ERC7984.balanceOf (tokenState asset w) sender.
Proof.
  intros Hr Hne Hop Hv1 Hv2 Ha.
  pose proof (reachable_inv M verifyInput this _ w Hr) as Hinv.
  pose proof (reachable_custody w Hr) as Hcus.
  destruct (Hcus asset) as [Hs Hc].
  pose proof (stake_le_sum M this w asset sender Hinv) as Hle.
  pose proof (stake_of_range M this w sender asset Hinv) as Hrg.
  pose proof (ERC7984Facts.two_balances_le_supply this _ this sender Hs
                (not_eq_sym Hne)) as Htwo.
  pose proof Hs as (_ & Hsup & _). unfold MAX_UINT64 in Hsup.
  pose proof (ERC7984Facts.balanceOf_nonneg this _ this Hs) as Hvb.
  assert (Hwa : wrap64 a = a) by (apply wrap64_small; lia).
  (* the deposit *)
  destruct (ERC7984Facts.update_spec this (tokenState asset w) sender this a
              Hs (proj1 Ha)) as (Hfst & _ & Hs1 & _ & Hbal1).
  rewrite (proj2 (Z.leb_le _ _) (proj2 Ha)) in Hfst, Hbal1.
  set (t1 := snd (ERC7984._update (tokenState asset w) sender this a)) in *.
  assert (Ht1 : confidentialTransferFrom M (tokenState asset w) this sender
                  this (wrap64 a) = Some (a, t1)).
  { rewrite Hwa. simpl. unfold ERC7984.transferFrom.
    simpl in Hop. rewrite Hop. f_equal.
    apply pair_of_projections; [exact Hfst | reflexivity]. }
  pose proof (execute_stake M verifyInput this sender asset e1 p1 a a t1 w
                Hinv Hop Hv1 Ht1) as Hex1.
  rewrite Hex1. cbn [fst snd].
  set (w1 := commit (stake_world (T := M) this sender asset a a t1 w)).
  assert (Hinv1 : vault_inv this w1).
  { pose proof (vault_inv_execute M verifyInput this w
                  (TxStake sender asset e1 p1) Hinv) as H.
    rewrite Hex1 in H. exact H. }
  assert (Hst1 : stake_of w1 sender asset = stake_of w sender asset + a).
  { subst w1.
    rewrite (stake_of_stake M this sender asset a a t1 w sender asset Hinv).
    rewrite decide_True by auto. rewrite Hwa. apply wrap64_small. lia. }
  assert (Htok1 : tokenState asset w1 = t1).
  { subst w1. rewrite tokenState_commit, tokenState_stake_world.
    rewrite decide_True by reflexivity. reflexivity. }
  (* the withdrawal *)
  assert (Hw : withdrawable (stake_of w1 sender asset) (wrap64 a) = a).
  { unfold withdrawable. rewrite Hwa, Hst1.
    rewrite (proj2 (Z.geb_le _ _)) by lia. reflexivity. }
  destruct (ERC7984Facts.update_spec this t1 this sender a Hs1 (proj1 Ha))
    as (Hfst2 & _ & _ & _ & Hbal2).
  assert (Hcover : (a <=? ERC7984.balanceOf t1 this) = true).
  { apply Z.leb_le. rewrite (Hbal1 this).
    rewrite decide_False, decide_True by congruence. lia. }
  rewrite Hcover in Hfst2, Hbal2.
  set (t2 := snd (ERC7984._update t1 this sender a)) in *.
  assert (Ht2 : confidentialTransfer M (tokenState asset w1) this sender
                  (withdrawable (stake_of w1 sender asset) (wrap64 a))
                = Some (a, t2)).
  { rewrite Hw, Htok1. simpl. unfold ERC7984.transfer. f_equal.
    apply pair_of_projections; [exact Hfst2 | reflexivity]. }
  pose proof (execute_unstake M verifyInput this sender asset e2 p2 a a t2 w1
                Hinv1 Hv2 Ht2) as Hex2.
  rewrite Hex2. cbn [fst snd].
  rewrite (stake_of_unstake M this sender asset a a t2 w1 sender asset Hinv1).
  rewrite decide_True by auto.
  rewrite tokenState_commit, tokenState_unstake_world.
  rewrite decide_True by reflexivity.
  rewrite Htok1, Hst1, Hwa.
  rewrite (proj2 (Z.geb_le _ _)) by lia.
  rewrite (Hbal2 sender), (Hbal1 sender).
  rewrite !decide_True by reflexivity.
  rewrite !decide_False by congruence.
  repeat split; lia.
Qed.

End RoundTrip.

(** ** The scenario, run *)

(** ** The ledger as a whole *)

Lemma list_ind2 {A} (P : list A -> Prop) :
  P [] -> (forall a, P [a]) -> (forall a b l, P l -> P (a :: b :: l)) ->
  forall l, P l.
Proof.
  intros H0 H1 H2.
  cut (forall l, P l /\ forall a, P (a :: l)).
  { intros H l. apply H. }
  induction l as [| b l [IH1 IH2]]; split; auto.
Qed.

Lemma paired_app this s l1 l2 :
  paired this s l1 = true -> paired this s l2 = true ->
  paired this s (l1 ++ l2) = true.
Proof.
  intros H1 H2. revert H1.
  induction l1 as [| c | c e l IH] using list_ind2; intros H1.
  - exact H2.
  - destruct c; discriminate.
  - destruct c, e; try discriminate; simpl in *;
      apply andb_prop in H1 as [Ha Hb];
      rewrite Ha, (IH Hb); reflexivity.
Qed.

Lemma paired_tokens this s s' l :
  (forall asset, _getToken asset s' = _getToken asset s) ->
  paired this s' l = paired this s l.
Proof.
  intros Hs.
  induction l as [| c | c e l IH] using list_ind2.
  - reflexivity.
  - reflexivity.
  - destruct c, e; try reflexivity; simpl; rewrite IH, Hs; reflexivity.
Qed.

Lemma touched_app a asset l1 l2 :
  touched a asset (l1 ++ l2) = touched a asset l1 || touched a asset l2.
Proof. apply existsb_app. Qed.

(** A [bigint] below 2^53 is a double. *)
Lemma Number_of_bigint_small n :
  0 <= n < 2 ^ 53 -> Number_of_bigint n = n.
Proof.
  intros [H0 H1]. unfold Number_of_bigint.
  assert (Hlog : Z.log2 n <= 52).
  { destruct (Z.eq_dec n 0) as [-> | Hn]; [discriminate |].
    assert (Z.log2 n < 53); [| lia].
    apply Z.log2_lt_pow2; lia. }
  destruct (Z.log2 n - 52 <=? 0) eqn:E; [reflexivity |].
  apply Z.leb_gt in E. lia.
Qed.

(** Beyond 53 bits the nearest double is read, ties going to the even
    neighbour, as JavaScript does. *)
Example Number_of_bigint_rounds :
  Number_of_bigint (2 ^ 53 + 1) = 2 ^ 53 /\
  Number_of_bigint (2 ^ 53 + 3) = 2 ^ 53 + 4 /\
  Number_of_bigint (2 ^ 64 - 1) = 2 ^ 64.
Proof. repeat split. Qed.

Lemma stake_fhevm_grants this token sender s0 t0 v moved f h a :
  (h, a) ∈ acl_persistent (stake_fhevm this token sender s0 t0 v moved f) ->
  (h, a) ∈ acl_persistent f \/
  ((counter f < h)%N /\ (a = this \/ a = sender \/ a = token)).
Proof.
  unfold stake_fhevm, fresh. cbn [Nat.iter].
  autorewrite with fhevm.
  rewrite !elem_of_union, !elem_of_singleton.
  intros H.
  repeat destruct H as [H | H];
    first [ left; exact H | right; injection H as -> ->; split; [lia | tauto] ].
Qed.

Lemma unstake_fhevm_grants this token sender s0 t0 v moved f h a :
  (h, a) ∈ acl_persistent (unstake_fhevm this token sender s0 t0 v moved f) ->
  (h, a) ∈ acl_persistent f \/
  ((counter f < h)%N /\ (a = this \/ a = sender \/ a = token)).
Proof.
  unfold unstake_fhevm, fresh. cbn [Nat.iter].
  autorewrite with fhevm.
  rewrite !elem_of_union, !elem_of_singleton.
  intros H.
  repeat destruct H as [H | H];
    first [ left; exact H | right; injection H as -> ->; split; [lia | tauto] ].
Qed.

Section Ledger.

Context (T : IERC7984).
Context (verifyInput :
           address -> address -> externalEuint64 -> bytes -> option Z).
Context (this : address).
Implicit Types (w : World T) (f : FHEVM).

Lemma getToken_next w st asset :
  vault_inv this w ->
  _getToken asset (vault (next verifyInput this st w))
  = _getToken asset (vault w).
Proof.
  intros Hinv. destruct st as [tx | a t | who v | who h to]; simpl.
  - destruct (execute_cases T verifyInput this tx w Hinv)
      as [[e ->]
         | [(sender & a & e & p & v & moved & t & _ & _ & _ & _ & ->)
           | (sender & a & e & p & v & moved & t & _ & _ & _ & ->)]];
      cbn [snd].
    + reflexivity.
    + rewrite vault_commit, vault_stake_world, getToken_set_total,
        getToken_set_stake. reflexivity.
    + rewrite vault_commit, vault_unstake_world, getToken_set_total,
        getToken_set_stake. reflexivity.
  - rewrite vault_set_tokenState. reflexivity.
  - reflexivity.
  - reflexivity.
Qed.

(** X1: the two token addresses are those the constructor accepted: they
    are not the zero address and no later step changes them, so the vault
    never calls any other contract. *)
Theorem token_addresses_are_fixed w w' asset :
  reachable verifyInput this w -> evolves verifyInput this w w' ->
  _getToken asset (vault w) <> 0%N /\
  _getToken asset (vault w') = _getToken asset (vault w).
Proof.
  intros Hr Hev. split.
  - clear Hev. induction Hr as [w Hd | w st Hr IH Hen _].
    + destruct Hd as (m & u & s & tm & tu & Hc & _ & _ & ->).
      unfold constructor in Hc.
      destruct (m =? 0)%N eqn:Em; [discriminate |].
      destruct (u =? 0)%N eqn:Eu; [discriminate |].
      injection Hc as <-.
      apply N.eqb_neq in Em, Eu.
      destruct asset; assumption.
    + rewrite getToken_next; [exact IH |].
      apply (reachable_inv T verifyInput this _ w Hr).
  - induction Hev as [| w' st Hev IH Hen].
    + reflexivity.
    + rewrite getToken_next; [exact IH |].
      apply (reachable_inv T verifyInput this (fun _ _ => True) w').
      apply (reachable_evolves T verifyInput this w w' Hr Hev).
Qed.

(** X2: the log of a reachable vault is a sequence of pairs: a pull from
    the staker into the vault followed by [Staked] for that staker, or a
    transfer to the unstaker followed by [Unstaked] for that unstaker; the
    call goes to the token of the asset the event names, and the event
    carries the handle that the token returned. *)
Theorem calls_and_events_pair_up w :
  reachable verifyInput this w -> paired this (vault w) (log w) = true.
Proof.
  induction 1 as [w Hd | w st Hr IH Hen _].
  - destruct Hd as (m & u & s & tm & tu & _ & _ & _ & ->). reflexivity.
  - pose proof (reachable_inv T verifyInput this _ w Hr) as Hinv.
    rewrite (paired_tokens this (vault w))
      by (intros a; apply getToken_next, Hinv).
    destruct st as [tx | a t | who v | who h to]; simpl.
    + destruct (execute_cases T verifyInput this tx w Hinv)
        as [[e ->]
           | [(sender & a & e & p & v & moved & t & _ & _ & _ & _ & ->)
             | (sender & a & e & p & v & moved & t & _ & _ & _ & ->)]];
        cbn [snd].
      * exact IH.
      * rewrite log_commit, log_stake_world.
        apply paired_app; [exact IH |].
        simpl. rewrite bool_decide_eq_true_2; [reflexivity | tauto].
      * rewrite log_commit, log_unstake_world.
        apply paired_app; [exact IH |].
        simpl. rewrite bool_decide_eq_true_2; [reflexivity | tauto].
    + rewrite log_set_tokenState. exact IH.
    + exact IH.
    + exact IH.
Qed.

(** X3: in a reachable world the stake slot of an account holds the zero
    handle exactly as long as the account has no committed [stake] or
    [unstake] on that asset; from the first such call on, also from an
    [unstake] that released nothing, the slot holds a ciphertext. *)
Theorem stake_slot_is_empty_until_used w a asset :
  reachable verifyInput this w ->
  getEncryptedStake a asset (vault w) = 0%N <->
  touched a asset (log w) = false.
Proof.
  unfold getEncryptedStake.
  induction 1 as [w Hd | w st Hr IH Hen _].
  - destruct Hd as (m & u & s & tm & tu & Hc & _ & _ & ->).
    unfold constructor in Hc. destruct (_ || _); [discriminate |].
    injection Hc as <-. destruct asset; split; reflexivity.
  - pose proof (reachable_inv T verifyInput this _ w Hr) as Hinv.
    destruct st as [tx | a' t | who v | who h to]; simpl.
    + destruct (execute_cases T verifyInput this tx w Hinv)
        as [[e ->]
           | [(sender & a' & e & p & v & moved & t & _ & _ & _ & _ & ->)
             | (sender & a' & e & p & v & moved & t & _ & _ & _ & ->)]];
        cbn [snd].
      * exact IH.
      * rewrite vault_commit, vault_stake_world, log_commit,
          log_stake_world, getStake_set_total, getStake_set_stake,
          touched_app.
        simpl. rewrite orb_false_r.
        case_decide as Hd.
        -- destruct Hd as [-> ->].
           rewrite bool_decide_eq_true_2 by tauto. rewrite orb_true_r.
           split; [intros E; lia | discriminate].
        -- rewrite bool_decide_eq_false_2 by (intros [? ?]; subst; tauto).
           rewrite orb_false_r. exact IH.
      * rewrite vault_commit, vault_unstake_world, log_commit,
          log_unstake_world, getStake_set_total, getStake_set_stake,
          touched_app.
        simpl. rewrite orb_false_r.
        case_decide as Hd.
        -- destruct Hd as [-> ->].
           rewrite bool_decide_eq_true_2 by tauto. rewrite orb_true_r.
           split; [intros E; lia | discriminate].
        -- rewrite bool_decide_eq_false_2 by (intros [? ?]; subst; tauto).
           rewrite orb_false_r. exact IH.
    + rewrite vault_set_tokenState, log_set_tokenState. exact IH.
    + exact IH.
    + exact IH.
Qed.

(** X4: the checks of [stake] in the order the code makes them: a caller
    who has not approved the vault gets [NebulaVaultOperatorMissing]
    whatever the proof is; then an input that does not validate gives
    [InvalidProof]; then the call fails only if the token's transfer
    reverts.  Nothing else makes a [stake] fail in a reachable world: the
    vault is never refused a ciphertext it needs. *)
Theorem stake_fails_for_three_reasons_only w sender asset e p :
  reachable verifyInput this w ->
  fst (execute verifyInput this (TxStake sender asset e p) w) =
  if isOperator T (tokenState asset w) sender this then
    match verifyInput this sender e p with
    | None => Some InvalidProof
    | Some v =>
        match confidentialTransferFrom T (tokenState asset w) this sender
                this (wrap64 v) with
        | None => Some (TokenReverted (_getToken asset (vault w)))
        | Some _ => None
        end
    end
  else Some NebulaVaultOperatorMissing.
Proof.
  intros Hr.
  pose proof (reachable_inv T verifyInput this _ w Hr) as Hinv.
  destruct (isOperator T (tokenState asset w) sender this) eqn:Hop.
  - destruct (verifyInput this sender e p) as [v |] eqn:Hv.
    + destruct (confidentialTransferFrom T (tokenState asset w) this sender
                  this (wrap64 v)) as [[moved t] |] eqn:Ht.
      * rewrite (execute_stake T verifyInput this sender asset e p v moved
                   t w Hinv Hop Hv Ht).
        reflexivity.
      * unfold execute, call.
        rewrite (stake_token_reverts T verifyInput this w sender asset e p
                   v Hop Hv Ht).
        reflexivity.
    + unfold execute, call.
      rewrite (stake_invalid_proof T verifyInput this w sender asset e p
                 Hop Hv).
      reflexivity.
  - unfold execute, call.
    rewrite (stake_not_operator T verifyInput this w sender asset e p Hop).
    reflexivity.
Qed.

(** X5: a committed [unstake] asks the token to send the caller no more
    than the caller's stake, and takes off the stake exactly the amount it
    asked the token to send. *)
Theorem unstake_pays_at_most_the_stake w sender asset e p :
  reachable verifyInput this w ->
  let tx := TxUnstake sender asset e p in
  let w' := snd (execute verifyInput this tx w) in
  fst (execute verifyInput this tx w) = None ->
  exists token amount sent,
    effects verifyInput this tx w =
    [Call_confidentialTransfer token sender amount sent;
     Unstaked sender asset sent] /\
    0 <= cleartext (fhevm w') amount <= stake_of w sender asset /\
    stake_of w' sender asset
    = stake_of w sender asset - cleartext (fhevm w') amount.
Proof.
  intros Hr tx w' Hc. subst tx w'.
  pose proof (reachable_inv T verifyInput this _ w Hr) as Hinv.
  pose proof (stake_of_range T this w sender asset Hinv) as Hs.
  destruct (execute_cases T verifyInput this (TxUnstake sender asset e p) w
              Hinv)
    as [[err He]
       | [(s' & a' & e' & p' & v & moved & t & Heq & _)
         | (s' & a' & e' & p' & v & moved & t & Heq & Hv & Ht & Hex)]].
  - rewrite He in Hc. discriminate.
  - discriminate.
  - injection Heq as <- <- <- <-.
    rewrite (effects_unstake T verifyInput this _ _ _ _ _ _ _ _ Hex).
    rewrite Hex. cbn [snd].
    eexists _, _, _. split; [reflexivity |].
    rewrite (stake_of_unstake T this sender asset v moved t w sender asset
               Hinv).
    rewrite decide_True by auto.
    rewrite fhevm_commit, fhevm_unstake_world, !cleartext_clear_transient.
    rewrite cleartext_unstake_amount.
    pose proof (wrap64_range v) as Hv64.
    unfold withdrawable.
    destruct (stake_of w sender asset >=? wrap64 v) eqn:E.
    + rewrite Z.geb_leb in E. apply Z.leb_le in E. lia.
    + lia.
Qed.

(** X6: an [unstake] credits nothing: whatever amount is asked for and
    whatever the token reports as sent, no stake and no total decrypts to
    more after the call than before. *)
Theorem unstake_never_credits w sender asset e p a asset' :
  reachable verifyInput this w ->
  let w' := snd (execute verifyInput this (TxUnstake sender asset e p) w) in
  stake_of w' a asset' <= stake_of w a asset' /\
  total_staked w' asset' <= total_staked w asset'.
Proof.
  intros Hr w'. subst w'.
  pose proof (reachable_inv T verifyInput this _ w Hr) as Hinv.
  destruct (execute_cases T verifyInput this (TxUnstake sender asset e p) w
              Hinv)
    as [[err ->]
       | [(s' & a' & e' & p' & v & moved & t & Heq & _)
         | (s' & a' & e' & p' & v & moved & t & Heq & _ & _ & ->)]];
    cbn [snd].
  - lia.
  - discriminate.
  - injection Heq as <- <- <- <-.
    rewrite (stake_of_unstake T this sender asset v moved t w a asset' Hinv).
    rewrite (total_staked_unstake T this sender asset v moved t w asset'
               Hinv).
    pose proof (wrap64_range v). pose proof (wrap64_range moved).
    split.
    + case_decide as Hd; [destruct Hd as [-> ->] | lia].
      destruct (_ >=? _); lia.
    + case_decide as Hd; [subst asset' | lia].
      destruct (_ >=? _); lia.
Qed.

(** X8: in every reachable world an account can decrypt its own stake
    through the vault, as the tests do with [decryptBalance]: the relayer
    is never asked for a handle the account or the vault has no grant on.
    A slot that was never written reads 0, and the number read is the
    stake itself as long as the stake is below 2^53. *)
Theorem owner_can_decrypt_stake w a asset :
  reachable verifyInput this w ->
  let read :=
    decryptBalance (fhevm w) this (getEncryptedStake a asset (vault w)) a in
  read = Some (Number_of_bigint (stake_of w a asset)) /\
  (getEncryptedStake a asset (vault w) = 0%N -> read = Some 0) /\
  (stake_of w a asset < 2 ^ 53 -> read = Some (stake_of w a asset)).
Proof.
  intros Hr read.
  pose proof (reachable_inv T verifyInput this _ w Hr) as Hinv.
  assert (Hread : read = Some (Number_of_bigint (stake_of w a asset))).
  { subst read. unfold decryptBalance, stake_of.
    case_decide as Hz.
    - rewrite Hz. reflexivity.
    - destruct Hinv as (_ & _ & _ & Hg & _).
      destruct (Hg asset a Hz) as [Hthis Ha].
      unfold userDecryptEuint, getEncryptedStake.
      rewrite !bool_decide_eq_true_2 by assumption. reflexivity. }
  split; [exact Hread |]. split.
  - intros Hun. subst read. rewrite Hun. reflexivity.
  - intros Hlt. rewrite Hread. f_equal.
    apply Number_of_bigint_small.
    pose proof (stake_of_range T this w a asset Hinv). lia.
Qed.


End Ledger.

(** ** Solvency with faithful tokens *)

Section Solvency.

Context (verifyInput : N -> N -> N -> list N -> option Z).
Context (this : N).

Local Abbreviation M := (ERC7984.model this).

Implicit Types (w : World M).

Lemma total_is_sum_next w st :
  vault_inv this w -> custody this w -> enabled this st w ->
  (forall asset, total_staked w asset = staked_sum w asset) ->
  forall asset,
    total_staked (next verifyInput this st w) asset
    = staked_sum (next verifyInput this st w) asset.
Proof.
  intros Hinv Hcus Hen IH asset'.
  destruct (classic_tx M st) as [[tx ->] | Hst].
  - simpl in Hen. simpl.
    destruct (execute_cases M verifyInput this tx w Hinv)
      as [[e ->]
         | [(sender & asset & e & p & v & moved & t & -> & _ & _ & Ht & ->)
           | (sender & asset & e & p & v & moved & t & -> & _ & Ht & ->)]];
      cbn [snd].
    + apply IH.
    + simpl in Hen.
      rewrite (total_staked_stake M this sender asset v moved t w asset'
                 Hinv).
      rewrite (staked_sum_stake M this sender asset v moved t w asset' Hinv).
      case_decide as Hd; [subst asset' | apply IH].
      destruct (Hcus asset) as [Hs Hc].
      apply transferFrom_inv in Ht.
      destruct (ERC7984Facts.update_spec this _ sender this (wrap64 v) Hs
                  (proj1 (wrap64_range v))) as (Hfst & Htr & _).
      rewrite Ht in Hfst. simpl in Hfst.
      pose proof (stake_le_sum M this w asset sender Hinv).
      pose proof (stake_of_range M this w sender asset Hinv).
      pose proof (ERC7984Facts.two_balances_le_supply this _ this sender Hs
                    (not_eq_sym Hen)).
      destruct Hs as (_ & Hsup & _). unfold MAX_UINT64 in Hsup.
      rewrite <- Hfst in *. rewrite (IH asset).
      rewrite (wrap64_small moved) by lia.
      rewrite (wrap64_small (staked_sum w asset + moved)) by lia.
      rewrite (wrap64_small (stake_of w sender asset + moved)) by lia.
      lia.
    + simpl in Hen.
      destruct (custody_unstake this sender asset v moved t w
                  Hen Hinv Hcus Ht) as [Hm _].
      rewrite (total_staked_unstake M this sender asset v moved t w asset'
                 Hinv).
      rewrite (staked_sum_unstake M this sender asset v moved t w asset'
                 Hinv).
      case_decide as Hd; [subst asset' | apply IH].
      pose proof (stake_le_sum M this w asset sender Hinv).
      pose proof (stake_of_range M this w sender asset Hinv).
      pose proof (withdrawable_le (stake_of w sender asset) (wrap64 v)).
      rewrite Hm, wrap64_withdrawable, (IH asset).
      destruct (staked_sum w asset
                >=? withdrawable (stake_of w sender asset) (wrap64 v))
        eqn:E; [lia |].
      rewrite Z.geb_leb in E. apply Z.leb_gt in E. lia.
  - destruct (environment_keeps_cleartexts M verifyInput this w st Hst)
      as [Hv Hc].
    rewrite (total_staked_same M this w _ asset' Hinv Hv Hc).
    rewrite (staked_sum_same M this w _ asset' Hinv Hv Hc).
    apply IH.
Qed.

(** X9: with two tokens that move exactly what they are asked to move,
    whatever the accounts do with the tokens and with the vault, the total
    of an asset decrypts to the sum of all stakes in it, and the vault
    holds at least that many tokens: every stake can be paid out. *)
Theorem vault_is_solvent w asset :
  reachable verifyInput this w ->
  total_staked w asset = staked_sum w asset /\
  staked_sum w asset <= ERC7984.balanceOf (tokenState asset w) this.
Proof.
  intros Hr. split; [| apply (reachable_custody verifyInput this w Hr)].
  revert asset.
  induction Hr as [w Hd | w st Hr IH Hen _].
  - destruct Hd as (m & u & s & tm & tu & Hc & _ & _ & ->).
    unfold constructor in Hc. destruct (_ || _); [discriminate |].
    injection Hc as <-. intros asset.
    unfold total_staked, staked_sum. destruct asset; reflexivity.
  - apply total_is_sum_next; [| | exact Hen | exact IH].
    + apply (reachable_inv M verifyInput this _ w Hr).
    + apply (reachable_custody verifyInput this w Hr).
Qed.

End Solvency.

(** ** The command-line tasks *)

Module TasksFacts.

Import Stdlib.Strings.String Stdlib.Strings.Ascii.
Import Tasks.
Local Open Scope string_scope.

(** The only characters that [lower] sends to a lower-case letter are the
    letter itself and its capital. *)
Ltac lower_cases c H :=
  destruct c as [[|] [|] [|] [|] [|] [|] [|] [|]];
  vm_compute in H;
  first [ discriminate H | left; reflexivity | right; reflexivity ].

Lemma lower_m c : lower c = "m"%char -> c = "m"%char \/ c = "M"%char.
Proof. intros H. lower_cases c H. Qed.

Lemma lower_e c : lower c = "e"%char -> c = "e"%char \/ c = "E"%char.
Proof. intros H. lower_cases c H. Qed.

Lemma lower_t c : lower c = "t"%char -> c = "t"%char \/ c = "T"%char.
Proof. intros H. lower_cases c H. Qed.

Lemma lower_h c : lower c = "h"%char -> c = "h"%char \/ c = "H"%char.
Proof. intros H. lower_cases c H. Qed.

Lemma lower_u c : lower c = "u"%char -> c = "u"%char \/ c = "U"%char.
Proof. intros H. lower_cases c H. Qed.

Lemma lower_s c : lower c = "s"%char -> c = "s"%char \/ c = "S"%char.
Proof. intros H. lower_cases c H. Qed.

Lemma lower_d c : lower c = "d"%char -> c = "d"%char \/ c = "D"%char.
Proof. intros H. lower_cases c H. Qed.

Lemma toLowerCase_meth s :
  toLowerCase s = "meth" ->
  exists c1 c2 c3 c4,
    s = String c1 (String c2 (String c3 (String c4 EmptyString))) /\
    lower c1 = "m"%char /\ lower c2 = "e"%char /\
    lower c3 = "t"%char /\ lower c4 = "h"%char.
Proof.
  intros H.
  destruct s as [| c1 [| c2 [| c3 [| c4 [| c5 s]]]]]; try discriminate H.
  simpl in H. injection H as H1 H2 H3 H4.
  exists c1, c2, c3, c4. repeat split; assumption.
Qed.

Lemma toLowerCase_musdt s :
  toLowerCase s = "musdt" ->
  exists c1 c2 c3 c4 c5,
    s = String c1 (String c2 (String c3 (String c4
          (String c5 EmptyString)))) /\
    lower c1 = "m"%char /\ lower c2 = "u"%char /\ lower c3 = "s"%char /\
    lower c4 = "d"%char /\ lower c5 = "t"%char.
Proof.
  intros H.
  destruct s as [| c1 [| c2 [| c3 [| c4 [| c5 [| c6 s]]]]]];
    try discriminate H.
  simpl in H. injection H as H1 H2 H3 H4 H5.
  exists c1, c2, c3, c4, c5. repeat split; assumption.
Qed.

(** X10: the spellings [parseAsset] accepts: [meth] and [musdt] with each
    letter in either case, and nothing else (no blank around the name, no
    longer or shorter word); every other argument is answered with the
    error. *)
Theorem parseAsset_accepts_the_two_names_in_any_case s :
  (parseAsset s = inr METH <->
   exists c1 c2 c3 c4,
     s = String c1 (String c2 (String c3 (String c4 EmptyString))) /\
     (c1 = "m" \/ c1 = "M")%char /\ (c2 = "e" \/ c2 = "E")%char /\
     (c3 = "t" \/ c3 = "T")%char /\ (c4 = "h" \/ c4 = "H")%char) /\
  (parseAsset s = inr MUSDT <->
   exists c1 c2 c3 c4 c5,
     s = String c1 (String c2 (String c3 (String c4
           (String c5 EmptyString)))) /\
     (c1 = "m" \/ c1 = "M")%char /\ (c2 = "u" \/ c2 = "U")%char /\
     (c3 = "s" \/ c3 = "S")%char /\ (c4 = "d" \/ c4 = "D")%char /\
     (c5 = "t" \/ c5 = "T")%char) /\
  ((forall flag, parseAsset s <> inr flag) ->
   parseAsset s = inl "asset must be either meth or musdt").
Proof.
  split; [| split].
  - split.
    + unfold parseAsset. intros H.
      destruct (toLowerCase s =? "meth") eqn:E.
      * apply String.eqb_eq in E.
        destruct (toLowerCase_meth s E)
          as (c1 & c2 & c3 & c4 & -> & H1 & H2 & H3 & H4).
        exists c1, c2, c3, c4.
        split; [reflexivity |].
        auto using lower_m, lower_e, lower_t, lower_h.
      * destruct (toLowerCase s =? "musdt"); discriminate H.
    + intros (c1 & c2 & c3 & c4 & -> & H1 & H2 & H3 & H4).
      destruct H1 as [-> | ->], H2 as [-> | ->], H3 as [-> | ->],
        H4 as [-> | ->]; reflexivity.
  - split.
    + unfold parseAsset. intros H.
      destruct (toLowerCase s =? "meth") eqn:E; [discriminate H |].
      destruct (toLowerCase s =? "musdt") eqn:E'; [| discriminate H].
      apply String.eqb_eq in E'.
      destruct (toLowerCase_musdt s E')
        as (c1 & c2 & c3 & c4 & c5 & -> & H1 & H2 & H3 & H4 & H5).
      exists c1, c2, c3, c4, c5.
      split; [reflexivity |].
      auto 10 using lower_m, lower_u, lower_s, lower_d, lower_t.
    + intros (c1 & c2 & c3 & c4 & c5 & -> & H1 & H2 & H3 & H4 & H5).
      destruct H1 as [-> | ->], H2 as [-> | ->], H3 as [-> | ->],
        H4 as [-> | ->], H5 as [-> | ->]; reflexivity.
  - intros Hno. unfold parseAsset in *.
    destruct (toLowerCase s =? "meth"); [destruct (Hno METH); reflexivity |].
    destruct (toLowerCase s =? "musdt");
      [destruct (Hno MUSDT); reflexivity | reflexivity].
Qed.

End TasksFacts.

(** ** The dashboard *)

Module VaultAppFacts.

Import Stdlib.Strings.String.
Import VaultApp.
Local Open Scope string_scope.

Lemma bind_resolved {A B} (m : Async A) (k : A -> Async B) p a p' :
  m p = (inr a, p') -> (m ≫= k) p = k a p'.
Proof. intros H. unfold mbind, Async_bind. rewrite H. reflexivity. Qed.

Lemma bind_rejected {A B} (m : Async A) (k : A -> Async B) p e p' :
  m p = (inl e, p') -> (m ≫= k) p = (inl e, p').
Proof. intros H. unfold mbind, Async_bind. rewrite H. reflexivity. Qed.

(** X12: [withStatus] never throws and always gives the pending flag back,
    whatever the action does.  When the action completes, the message left
    on the page is the general one: a message the action has written
    itself is replaced.  When the action throws, the message is the one of
    the error.  The rest of the page is as the action left it. *)
Theorem withStatus_always_settles actionKey action p :
  let started :=
    mkPage (forms p) (Some actionKey) EmptyString (decryptedValues p)
      (decryptingKey p) (requests p) in
  let settled := snd (withStatus actionKey action p) in
  fst (withStatus actionKey action p) = inr tt /\
  pendingAction settled = None /\
  statusMessage settled =
  match fst (action started) with
  | inr _ => "Request submitted to the network. Waiting for confirmation..."
  | inl (ErrorObject message) => message
  | inl OtherValue => "Action failed"
  end /\
  forms settled = forms (snd (action started)) /\
  decryptedValues settled = decryptedValues (snd (action started)) /\
  decryptingKey settled = decryptingKey (snd (action started)) /\
  requests settled = requests (snd (action started)).
Proof.
  intros started settled. subst settled.
  unfold withStatus, try_finally, try_catch.
  unfold mbind, Async_bind. cbn. fold started.
  destruct (action started) as [[[message |] | []] p'];
    cbn; repeat split; reflexivity.
Qed.

#[local] Arguments addressesReady : simpl never.
#[local] Arguments TOKEN_CONFIG : simpl never.
#[local] Arguments String.eqb : simpl never.
#[local] Arguments String.append : simpl never.

Lemma ready_addresses env :
  addressesReady env = true ->
  (ca_meth (CONTRACT_ADDRESSES env) =? ZERO_ADDRESS) = false /\
  (ca_musdt (CONTRACT_ADDRESSES env) =? ZERO_ADDRESS) = false /\
  (ca_vault (CONTRACT_ADDRESSES env) =? ZERO_ADDRESS) = false.
Proof.
  unfold addressesReady, Object_values. cbn [forallb].
  rewrite !andb_true_iff, !negb_true_iff. tauto.
Qed.

Lemma ready_token env token :
  addressesReady env = true ->
  (address (TOKEN_CONFIG (CONTRACT_ADDRESSES env) token) =? ZERO_ADDRESS)
  = false.
Proof.
  intros H. destruct (ready_addresses env H) as (Hm & Hu & _).
  destruct token; assumption.
Qed.

(** Running a handler: the combinators are unfolded and the handler is
    followed as far as the answers of the environment are known. *)
Ltac run :=
  unfold withStatus, try_finally, try_catch, buildTokenContract,
    buildVaultContract, encryptAmount, request, await, throw, useForms,
    setForms, setStatusMessage, setPendingAction, mbind, mret, Async_bind,
    Async_ret;
  cbn.

(** X13: [claimTokens] and [approveVault] ask the wallet for one call, the
    faucet for the connected account or an approval of the vault that ends
    30 days from now, on the token contract of the key; and for none unless
    the addresses are configured and a signer is connected, in which case
    the check of the token address in [buildTokenContract] never fires.
    The forms are left as they were. *)
Theorem token_actions_ask_for_one_call env token p :
  let asked method :=
    if addressesReady env then
      match signerPromise env with
      | inr (Some signer) =>
          [({| target :=
                 address (TOKEN_CONFIG (CONTRACT_ADDRESSES env) token);
               runner := signer |}, method)]
      | _ => []
      end
    else [] in
  let claimed := snd (claimTokens env token p) in
  let approved := snd (approveVault env token p) in
  requests claimed = app (requests p) (asked (Method_faucet (account env))) /\
  requests approved =
  app (requests p)
    (asked (Method_setOperator (ca_vault (CONTRACT_ADDRESSES env))
              (Date_now env / 1000 + 2592000)%Z)) /\
  (addressesReady env = true ->
   address (TOKEN_CONFIG (CONTRACT_ADDRESSES env) token) <> ZERO_ADDRESS) /\
  forms claimed = forms p /\ forms approved = forms p.
Proof.
  intros asked claimed approved. subst asked claimed approved.
  unfold claimTokens, approveVault.
  destruct (addressesReady env) eqn:Hready; run.
  - rewrite (ready_token env token Hready).
    split; [| split; [| split]].
    + destruct (signerPromise env) as [e | [signer |]]; cbn;
        rewrite ?app_nil_r; try reflexivity.
      destruct (send env _ _) as [e | tx]; cbn; [reflexivity |].
      destruct (wait env tx) as [e | []]; reflexivity.
    + destruct (signerPromise env) as [e | [signer |]]; cbn;
        rewrite ?app_nil_r; try reflexivity.
      destruct (send env _ _) as [e | tx]; cbn; [reflexivity |].
      destruct (wait env tx) as [e | []]; reflexivity.
    + intros _. apply String.eqb_neq, ready_token, Hready.
    + split.
      * destruct (signerPromise env) as [e | [signer |]]; cbn;
          try reflexivity.
        destruct (send env _ _) as [e | tx]; cbn; [reflexivity |].
        destruct (wait env tx) as [e | []]; reflexivity.
      * destruct (signerPromise env) as [e | [signer |]]; cbn;
          try reflexivity.
        destruct (send env _ _) as [e | tx]; cbn; [reflexivity |].
        destruct (wait env tx) as [e | []]; reflexivity.
  - rewrite !app_nil_r. repeat split; try reflexivity. discriminate.
Qed.

(** X14: [stakeTokens] submits one call and no other: [stake] on the vault,
    for the asset index of the key, with the first handle and the proof
    that encryption returned for the amount parsed from the stake field.
    It submits it when the addresses are configured, the field parses, the
    encryption instance and the account are there and a signer is
    connected, and submits nothing otherwise.  The stake field of that key
    is emptied once the transaction is mined; the forms are kept as typed
    when anything fails. *)
Theorem stakeTokens_submits_what_was_typed env token p :
  let text := form_stake (prop_form (forms p) token) in
  let staked := snd (stakeTokens env token p) in
  let checks amount user encrypted signer :=
    addressesReady env = true /\
    parseToUnits env text = inr amount /\
    instance env <> None /\ account env = Some user /\
    user <> EmptyString /\
    encrypt env (ca_vault (CONTRACT_ADDRESSES env)) user amount
    = inr encrypted /\
    signerPromise env = inr (Some signer) in
  (forall amount user encrypted signer,
      checks amount user encrypted signer ->
      let contract :=
        {| target := ca_vault (CONTRACT_ADDRESSES env);
           runner := signer |} in
      let method :=
        Method_stake
          (assetIndex (TOKEN_CONFIG (CONTRACT_ADDRESSES env) token))
          (head (handles encrypted)) (inputProof encrypted) in
      requests staked = app (requests p) [(contract, method)] /\
      forms staked =
      match send env contract method with
      | inr tx =>
          match wait env tx with
          | inr _ =>
              with_form (forms p) token
                (with_field (prop_form (forms p) token) stake EmptyString)
          | inl _ => forms p
          end
      | inl _ => forms p
      end) /\
  ((forall amount user encrypted signer,
       ~ checks amount user encrypted signer) ->
   requests staked = requests p /\ forms staked = forms p).
Proof.
  intros text staked checks. subst staked checks text. split.
  - intros amount user encrypted signer
      (Hready & Hparse & Hinst & Hacc & Huser & Henc & Hsig) contract method.
    subst contract method.
    destruct (ready_addresses env Hready) as (_ & _ & Hvault).
    apply String.eqb_neq in Huser.
    destruct (instance env) as [[] |] eqn:Hi; [| congruence].
    unfold stakeTokens. rewrite Hready. run.
    rewrite Hparse. cbn. rewrite Hi, Hacc, Huser, Hready. cbn.
    rewrite Henc. cbn. rewrite Hsig. cbn. rewrite Hvault. cbn.
    destruct (send env _ _) as [e | tx]; cbn; [split; reflexivity |].
    destruct (wait env tx) as [e | []]; cbn; split; reflexivity.
  - intros Hno.
    unfold stakeTokens.
    destruct (addressesReady env) eqn:Hready; run;
      [| split; reflexivity].
    destruct (parseToUnits env _) as [e | amount] eqn:Hparse; cbn;
      [split; reflexivity |].
    destruct (instance env) as [[] |] eqn:Hi; cbn; [| split; reflexivity].
    destruct (account env) as [user |] eqn:Hacc; cbn; [| split; reflexivity].
    destruct (user =? EmptyString) eqn:Huser; cbn; [split; reflexivity |].
    rewrite Hready. cbn.
    destruct (encrypt env _ user amount) as [e | encrypted] eqn:Henc; cbn;
      [split; reflexivity |].
    destruct (signerPromise env) as [e | [signer |]] eqn:Hsig; cbn;
      [split; reflexivity | | split; reflexivity].
    destruct (Hno amount user encrypted signer).
    apply String.eqb_neq in Huser.
    repeat split; try assumption. congruence.
Qed.

(** X15: [unstakeTokens] likewise: the one call it submits is [unstake] on
    the vault with the ciphertext of the amount parsed from the unstake
    field, and the field it empties once the transaction is mined is the
    unstake field of that key. *)
Theorem unstakeTokens_submits_what_was_typed env token p :
  let text := form_unstake (prop_form (forms p) token) in
  let unstaked := snd (unstakeTokens env token p) in
  let checks amount user encrypted signer :=
    addressesReady env = true /\
    parseToUnits env text = inr amount /\
    instance env <> None /\ account env = Some user /\
    user <> EmptyString /\
    encrypt env (ca_vault (CONTRACT_ADDRESSES env)) user amount
    = inr encrypted /\
    signerPromise env = inr (Some signer) in
  (forall amount user encrypted signer,
      checks amount user encrypted signer ->
      let contract :=
        {| target := ca_vault (CONTRACT_ADDRESSES env);
           runner := signer |} in
      let method :=
        Method_unstake
          (assetIndex (TOKEN_CONFIG (CONTRACT_ADDRESSES env) token))
          (head (handles encrypted)) (inputProof encrypted) in
      requests unstaked = app (requests p) [(contract, method)] /\
      forms unstaked =
      match send env contract method with
      | inr tx =>
          match wait env tx with
          | inr _ =>
              with_form (forms p) token
                (with_field (prop_form (forms p) token) unstake EmptyString)
          | inl _ => forms p
          end
      | inl _ => forms p
      end) /\
  ((forall amount user encrypted signer,
       ~ checks amount user encrypted signer) ->
   requests unstaked = requests p /\ forms unstaked = forms p).
Proof.
  intros text unstaked checks. subst unstaked checks text. split.
  - intros amount user encrypted signer
      (Hready & Hparse & Hinst & Hacc & Huser & Henc & Hsig) contract method.
    subst contract method.
    destruct (ready_addresses env Hready) as (_ & _ & Hvault).
    apply String.eqb_neq in Huser.
    destruct (instance env) as [[] |] eqn:Hi; [| congruence].
    unfold unstakeTokens. rewrite Hready. run.
    rewrite Hparse. cbn. rewrite Hi, Hacc, Huser, Hready. cbn.
    rewrite Henc. cbn. rewrite Hsig. cbn. rewrite Hvault. cbn.
    destruct (send env _ _) as [e | tx]; cbn; [split; reflexivity |].
    destruct (wait env tx) as [e | []]; cbn; split; reflexivity.
  - intros Hno.
    unfold unstakeTokens.
    destruct (addressesReady env) eqn:Hready; run;
      [| split; reflexivity].
    destruct (parseToUnits env _) as [e | amount] eqn:Hparse; cbn;
      [split; reflexivity |].
    destruct (instance env) as [[] |] eqn:Hi; cbn; [| split; reflexivity].
    destruct (account env) as [user |] eqn:Hacc; cbn; [| split; reflexivity].
    destruct (user =? EmptyString) eqn:Huser; cbn; [split; reflexivity |].
    rewrite Hready. cbn.
    destruct (encrypt env _ user amount) as [e | encrypted] eqn:Henc; cbn;
      [split; reflexivity |].
    destruct (signerPromise env) as [e | [signer |]] eqn:Hsig; cbn;
      [split; reflexivity | | split; reflexivity].
    destruct (Hno amount user encrypted signer).
    apply String.eqb_neq in Huser.
    repeat split; try assumption. congruence.
Qed.

(** X16: [handleInputChange] writes the one field it is given: reading it
    back gives the value, the three other fields read as before, and
    neither the messages nor the calls asked for change. *)
Theorem handleInputChange_writes_one_field token field value p :
  let p' := snd (handleInputChange token field value p) in
  prop_field (prop_form (forms p') token) field = value /\
  (forall token' field',
      (token', field') <> (token, field) ->
      prop_field (prop_form (forms p') token') field'
      = prop_field (prop_form (forms p) token') field') /\
  pendingAction p' = pendingAction p /\
  statusMessage p' = statusMessage p /\
  requests p' = requests p.
Proof.
  intros p'. subst p'. cbn.
  split; [destruct token, field; reflexivity |].
  split; [| repeat split].
  intros token' field' Hne.
  destruct token, field, token', field'; try reflexivity;
    destruct Hne; reflexivity.
Qed.

(** X11: the numbers agree with the contract.  The flag that [parseAsset]
    gives for a name and the asset index that the dashboard sends for a
    key are members of [enum Asset], so the call is not refused for its
    asset, and they are the member of that name. *)
Theorem asset_indexes_name_the_asset s flag c token :
  (Tasks.parseAsset s = inr flag ->
   exists asset,
     Asset_of_uint8 (Tasks.AssetFlag_value flag) = Some asset /\
     (asset = METH <-> Tasks.toLowerCase s = "meth") /\
     (asset = MUSDT <-> Tasks.toLowerCase s = "musdt")) /\
  (exists asset,
      Asset_of_uint8 (assetIndex (TOKEN_CONFIG c token)) = Some asset /\
      (asset = METH <-> key_text token = "meth") /\
      (asset = MUSDT <-> key_text token = "musdt")).
Proof.
  split.
  - unfold Tasks.parseAsset. intros H.
    destruct (Tasks.toLowerCase s =? "meth") eqn:E.
    + injection H as <-. apply String.eqb_eq in E.
      exists METH. rewrite E. repeat split; try reflexivity; discriminate.
    + destruct (Tasks.toLowerCase s =? "musdt") eqn:E'; [| discriminate H].
      injection H as <-. apply String.eqb_eq in E'.
      exists MUSDT. rewrite E'.
      repeat split; try reflexivity; discriminate.
  - destruct token; [exists METH | exists MUSDT];
      repeat split; try reflexivity; discriminate.
Qed.

End VaultAppFacts.

(** ** The vault over any arithmetic library

    A calculus of weakest preconditions for the runs of contract code that
    return, and with it what [Linked.stake] and [Linked.unstake] leave
    behind whatever the library is, as long as it makes its results. *)

Lemma wp_ret {S A} (a : A) (Q : A -> S -> Prop) s : Q a s -> wp (ret a) Q s.
Proof. intros H. exact H. Qed.

Lemma wp_bind {S A B} (m : Exec S A) (k : A -> Exec S B) Q s :
  wp m (fun a s' => wp (k a) Q s') s -> wp (bind m k) Q s.
Proof.
  unfold wp, bind. destruct (m s) as [e | [a s']]; [trivial |]. intros H. exact H.
Qed.

Lemma wp_revert {S A} e (Q : A -> S -> Prop) s : wp (revert e) Q s.
Proof. exact I. Qed.

Lemma wp_mono {S A} (m : Exec S A) (Q Q' : A -> S -> Prop) s :
  (forall a s', Q a s' -> Q' a s') -> wp m Q s -> wp m Q' s.
Proof.
  unfold wp. intros H. destruct (m s) as [e | [a s']]; [trivial | apply H].
Qed.

Lemma wp_run {S A} (m : Exec S A) (Q : A -> S -> Prop) s a s' :
  wp m Q s -> m s = inr (a, s') -> Q a s'.
Proof. unfold wp. intros H E. rewrite E in H. exact H. Qed.

Section W.
Context {T : IERC7984}.
Implicit Types (w : World T).

Lemma wp_fhe {A} (m : Exec FHEVM A) (Q : A -> World T -> Prop) w :
  wp m (fun a f => Q a (set_fhevm f w)) (fhevm w) -> wp (fhe m) Q w.
Proof.
  unfold wp, fhe. destruct (m (fhevm w)) as [e | [a f]]; trivial.
Qed.

Lemma wp_view {A} (g : Storage -> A) (Q : A -> World T -> Prop) w :
  Q (g (vault w)) w -> wp (view g) Q w.
Proof. intros H. exact H. Qed.

Lemma wp_sstore g (Q : unit -> World T -> Prop) w :
  Q tt (set_vault (g (vault w)) w) -> wp (sstore g) Q w.
Proof. intros H. exact H. Qed.

Lemma wp_emit e (Q : unit -> World T -> Prop) w :
  Q tt (record e w) -> wp (emit e) Q w.
Proof. intros H. exact H. Qed.
End W.

(** Coprocessor primitives *)
Lemma wp_alloc this v (Q : N -> FHEVM -> Prop) f :
  Q (N.succ (counter f)) (store_ct this v f) -> wp (FHE.alloc this v) Q f.
Proof. intros H. exact H. Qed.

Lemma wp_operand this h (Q : Z -> FHEVM -> Prop) f :
  (forall v, Q v f) -> wp (FHE.operand this h) Q f.
Proof.
  intros H. unfold wp, FHE.operand.
  destruct (decide (h = 0%N)); [apply H |].
  destruct (isAllowed f h this); [apply H | exact I].
Qed.

Lemma wp_allow this h who (Q : unit -> FHEVM -> Prop) f :
  (isAllowed f h this = true -> Q tt (grant h who f)) ->
  wp (FHE.allow this h who) Q f.
Proof.
  intros H. unfold wp, FHE.allow.
  destruct (isAllowed f h this); [apply H; reflexivity | exact I].
Qed.

Lemma wp_made this (m : Exec FHEVM N) (Q : N -> FHEVM -> Prop) f :
  (forall v, Q (N.succ (counter f)) (store_ct this v f)) ->
  (m = FHE.asEuint64 this 0 \/ (exists c a b, m = FHE.select this c a b) \/
   (exists a b, m = FHE.add this a b) \/ (exists a b, m = FHE.sub this a b) \/
   (exists a b, m = FHE.ge this a b)) ->
  wp m Q f.
Proof.
  intros H [-> | [(c & a & b & ->) | [(a & b & ->) | [(a & b & ->) | (a & b & ->)]]]].
  - apply wp_alloc, H.
  - unfold FHE.select. repeat (apply wp_bind, wp_operand; intros ?). apply wp_alloc, H.
  - unfold FHE.add. repeat (apply wp_bind, wp_operand; intros ?). apply wp_alloc, H.
  - unfold FHE.sub. repeat (apply wp_bind, wp_operand; intros ?). apply wp_alloc, H.
  - unfold FHE.ge. repeat (apply wp_bind, wp_operand; intros ?). apply wp_alloc, H.
Qed.

Lemma wp_lib op this x y (Q : N * N -> FHEVM -> Prop) f :
  makes_its_result op ->
  (forall ok r f',
      (counter f < r <= counter f')%N ->
      acl_persistent f' = acl_persistent f ->
      (forall h a, (h, a) ∈ acl_transient f' ->
                   (h, a) ∈ acl_transient f \/ (counter f < h <= counter f')%N) ->
      Q (ok, r) f') ->
  wp (op this x y) Q f.
Proof.
  intros Hop H. unfold wp.
  destruct (op this x y f) as [e | [[ok r] f']] eqn:E; [exact I |].
  destruct (Hop this x y f ok r f' E) as (Hr & Hp & Ht).
  apply H; assumption.
Qed.

Lemma during_refl f : acl_sound f -> during f f.
Proof. intros H. split; [lia | exact H | auto]. Qed.

Lemma during_store_ct f0 f c v :
  during f0 f -> during f0 (store_ct c v f).
Proof.
  intros [Hc Hs Ho]. split.
  - rewrite counter_store_ct. lia.
  - intros h a. rewrite persistent_store_ct, transient_store_ct, counter_store_ct.
    intros [H | H].
    + specialize (Hs h a (or_introl H)). lia.
    + apply elem_of_union in H as [H | H].
      * apply elem_of_singleton in H. injection H as -> _. lia.
      * specialize (Hs h a (or_intror H)). lia.
  - intros h a. rewrite persistent_store_ct. apply Ho.
Qed.

Lemma during_grant f0 f h who x :
  during f0 f -> isAllowed f h x = true -> (counter f0 < h)%N ->
  during f0 (grant h who f).
Proof.
  intros [Hc Hs Ho] Ha Hh. apply isAllowed_true in Ha. split.
  - rewrite counter_grant. exact Hc.
  - intros h' a. rewrite persistent_grant, transient_grant, counter_grant.
    intros [H | H].
    + apply elem_of_union in H as [H | H].
      * apply elem_of_singleton in H. injection H as -> _.
        apply (Hs h x). exact Ha.
      * apply (Hs h' a). left. exact H.
    + apply (Hs h' a). right. exact H.
  - intros h' a. rewrite persistent_grant. intros H Hle.
    apply elem_of_union in H as [H | H].
    + apply elem_of_singleton in H. injection H as -> _. lia.
    + apply Ho; assumption.
Qed.

Lemma during_lib f0 f f' r :
  during f0 f ->
  (counter f < r <= counter f')%N ->
  acl_persistent f' = acl_persistent f ->
  (forall h a, (h, a) ∈ acl_transient f' ->
               (h, a) ∈ acl_transient f \/ (counter f < h <= counter f')%N) ->
  during f0 f'.
Proof.
  intros [Hc Hs Ho] Hr Hp Ht. split.
  - lia.
  - intros h a [H | H].
    + rewrite Hp in H. specialize (Hs h a (or_introl H)). lia.
    + destruct (Ht h a H) as [H' | H'].
      * specialize (Hs h a (or_intror H')). lia.
      * lia.
  - intros h a. rewrite Hp. apply Ho.
Qed.

Lemma isAllowed_store_ct_new c v f : isAllowed (store_ct c v f) (N.succ (counter f)) c = true.
Proof.
  unfold isAllowed. apply bool_decide_eq_true_2. right.
  rewrite transient_store_ct. set_solver.
Qed.

Lemma isAllowed_grant_mono h who f h' x :
  isAllowed f h' x = true -> isAllowed (grant h who f) h' x = true.
Proof.
  unfold isAllowed. intros H. apply bool_decide_eq_true_1 in H.
  apply bool_decide_eq_true_2. rewrite persistent_grant, transient_grant.
  set_solver.
Qed.

Section LinkedFacts.

Context (L : SafeArithmetic) (HL : makes_its_results L).
Context (T : IERC7984).
Context (verifyInput :
           address -> address -> externalEuint64 -> bytes -> option Z).
Context (this : address).
Implicit Types (w : World T) (f : FHEVM).

Lemma wp_updateStakeStorage asset account value (Q : unit -> World T -> Prop) w :
  (isAllowed (fhevm w) value this = true ->
   Q tt (set_vault (set_stake asset account value (vault w))
           (set_fhevm (grant value account (grant value this (fhevm w))) w))) ->
  wp (_updateStakeStorage this asset account value) Q w.
Proof.
  intros H. unfold _updateStakeStorage, FHE.allowThis.
  apply wp_bind, wp_fhe, wp_allow. intros Ha. cbn [fhevm set_fhevm].
  apply wp_bind, wp_fhe, wp_allow. intros _.
  specialize (H Ha). unfold set_stake in H.
  destruct (decide (asset = METH)); apply wp_sstore; exact H.
Qed.

Lemma wp_transferFrom asset from to amount (Q : N -> World T -> Prop) w :
  (forall moved t,
      let token := _getToken asset (vault w) in
      let tr := N.succ (counter (fhevm w)) in
      Q tr (record (Call_confidentialTransferFrom token from to amount tr)
              (set_tokenState asset t
                 (set_fhevm (grant tr to (grant tr from
                               (store_ct token moved (fhevm w)))) w)))) ->
  wp (token_confidentialTransferFrom this asset from to amount) Q w.
Proof.
  intros H. unfold wp, token_confidentialTransferFrom.
  destruct (isAllowed _ _ _); [| exact I].
  destruct (confidentialTransferFrom T _ _ _ _ _) as [[moved t] |]; [| exact I].
  apply H.
Qed.

Lemma wp_transfer asset to amount (Q : N -> World T -> Prop) w :
  (forall moved t,
      let token := _getToken asset (vault w) in
      let sent := N.succ (counter (fhevm w)) in
      Q sent (record (Call_confidentialTransfer token to amount sent)
                (set_tokenState asset t
                   (set_fhevm (grant sent to (grant sent this
                                 (store_ct token moved (fhevm w)))) w)))) ->
  wp (token_confidentialTransfer this asset to amount) Q w.
Proof.
  intros H. unfold wp, token_confidentialTransfer.
  destruct (isAllowed _ _ _); [| exact I].
  destruct (confidentialTransfer T _ _ _ _) as [[moved t] |]; [| exact I].
  apply H.
Qed.

Lemma wp_fromExternal sender e p (Q : N -> World T -> Prop) w :
  (forall v, Q (N.succ (counter (fhevm w)))
               (set_fhevm (store_ct this v (fhevm w)) w)) ->
  wp (fhe (FHE.fromExternal verifyInput this sender e p)) Q w.
Proof.
  intros H. apply wp_fhe. unfold FHE.fromExternal.
  destruct (verifyInput this sender e p) as [v |]; [| exact I].
  apply wp_alloc, H.
Qed.

Lemma wp_isOperator asset holder spender (Q : bool -> World T -> Prop) w :
  Q (isOperator T (tokenState asset w) holder spender) w ->
  wp (token_isOperator asset holder spender) Q w.
Proof. intros H. exact H. Qed.

Ltac wsimpl :=
  cbn [fhevm vault record set_fhevm set_vault fst snd] in *;
  rewrite ?fhevm_set_tokenState, ?vault_set_tokenState in *;
  cbn [fhevm vault record set_fhevm set_vault fst snd] in *.

Lemma left_by_total w0 w asset r f' :
  during (fhevm w0) (fhevm w) ->
  (forall asset', getTotalStaked asset' (vault w)
                  = getTotalStaked asset' (vault w0)) ->
  (counter (fhevm w) < r <= counter f')%N ->
  acl_persistent f' = acl_persistent (fhevm w) ->
  (forall h a, (h, a) ∈ acl_transient f' ->
               (h, a) ∈ acl_transient (fhevm w)
               \/ (counter (fhevm w) < h <= counter f')%N) ->
  isAllowed f' r this = true ->
  left_by this w0 (set_vault (set_total asset r (vault w))
                (set_fhevm (grant r this f') w)).
Proof.
  intros Hd Htot Hr Hp Ht Ha.
  pose proof (during_lib _ _ _ _ Hd Hr Hp Ht) as Hd'.
  pose proof (du_counter _ _ Hd) as Hc.
  split.
  - wsimpl. apply (during_grant _ _ _ _ this Hd' Ha). lia.
  - intros asset'. wsimpl. rewrite getTotal_set_total.
    case_decide as E; [right | left; apply Htot].
    split; [rewrite counter_grant; lia |].
    intros p. rewrite persistent_grant, Hp. intros H.
    apply elem_of_union in H as [H | H].
    + apply elem_of_singleton in H. injection H as ->. reflexivity.
    + pose proof (du_sound _ _ Hd r p (or_introl H)). lia.
Qed.

Ltac total_update lib :=
  let ok := fresh "ok" in let r := fresh "r" in let f' := fresh "f'" in
  let Hr := fresh "Hr" in let Hp := fresh "Hp" in let Ht := fresh "Ht" in
  let Ha := fresh "Ha" in
  apply wp_bind, wp_view;
  apply wp_bind, wp_fhe, (wp_lib _ _ _ _ _ _ lib);
  intros ok r f' Hr Hp Ht;
  unfold FHE.allowThis;
  apply wp_bind, wp_fhe, wp_allow; intros Ha;
  apply wp_sstore.

Lemma wp_increaseTotal w0 w asset amount :
  during (fhevm w0) (fhevm w) ->
  (forall asset', getTotalStaked asset' (vault w)
                  = getTotalStaked asset' (vault w0)) ->
  wp (Linked._increaseTotal L T this asset amount)
     (fun _ w' => left_by this w0 w') w.
Proof.
  intros Hd Htot. unfold Linked._increaseTotal.
  destruct (decide (asset = METH)) as [E | E];
    total_update (proj1 HL);
    pose proof (left_by_total w0 w asset r f' Hd Htot Hr Hp Ht Ha) as H;
    unfold set_total in H; rewrite ?decide_True, ?decide_False in H by exact E;
    exact H.
Qed.

Lemma wp_decreaseTotal w0 w asset amount :
  during (fhevm w0) (fhevm w) ->
  (forall asset', getTotalStaked asset' (vault w)
                  = getTotalStaked asset' (vault w0)) ->
  wp (Linked._decreaseTotal L T this asset amount)
     (fun _ w' => left_by this w0 w') w.
Proof.
  intros Hd Htot. unfold Linked._decreaseTotal.
  destruct (decide (asset = METH)) as [E | E];
    total_update (proj2 HL);
    pose proof (left_by_total w0 w asset r f' Hd Htot Hr Hp Ht Ha) as H;
    unfold set_total in H; rewrite ?decide_True, ?decide_False in H by exact E;
    exact H.
Qed.

Lemma left_by_record w0 w e : left_by this w0 w -> left_by this w0 (record e w).
Proof. intros H. exact H. Qed.

Lemma mid_refl w : acl_sound (fhevm w) -> mid w w.
Proof. intros H. split; [apply during_refl, H | reflexivity]. Qed.

Lemma mid_store w0 w c v :
  mid w0 w ->
  mid w0 (set_fhevm (store_ct c v (fhevm w)) w) /\
  made_in w0 (N.succ (counter (fhevm w))).
Proof.
  intros [Hd Ht]. split; [split |].
  - apply during_store_ct, Hd.
  - exact Ht.
  - pose proof (du_counter _ _ Hd). unfold made_in. lia.
Qed.

Lemma step_made w0 w (m : Exec FHEVM N) (Q : N -> World T -> Prop) :
  mid w0 w ->
  (m = FHE.asEuint64 this 0 \/ (exists c a b, m = FHE.select this c a b)) ->
  (forall w1 h, mid w0 w1 -> made_in w0 h -> Q h w1) ->
  wp (fhe m) Q w.
Proof.
  intros Hm Hop H. apply wp_fhe, (wp_made this).
  - intros v. apply H; apply (mid_store w0 w this v Hm).
  - tauto.
Qed.

Lemma step_fromExternal w0 w sender e p (Q : N -> World T -> Prop) :
  mid w0 w ->
  (forall w1 h, mid w0 w1 -> made_in w0 h -> Q h w1) ->
  wp (fhe (FHE.fromExternal verifyInput this sender e p)) Q w.
Proof.
  intros Hm H. apply wp_fromExternal. intros v.
  apply H; apply (mid_store w0 w this v Hm).
Qed.

Lemma step_allow w0 w h who (Q : unit -> World T -> Prop) :
  mid w0 w -> made_in w0 h ->
  (forall w1, mid w0 w1 -> Q tt w1) ->
  wp (fhe (FHE.allow this h who)) Q w.
Proof.
  intros [Hd Ht] Hh H. apply wp_fhe, wp_allow. intros Ha.
  apply H. split; [| exact Ht].
  apply (during_grant _ _ _ _ this Hd Ha Hh).
Qed.

Lemma mid_token w0 w asset t e f :
  mid w0 (set_fhevm f w) -> mid w0 (record e (set_tokenState asset t (set_fhevm f w))).
Proof.
  intros [Hd Ht]. split; wsimpl; assumption.
Qed.

Lemma mid_called w0 w token moved a b :
  mid w0 w ->
  mid w0 (set_fhevm (grant (N.succ (counter (fhevm w))) a
                       (grant (N.succ (counter (fhevm w))) b
                          (store_ct token moved (fhevm w)))) w) /\
  made_in w0 (N.succ (counter (fhevm w))).
Proof.
  intros Hm. destruct (mid_store w0 w token moved Hm) as [[Hd Ht] Hh].
  split; [| exact Hh]. split; [| exact Ht]. wsimpl.
  apply (during_grant _ _ _ _ b); [| | exact Hh].
  - apply (during_grant _ _ _ _ token Hd); [| exact Hh].
    apply isAllowed_store_ct_new.
  - apply isAllowed_true. left. rewrite persistent_grant. set_solver.
Qed.

Lemma step_transferFrom w0 w asset from to amount (Q : N -> World T -> Prop) :
  mid w0 w ->
  (forall w1 h, mid w0 w1 -> made_in w0 h -> Q h w1) ->
  wp (token_confidentialTransferFrom this asset from to amount) Q w.
Proof.
  intros Hm H. apply wp_transferFrom. intros moved t token tr.
  destruct (mid_called w0 w token moved to from Hm) as [Hm' Hh].
  apply H; [apply mid_token, Hm' | exact Hh].
Qed.

Lemma step_transfer w0 w asset to amount (Q : N -> World T -> Prop) :
  mid w0 w ->
  (forall w1 h, mid w0 w1 -> made_in w0 h -> Q h w1) ->
  wp (token_confidentialTransfer this asset to amount) Q w.
Proof.
  intros Hm H. apply wp_transfer. intros moved t token sent.
  destruct (mid_called w0 w token moved to this Hm) as [Hm' Hh].
  apply H; [apply mid_token, Hm' | exact Hh].
Qed.

Lemma step_updateStakeStorage w0 w asset account value
    (Q : unit -> World T -> Prop) :
  mid w0 w -> made_in w0 value ->
  (forall w1, mid w0 w1 -> Q tt w1) ->
  wp (_updateStakeStorage this asset account value) Q w.
Proof.
  intros [Hd Ht] Hh H. apply wp_updateStakeStorage. intros Ha.
  apply H. split; wsimpl.
  - apply (during_grant _ _ _ _ this); [| | exact Hh].
    + apply (during_grant _ _ _ _ this Hd Ha Hh).
    + apply isAllowed_grant_mono, Ha.
  - intros asset'. rewrite getTotal_set_stake. apply Ht.
Qed.

Lemma step_lib w0 w op x y (Q : N * N -> World T -> Prop) :
  makes_its_result op -> mid w0 w ->
  (forall w1 ok r, mid w0 w1 -> made_in w0 r -> Q (ok, r) w1) ->
  wp (fhe (op this x y)) Q w.
Proof.
  intros Hop [Hd Htot] H. apply wp_fhe, (wp_lib _ _ _ _ _ _ Hop).
  intros ok r f' Hr Hp Ht. apply H.
  - split; [| exact Htot]. wsimpl. apply (during_lib _ _ _ _ Hd Hr Hp Ht).
  - pose proof (du_counter _ _ Hd). unfold made_in. lia.
Qed.

Lemma stake_left_by w sender asset e p :
  acl_sound (fhevm w) ->
  wp (Linked.stake L T verifyInput this sender asset e p)
     (fun _ w' => left_by this w w') w.
Proof.
  intros Hs. pose proof (mid_refl w Hs) as M.
  unfold Linked.stake.
  apply wp_bind, wp_view. apply wp_bind, wp_isOperator.
  destruct (negb _); [apply wp_revert |].
  apply wp_bind, (step_fromExternal w _ _ _ _ _ M).
  clear M. intros w1 amount M Hamount.
  apply wp_bind, (step_allow w _ _ _ _ M Hamount).
  clear M. intros w2 M.
  apply wp_bind, (step_transferFrom w _ _ _ _ _ _ M).
  clear M. intros w3 transferred M Htr.
  apply wp_bind. unfold Linked._increaseStake.
  apply wp_bind, wp_view.
  apply wp_bind, (step_lib w _ _ _ _ _ (proj1 HL) M).
  clear M. intros w4 ok r M Hr.
  apply (step_updateStakeStorage w _ _ _ _ _ M Hr).
  clear M. intros w5 [Hd Htot].
  apply wp_bind.
  eapply wp_mono; [| apply (wp_increaseTotal w w5); assumption].
  intros [] w' H. apply wp_emit, left_by_record, H.
Qed.

Lemma unstake_left_by w sender asset e p :
  acl_sound (fhevm w) ->
  wp (Linked.unstake L T verifyInput this sender asset e p)
     (fun _ w' => left_by this w w') w.
Proof.
  intros Hs. pose proof (mid_refl w Hs) as M.
  unfold Linked.unstake.
  apply wp_bind, wp_view.
  apply wp_bind, (step_fromExternal w _ _ _ _ _ M).
  clear M. intros w1 requested M Hrequested.
  apply wp_bind. unfold Linked._decreaseStake.
  apply wp_bind, wp_view.
  apply (step_lib w _ _ _ _ _ (proj2 HL) M).
  clear M. intros w2 ok r M Hr.
  apply wp_bind, (step_made w _ _ _ M); [tauto |].
  clear M. intros w3 zero M Hzero.
  apply wp_bind, (step_made w _ _ _ M); [eauto |].
  clear M. intros w4 withdrawAmount M Hwithdraw.
  apply wp_bind, (step_allow w _ _ _ _ M Hwithdraw).
  clear M. intros w5 M.
  apply wp_bind, (step_transfer w _ _ _ _ _ M).
  clear M. intros w6 sent M Hsent.
  apply wp_bind, (step_updateStakeStorage w _ _ _ _ _ M Hr).
  clear M. intros w7 [Hd Htot].
  apply wp_bind.
  eapply wp_mono; [| apply (wp_decreaseTotal w w7); assumption].
  intros [] w' H. apply wp_emit, left_by_record, H.
Qed.

Lemma left_by_commit w0 w :
  left_by this w0 w ->
  quiet (commit w) /\
  (counter (fhevm w0) <= counter (fhevm (commit w)))%N /\
  (forall h a, (h, a) ∈ acl_persistent (fhevm (commit w)) ->
               (h <= counter (fhevm w0))%N ->
               (h, a) ∈ acl_persistent (fhevm w0)) /\
  forall asset,
    getTotalStaked asset (vault (commit w)) = getTotalStaked asset (vault w0) \/
    ((counter (fhevm w0) < getTotalStaked asset (vault (commit w))
      <= counter (fhevm (commit w)))%N /\
     forall p, (getTotalStaked asset (vault (commit w)), p)
                 ∈ acl_persistent (fhevm (commit w)) -> p = this).
Proof.
  intros [[Hc Hs Ho] Ht]. unfold quiet.
  rewrite (fhevm_commit T), (vault_commit T).
  split; [split |].
  - intros h a. rewrite persistent_clear_transient, transient_clear_transient,
      counter_clear_transient.
    intros [H | H]; [apply (Hs h a); left; exact H | set_solver].
  - apply transient_clear_transient.
  - rewrite counter_clear_transient.
    split; [exact Hc |]. split; [exact Ho |]. exact Ht.
Qed.

Lemma linked_execute tx w :
  acl_sound (fhevm w) ->
  Linked.execute L T verifyInput this tx w = (fst (Linked.execute L T verifyInput this tx w), w) \/
  exists w1, left_by this w w1 /\
             snd (Linked.execute L T verifyInput this tx w) = commit w1.
Proof.
  intros Hs. unfold Linked.execute.
  destruct (Linked.call L T verifyInput this tx w) as [e | [[] w1]] eqn:E.
  - left. reflexivity.
  - right. exists w1. split; [| reflexivity].
    destruct tx as [sender asset e p | sender asset e p]; simpl in E.
    + apply (wp_run _ _ _ _ _ (stake_left_by w sender asset e p Hs) E).
    + apply (wp_run _ _ _ _ _ (unstake_left_by w sender asset e p Hs) E).
Qed.

Lemma quiet_next w st :
  quiet w -> enabled this st w -> quiet (Linked.next L T verifyInput this st w).
Proof.
  intros [Hs Ht] Hen.
  destruct st as [tx | asset t | who v | who h to]; simpl.
  - destruct (linked_execute tx w Hs) as [-> | (w1 & Hl & ->)].
    + split; assumption.
    + apply (left_by_commit w w1 Hl).
  - split; rewrite fhevm_set_tokenState; assumption.
  - split.
    + intros h a. cbn [fhevm set_fhevm]. autorewrite with fhevm.
      intros [H | H]; [| set_solver].
      apply elem_of_union in H as [H | H].
      * apply elem_of_singleton in H. injection H as -> _. lia.
      * specialize (Hs h a (or_introl H)). lia.
    + reflexivity.
  - destruct Hen as [_ Hin]. split.
    + intros h' a. cbn [fhevm set_fhevm]. autorewrite with fhevm.
      rewrite Ht. intros [H | H].
      * apply elem_of_union in H as [H | H].
        -- apply elem_of_singleton in H. injection H as -> _.
           apply (Hs h who). left. exact Hin.
        -- apply (Hs h' a). left. exact H.
      * set_solver.
    + exact Ht.
Qed.

Lemma sealed_linked_next w st h :
  quiet w -> enabled this st w -> sealed this w h ->
  sealed this (Linked.next L T verifyInput this st w) h.
Proof.
  intros [Hsound Htr] Hen [Hb Hs].
  destruct st as [tx | asset t | who v | who h0 to]; unfold sealed; simpl.
  - destruct (linked_execute tx w Hsound) as [-> | (w1 & Hl & ->)].
    + split; assumption.
    + destruct (left_by_commit w w1 Hl) as (_ & Hc & Ho & _).
      split; [lia |].
      intros q Hq. apply Hs, Ho; assumption.
  - rewrite fhevm_set_tokenState. split; assumption.
  - split; autorewrite with fhevm; [lia |].
    intros q Hq. apply elem_of_union in Hq as [Hq | Hq].
    + apply elem_of_singleton in Hq. injection Hq as Hq _. lia.
    + apply Hs, Hq.
  - destruct Hen as [Hwho Hin]. split; autorewrite with fhevm; [exact Hb |].
    intros q Hq. apply elem_of_union in Hq as [Hq | Hq].
    + apply elem_of_singleton in Hq. injection Hq as -> ->.
      specialize (Hs who Hin). contradiction.
    + apply Hs, Hq.
Qed.

Lemma totals_sealed_next w st :
  quiet w -> enabled this st w ->
  (forall asset, sealed this w (getTotalStaked asset (vault w))) ->
  forall asset,
    sealed this (Linked.next L T verifyInput this st w)
      (getTotalStaked asset (vault (Linked.next L T verifyInput this st w))).
Proof.
  intros Hq Hen Hsealed asset.
  assert (Hvault :
            vault (Linked.next L T verifyInput this st w) = vault w \/
            exists tx w1, st = Transact T tx /\ left_by this w w1 /\
                          Linked.next L T verifyInput this st w = commit w1).
  { destruct st as [tx | a t | who v | who h to]; simpl.
    - destruct (linked_execute tx w (proj1 Hq)) as [-> | (w1 & Hl & E)].
      + left. reflexivity.
      + right. exists tx, w1. auto.
    - left. apply vault_set_tokenState.
    - left. reflexivity.
    - left. reflexivity. }
  destruct Hvault as [-> | (tx & w1 & -> & Hl & E)].
  - apply sealed_linked_next; [exact Hq | exact Hen | apply Hsealed].
  - destruct (left_by_commit w w1 Hl) as (_ & _ & _ & Ht).
    destruct (Ht asset) as [Hsame | [Hnew Honly]].
    + rewrite E, Hsame. rewrite <- E.
      apply sealed_linked_next; [exact Hq | exact Hen | apply Hsealed].
    + rewrite E. split; [lia | exact Honly].
Qed.

Lemma reachable_settled w :
  Linked.reachable L T verifyInput this w ->
  quiet w /\ forall asset, sealed this w (getTotalStaked asset (vault w)).
Proof.
  induction 1 as [w Hd | w st Hr [Hq Hs] Hen].
  - destruct Hd as (m & u & s & tm & tu & Hc & _ & _ & ->).
    unfold constructor in Hc. destruct (_ || _); [discriminate |].
    injection Hc as <-.
    split; [split |].
    + intros h a [H | H]; simpl in H; set_solver.
    + reflexivity.
    + intros asset. split.
      * destruct asset; cbv; discriminate.
      * intros p H. change (acl_persistent fhevm0) with (∅ : gset (N * N)) in H.
        set_solver.
  - split.
    + apply quiet_next; assumption.
    + apply totals_sealed_next; assumption.
Qed.


End LinkedFacts.

(** *** The library of the model makes its results *)

Lemma wp_made_since this (m : Exec FHEVM N) (Q : N -> FHEVM -> Prop) f0 f :
  ((counter f0 <= counter f)%N /\
   acl_persistent f = acl_persistent f0 /\
   forall h a, (h, a) ∈ acl_transient f ->
               (h, a) ∈ acl_transient f0 \/ (counter f0 < h <= counter f)%N) ->
  (forall r f',
      ((counter f0 <= counter f')%N /\
       acl_persistent f' = acl_persistent f0 /\
       forall h a, (h, a) ∈ acl_transient f' ->
                   (h, a) ∈ acl_transient f0 \/
                   (counter f0 < h <= counter f')%N) ->
      (counter f0 < r <= counter f')%N ->
      (counter f <= counter f')%N ->
      Q r f') ->
  (m = FHE.asEuint64 this 0 \/ (exists c a b, m = FHE.select this c a b) \/
   (exists a b, m = FHE.add this a b) \/ (exists a b, m = FHE.sub this a b) \/
   (exists a b, m = FHE.ge this a b)) ->
  wp m Q f.
Proof.
  intros (Hc & Hp & Ht) H Hm. apply (wp_made this); [| exact Hm].
  intros v. apply H.
  - rewrite counter_store_ct, persistent_store_ct. split; [lia |].
    split; [exact Hp |].
    intros h a. rewrite transient_store_ct. intros Hin.
    apply elem_of_union in Hin as [Hin | Hin].
    + apply elem_of_singleton in Hin. injection Hin as -> _. right. lia.
    + destruct (Ht h a Hin) as [Hold | Hnew]; [left; exact Hold | right; lia].
  - rewrite counter_store_ct. lia.
  - rewrite counter_store_ct. lia.
Qed.

Lemma FHESafeMath_makes_its_results : makes_its_results FHESafeMath_library.
Proof.
  split; intros this x y f ok r f' E.
  - assert (W : wp (FHESafeMath.tryIncrease this x y)
                  (fun p g => (counter f < snd p <= counter g)%N /\
                              acl_persistent g = acl_persistent f /\
                              forall h a, (h, a) ∈ acl_transient g ->
                                (h, a) ∈ acl_transient f \/
                                (counter f < h <= counter g)%N) f).
    { unfold FHESafeMath.tryIncrease.
      apply wp_bind.
      apply (wp_made_since this _ _ f); [split; [reflexivity | split; [reflexivity | auto]] | | eauto 10].
      intros newValue f1 H1 Hn _.
      apply wp_bind.
      apply (wp_made_since this _ _ f); [exact H1 | | eauto 10].
      intros success f2 (Hc2 & Hp2 & Ht2) Hs Hle.
      apply wp_ret. simpl. split; [lia | split; assumption]. }
    apply (wp_run _ _ _ _ _ W) in E. exact E.
  - assert (W : wp (FHESafeMath.tryDecrease this x y)
                  (fun p g => (counter f < snd p <= counter g)%N /\
                              acl_persistent g = acl_persistent f /\
                              forall h a, (h, a) ∈ acl_transient g ->
                                (h, a) ∈ acl_transient f \/
                                (counter f < h <= counter g)%N) f).
    { unfold FHESafeMath.tryDecrease.
      apply wp_bind.
      apply (wp_made_since this _ _ f); [split; [reflexivity | split; [reflexivity | auto]] | | eauto 10].
      intros success f1 H1 Hn _.
      apply wp_bind.
      apply (wp_made_since this _ _ f); [exact H1 | | eauto 10].
      intros diff f2 H2 Hd _.
      apply wp_bind.
      apply (wp_made_since this _ _ f); [exact H2 | | eauto 10].
      intros updated f3 (Hc3 & Hp3 & Ht3) Hu _.
      apply wp_ret. simpl. split; [lia | split; assumption]. }
    apply (wp_run _ _ _ _ _ W) in E. exact E.
Qed.

(** *** The vault of the model is the vault linked against its library *)

Lemma linked_execute_model (T : IERC7984) verifyInput this tx (w : World T) :
  Linked.execute FHESafeMath_library T verifyInput this tx w
  = execute verifyInput this tx w.
Proof. destruct tx; reflexivity. Qed.

Lemma linked_next_model (T : IERC7984) verifyInput this st (w : World T) :
  Linked.next FHESafeMath_library T verifyInput this st w
  = next verifyInput this st w.
Proof. destruct st as [tx | | |]; try reflexivity. Qed.

Lemma linked_reachable_model (T : IERC7984) verifyInput this (w : World T) :
  reachable verifyInput this w ->
  Linked.reachable FHESafeMath_library T verifyInput this w.
Proof.
  induction 1 as [w Hd | w st Hr IH Hen].
  - apply Linked.reach_deploy, Hd.
  - rewrite <- linked_next_model. apply Linked.reach_step; assumption.
Qed.

Lemma linked_evolves_model (T : IERC7984) verifyInput this (w w' : World T) :
  evolves verifyInput this w w' ->
  Linked.evolves FHESafeMath_library T verifyInput this w w'.
Proof.
  induction 1 as [| w' st Hev IH Hen].
  - apply Linked.evolves_refl.
  - rewrite <- linked_next_model. apply Linked.evolves_step; assumption.
Qed.

Module ScenarioFacts.

Import Scenario.

Lemma reachable_deployed : reachable mock_verifyInput vault_address w_deployed.
Proof.
  apply reach_deploy.
  exists meth, musdt, (mkStorage meth musdt ∅ ∅ 0%N 0%N),
    ERC7984.empty, ERC7984.empty.
  repeat split.
Qed.

Lemma reachable_funded : reachable mock_verifyInput vault_address w_funded.
Proof.
  apply (reach_step M mock_verifyInput vault_address _ w_deployed (TokenStep M METH _)).
  - exact reachable_deployed.
  - apply ERC7984.step_mint. lia.
  - trivial.
Qed.

Lemma reachable_approved :
  reachable mock_verifyInput vault_address w_approved.
Proof.
  apply (reach_step M mock_verifyInput vault_address _ w_funded (TokenStep M METH _)).
  - exact reachable_funded.
  - apply ERC7984.step_setOperator. discriminate.
  - trivial.
Qed.

Lemma reachable_staked : reachable mock_verifyInput vault_address w_staked.
Proof.
  apply (reach_step M mock_verifyInput vault_address _ w_approved (Transact M tx_stake_half)).
  - exact reachable_approved.
  - discriminate.
  - trivial.
Qed.

Lemma evolves_staked_unstaked :
  evolves mock_verifyInput vault_address w_staked w_unstaked.
Proof.
  apply (evolves_step M mock_verifyInput vault_address w_staked w_staked (Transact M tx_unstake_half)).
  - apply evolves_refl.
  - discriminate.
Qed.

(** The assertions of the test: 500,000 staked and 500,000 left in the
    wallet after [stake]; nothing staked and 1,000,000 in the wallet after
    [unstake]. *)
Example test_stakes_and_unstakes :
  stake_of w_staked alice METH = 500000 /\
  ERC7984.balanceOf (tokenState METH w_staked) alice = 500000 /\
  stake_of w_unstaked alice METH = 0 /\
  ERC7984.balanceOf (tokenState METH w_unstaked) alice = 1000000.
Proof. vm_compute. repeat split. Qed.

(** Witness of C5: alice has not approved the vault, and the input she
    sends does not even carry a valid proof. *)
Lemma stake_requires_operator_witness :
  isOperator M (tokenState METH w_funded) alice vault_address = false /\
  mock_verifyInput vault_address alice 500000%N [] = None /\
  execute mock_verifyInput vault_address (TxStake alice METH 500000%N [])
    w_funded
  = (Some NebulaVaultOperatorMissing, w_funded).
Proof.
  split; [reflexivity |]. split; [reflexivity |].
  exact (proj2 (stake_requires_operator M mock_verifyInput vault_address
                  w_funded alice METH 500000%N [] eq_refl)).
Defined.

(** Witness of C9: the stake of alice in mETH. *)
Lemma calls_touch_one_position_witness :
  reachable mock_verifyInput vault_address w_approved /\
  (forall a asset,
      (asset, a) <> (METH, alice) ->
      getEncryptedStake a asset (vault w_staked)
      = getEncryptedStake a asset (vault w_approved) /\
      stake_of w_staked a asset = stake_of w_approved a asset) /\
  (forall asset,
      asset <> METH ->
      getTotalStaked asset (vault w_staked)
      = getTotalStaked asset (vault w_approved) /\
      total_staked w_staked asset = total_staked w_approved asset).
Proof.
  split; [exact reachable_approved |].
  exact (calls_touch_one_position M mock_verifyInput vault_address
           w_approved tx_stake_half reachable_approved).
Defined.

(** Witness of C8: the stake of alice in mETH. *)
Lemma writes_are_granted_witness :
  reachable mock_verifyInput vault_address w_approved /\
  (forall a asset,
      getEncryptedStake a asset (vault w_staked)
      <> getEncryptedStake a asset (vault w_approved) ->
      (getEncryptedStake a asset (vault w_staked), vault_address)
        ∈ acl_persistent (fhevm w_staked) /\
      (getEncryptedStake a asset (vault w_staked), a)
        ∈ acl_persistent (fhevm w_staked)) /\
  (forall asset,
      getTotalStaked asset (vault w_staked)
      <> getTotalStaked asset (vault w_approved) ->
      (getTotalStaked asset (vault w_staked), vault_address)
        ∈ acl_persistent (fhevm w_staked)).
Proof.
  split; [exact reachable_approved |].
  exact (writes_are_granted M mock_verifyInput vault_address
           w_approved tx_stake_half reachable_approved).
Defined.

(** Witness of C3: the stake of the test. *)
Lemma stake_credits_amount_moved_witness :
  reachable mock_verifyInput vault_address w_approved /\
  isOperator M (tokenState METH w_approved) alice vault_address = true /\
  mock_verifyInput vault_address alice 500000%N (proof_for alice)
  = Some 500000 /\
  (exists t,
      confidentialTransferFrom M (tokenState METH w_approved) vault_address
        alice vault_address (wrap64 500000) = Some (500000, t)) /\
  stake_of w_approved alice METH + wrap64 500000 < 2 ^ 64 /\
  total_staked w_approved METH + wrap64 500000 < 2 ^ 64 /\
  stake_of w_staked alice METH
  = stake_of w_approved alice METH + wrap64 500000 /\
  total_staked w_staked METH
  = total_staked w_approved METH + wrap64 500000.
Proof.
  split; [exact reachable_approved |].
  split; [reflexivity |]. split; [reflexivity |].
  split; [eexists; reflexivity |].
  split; [reflexivity |]. split; [reflexivity |].
  pose proof (stake_credits_amount_moved M mock_verifyInput vault_address
                w_approved alice METH 500000%N (proof_for alice) 500000
                500000 _ reachable_approved eq_refl eq_refl eq_refl)
    as (_ & _ & Hs & Ht & _).
  split; [apply Hs | apply Ht]; reflexivity.
Defined.


(** Witness of C4: the withdrawal of the test. *)
Lemma unstake_debits_requested_and_sent_witness :
  reachable mock_verifyInput vault_address w_staked /\
  mock_verifyInput vault_address alice 500000%N (proof_for alice)
  = Some 500000 /\
  wrap64 500000 <= stake_of w_staked alice METH /\
  (exists t,
      confidentialTransfer M (tokenState METH w_staked) vault_address
        alice (wrap64 500000) = Some (500000, t)) /\
  stake_of w_unstaked alice METH
  = stake_of w_staked alice METH - wrap64 500000 /\
  total_staked w_unstaked METH =
  (if total_staked w_staked METH >=? wrap64 500000
   then total_staked w_staked METH - wrap64 500000
   else total_staked w_staked METH).
Proof.
  split; [exact reachable_staked |].
  split; [reflexivity |]. split; [vm_compute; discriminate |].
  split; [eexists; reflexivity |].
  pose proof (unstake_debits_requested_and_sent M mock_verifyInput
                vault_address w_staked alice METH 500000%N
                (proof_for alice) 500000 500000 _ reachable_staked eq_refl
                ltac:(vm_compute; discriminate) eq_refl)
    as (_ & _ & Hs & Ht).
  split; [exact Hs | exact Ht].
Defined.

(** Witness of C7: bob, who never approved the vault and has no stake,
    asks for 5 units while the vault holds alice's deposit. *)
Lemma unstake_needs_no_operator_witness :
  reachable mock_verifyInput vault_address w_staked /\
  isOperator M (tokenState METH w_staked) bob vault_address = false /\
  (unstake mock_verifyInput vault_address bob METH 5%N (proof_for bob)
     w_staked
   <> inl NebulaVaultOperatorMissing) /\
  fst (execute mock_verifyInput vault_address
         (TxUnstake bob METH 5%N (proof_for bob)) w_staked)
  = None.
Proof.
  split; [exact reachable_staked |]. split; [reflexivity |].
  pose proof (unstake_needs_no_operator M mock_verifyInput vault_address
                w_staked bob METH 5%N (proof_for bob) reachable_staked)
    as [Hne Hm].
  split; [exact Hne |].
  revert Hm.
  change (mock_verifyInput vault_address bob 5%N (proof_for bob))
    with (Some 5).
  cbv beta iota.
  destruct (confidentialTransfer M (tokenState METH w_staked) vault_address
              bob _) as [[moved t] |] eqn:Ht.
  - intros Hc. exact Hc.
  - vm_compute in Ht. discriminate Ht.
Defined.

Lemma reachable_bonus_staked :
  reachable mock_verifyInput vault_address w_bonus_staked.
Proof.
  apply (reach_step BonusToken mock_verifyInput vault_address _
           w_bonus_deployed (Transact BonusToken tx_stake_ten)).
  - apply reach_deploy.
    exists meth, musdt, (mkStorage meth musdt ∅ ∅ 0%N 0%N), tt, tt.
    repeat split.
  - discriminate.
  - trivial.
Qed.

(** Counterexample to C4 as stated: alice has staked 10 units, the total
    is 10, and she withdraws her 10 units from a token that reports 11 as
    sent.  Her stake is sufficient and goes to zero, but the total is not
    debited with what was sent: it stays at 10. *)
Lemma total_kept_when_overreported :
  reachable mock_verifyInput vault_address w_bonus_staked /\
  mock_verifyInput vault_address alice 10%N (proof_for alice) = Some 10 /\
  wrap64 10 <= stake_of w_bonus_staked alice METH /\
  fst (execute mock_verifyInput vault_address tx_unstake_ten w_bonus_staked)
  = None /\
  effects mock_verifyInput vault_address tx_unstake_ten w_bonus_staked
  = [Call_confidentialTransfer meth alice 12%N 13%N;
     Unstaked alice METH 13%N] /\
  cleartext (fhevm w_bonus_unstaked) 13%N = 11 /\
  stake_of w_bonus_unstaked alice METH = 0 /\
  total_staked w_bonus_staked METH = 10 /\
  total_staked w_bonus_unstaked METH = 10 /\
  total_staked w_bonus_unstaked METH
  <> total_staked w_bonus_staked METH - 11 /\
  total_staked w_bonus_unstaked METH
  <> wrap64 (total_staked w_bonus_staked METH - 11).
Proof.
  split; [exact reachable_bonus_staked |].
  vm_compute. repeat split; discriminate.
Qed.

Lemma reachable_fee_unstaked :
  reachable mock_verifyInput vault_address w_fee_unstaked.
Proof.
  apply (reach_step FeeToken mock_verifyInput vault_address _
           w_fee_staked (Transact FeeToken tx_unstake_ten)).
  - apply (reach_step FeeToken mock_verifyInput vault_address _
             w_fee_deployed (Transact FeeToken tx_stake_ten)).
    + apply reach_deploy.
      exists meth, musdt, (mkStorage meth musdt ∅ ∅ 0%N 0%N), tt, tt.
      repeat split.
    + discriminate.
    + trivial.
  - discriminate.
  - trivial.
Qed.

Lemma reachable_fee_big :
  reachable mock_verifyInput vault_address w_fee_big.
Proof.
  apply (reach_step FeeToken mock_verifyInput vault_address _
           _ (Transact FeeToken (tx_stake_big bob))).
  - apply (reach_step FeeToken mock_verifyInput vault_address _
             w_fee_deployed (Transact FeeToken (tx_stake_big alice))).
    + apply reach_deploy.
      exists meth, musdt, (mkStorage meth musdt ∅ ∅ 0%N 0%N), tt, tt.
      repeat split.
    + discriminate.
    + trivial.
  - discriminate.
  - trivial.
Qed.

(** Counterexample to C2 as stated: alice stakes 10 units and takes them
    out again through a token that keeps half of what it sends as a fee
    and reports 5 as sent.  Her stake, the only one, is back to zero; the
    total is 5.  And deposits alone part the two once they exceed 64 bits:
    after alice and bob have staked 2^63 units each, the stakes add up to
    2^64 and the total is 0. *)
Lemma total_diverges_under_fee_token :
  (reachable mock_verifyInput vault_address w_fee_unstaked /\
   effects mock_verifyInput vault_address tx_unstake_ten w_fee_staked
   = [Call_confidentialTransfer meth alice 12%N 13%N;
      Unstaked alice METH 13%N] /\
   cleartext (fhevm w_fee_unstaked) 12%N = 10 /\
   cleartext (fhevm w_fee_unstaked) 13%N = 5 /\
   staked_sum w_fee_unstaked METH = 0 /\
   total_staked w_fee_unstaked METH = 5 /\
   total_staked w_fee_unstaked METH <> staked_sum w_fee_unstaked METH) /\
  (reachable mock_verifyInput vault_address w_fee_big /\
   stake_of w_fee_big alice METH = 2 ^ 63 /\
   stake_of w_fee_big bob METH = 2 ^ 63 /\
   staked_sum w_fee_big METH = 2 ^ 64 /\
   total_staked w_fee_big METH = 0 /\
   total_staked w_fee_big METH <> staked_sum w_fee_big METH).
Proof.
  split.
  - split; [exact reachable_fee_unstaked |].
    vm_compute. repeat split; discriminate.
  - split; [exact reachable_fee_big |].
    vm_compute. repeat split; discriminate.
Qed.

Lemma conservative_stake_half :
  conservative mock_verifyInput vault_address tx_stake_half w_approved.
Proof.
  unfold conservative. cbv zeta. intros e He.
  assert (Heff : effects mock_verifyInput vault_address tx_stake_half
                   w_approved
                 = [Call_confidentialTransferFrom meth alice vault_address
                      1%N 2%N;
                    Staked alice METH 2%N])
    by (vm_compute; reflexivity).
  rewrite Heff in He.
  apply elem_of_cons in He as [-> | He].
  - vm_compute. reflexivity.
  - apply list_elem_of_singleton in He as ->. exact I.
Qed.

Lemma conservatively_reachable_staked :
  reachable_by mock_verifyInput vault_address
    (conservative mock_verifyInput vault_address) w_staked.
Proof.
  apply (reach_step M mock_verifyInput vault_address _ w_approved
           (Transact M tx_stake_half)).
  - apply (reach_step M mock_verifyInput vault_address _ w_funded
             (TokenStep M METH _)).
    + apply (reach_step M mock_verifyInput vault_address _ w_deployed
               (TokenStep M METH _)).
      * apply reach_deploy.
        exists meth, musdt, (mkStorage meth musdt ∅ ∅ 0%N 0%N),
          ERC7984.empty, ERC7984.empty.
        repeat split.
      * apply ERC7984.step_mint. lia.
      * discriminate.
    + apply ERC7984.step_setOperator. discriminate.
    + discriminate.
  - discriminate.
  - intros tx Htx. injection Htx as <-. exact conservative_stake_half.
Qed.

(** Witness of C2, amended: after the stake of the test. *)
Lemma total_is_sum_of_stakes_witness :
  reachable_by mock_verifyInput vault_address
    (conservative mock_verifyInput vault_address) w_staked /\
  total_staked w_staked METH = staked_sum w_staked METH.
Proof.
  split; [exact conservatively_reachable_staked |].
  exact (total_is_sum_of_stakes M mock_verifyInput vault_address w_staked
           conservatively_reachable_staked METH).
Defined.

(** Witness of C6: the round trip of the test. *)
Lemma stake_unstake_round_trip_witness :
  reachable mock_verifyInput vault_address w_approved /\
  alice <> vault_address /\
  isOperator M (tokenState METH w_approved) alice vault_address = true /\
  mock_verifyInput vault_address alice 500000%N (proof_for alice)
  = Some 500000 /\
  0 <= 500000 <= ERC7984.balanceOf (tokenState METH w_approved) alice /\
  stake_of w_unstaked alice METH = stake_of w_approved alice METH /\
  ERC7984.balanceOf (tokenState METH w_unstaked) alice
  = ERC7984.balanceOf (tokenState METH w_approved) alice.
Proof.
  split; [exact reachable_approved |].
  split; [discriminate |]. split; [reflexivity |]. split; [reflexivity |].
  split; [vm_compute; split; discriminate |].
  pose proof (stake_unstake_round_trip mock_verifyInput vault_address
                w_approved alice METH 500000%N (proof_for alice) 500000%N
                (proof_for alice) 500000 reachable_approved
                ltac:(discriminate) eq_refl eq_refl eq_refl
                ltac:(vm_compute; split; discriminate))
    as (_ & _ & _ & _ & Hs & Hb).
  split; [exact Hs | exact Hb].
Defined.

(** *** A vault linked against the library that computes in place *)

Lemma in_place_reachable_approved :
  Linked.reachable FHESafeMathInPlace_library M mock_verifyInput
    vault_address w_approved.
Proof.
  apply (Linked.reach_step FHESafeMathInPlace_library M mock_verifyInput
           vault_address w_funded (TokenStep M METH _)).
  - apply (Linked.reach_step FHESafeMathInPlace_library M mock_verifyInput
             vault_address w_deployed (TokenStep M METH _)).
    + apply Linked.reach_deploy.
      exists meth, musdt, (mkStorage meth musdt ∅ ∅ 0%N 0%N),
        ERC7984.empty, ERC7984.empty.
      repeat split.
    + apply ERC7984.step_mint. lia.
  - apply ERC7984.step_setOperator. discriminate.
Qed.

Lemma in_place_reachable_staked :
  Linked.reachable FHESafeMathInPlace_library M mock_verifyInput
    vault_address w_in_place_staked.
Proof.
  apply (Linked.reach_step FHESafeMathInPlace_library M mock_verifyInput
           vault_address w_approved (Transact M tx_stake_half)).
  - exact in_place_reachable_approved.
  - discriminate.
Qed.

Lemma in_place_reachable_fee_full :
  Linked.reachable FHESafeMathInPlace_library FeeToken mock_verifyInput
    vault_address w_in_place_fee_full.
Proof.
  apply (Linked.reach_step FHESafeMathInPlace_library FeeToken
           mock_verifyInput vault_address w_fee_deployed
           (Transact FeeToken tx_stake_most)).
  - apply Linked.reach_deploy.
    exists meth, musdt, (mkStorage meth musdt ∅ ∅ 0%N 0%N), tt, tt.
    repeat split.
  - discriminate.
Qed.



(** *** Where the claims on withdrawals and deposits stop *)

Lemma reachable_strict_deployed :
  reachable mock_verifyInput vault_address w_strict_deployed.
Proof.
  apply reach_deploy.
  exists meth, musdt, (mkStorage meth musdt ∅ ∅ 0%N 0%N), ∅, ∅.
  repeat split.
Qed.


(** Counterexample to C7 as stated: the input validates, and the call
    fails all the same before anything is written, because the token
    refuses the transfer.  The failure is neither the missing operator nor
    the proof. *)
Lemma unstake_fails_with_the_token :
  reachable mock_verifyInput vault_address w_strict_deployed /\
  mock_verifyInput vault_address alice 5%N (proof_for alice) = Some 5 /\
  unstake mock_verifyInput vault_address alice METH 5%N (proof_for alice)
    w_strict_deployed
  = inl (TokenReverted meth) /\
  TokenReverted meth <> InvalidProof /\
  snd (execute mock_verifyInput vault_address tx_unstake_five
         w_strict_deployed)
  = w_strict_deployed.
Proof.
  split; [exact reachable_strict_deployed |].
  split; [reflexivity |]. split; [vm_compute; reflexivity |].
  split; [discriminate | vm_compute; reflexivity].
Qed.

Lemma reachable_fee_full :
  reachable mock_verifyInput vault_address w_fee_full.
Proof.
  apply (reach_step FeeToken mock_verifyInput vault_address _
           w_fee_deployed (Transact FeeToken tx_stake_most)).
  - apply reach_deploy.
    exists meth, musdt, (mkStorage meth musdt ∅ ∅ 0%N 0%N), tt, tt.
    repeat split.
  - discriminate.
  - trivial.
Qed.

(** Counterexample to C3 as stated: alice holds a stake of 2^64 - 1 units
    and stakes one unit more.  The call commits and the token reports the
    unit as moved, and the deposit is not credited: with the library that
    stores the wrapped sum her stake and the total read 0 afterwards, and
    with the library that drops a sum out of range they stay at
    2^64 - 1. *)
Lemma deposit_is_lost_on_overflow :
  (reachable mock_verifyInput vault_address w_fee_full /\
   stake_of w_fee_full alice METH = 2 ^ 64 - 1 /\
   total_staked w_fee_full METH = 2 ^ 64 - 1 /\
   fst (execute mock_verifyInput vault_address tx_stake_one w_fee_full)
   = None /\
   effects mock_verifyInput vault_address tx_stake_one w_fee_full
   = [Call_confidentialTransferFrom meth alice vault_address 7%N 8%N;
      Staked alice METH 8%N] /\
   cleartext (fhevm w_fee_over) 8%N = 1 /\
   stake_of w_fee_over alice METH = 0 /\
   total_staked w_fee_over METH = 0 /\
   stake_of w_fee_over alice METH <> stake_of w_fee_full alice METH + 1 /\
   total_staked w_fee_over METH <> total_staked w_fee_full METH + 1) /\
  (Linked.reachable FHESafeMathInPlace_library FeeToken mock_verifyInput
     vault_address w_in_place_fee_full /\
   stake_of w_in_place_fee_full alice METH = 2 ^ 64 - 1 /\
   total_staked w_in_place_fee_full METH = 2 ^ 64 - 1 /\
   fst (Linked.execute FHESafeMathInPlace_library FeeToken mock_verifyInput
          vault_address tx_stake_one w_in_place_fee_full)
   = None /\
   log w_in_place_fee_over
   = log w_in_place_fee_full ++
     [Call_confidentialTransferFrom meth alice vault_address 5%N 6%N;
      Staked alice METH 6%N] /\
   cleartext (fhevm w_in_place_fee_over) 6%N = 1 /\
   stake_of w_in_place_fee_over alice METH = 2 ^ 64 - 1 /\
   total_staked w_in_place_fee_over METH = 2 ^ 64 - 1 /\
   stake_of w_in_place_fee_over alice METH
   <> stake_of w_in_place_fee_full alice METH + 1 /\
   total_staked w_in_place_fee_over METH
   <> total_staked w_in_place_fee_full METH + 1).
Proof.
  split.
  - split; [exact reachable_fee_full |].
    vm_compute. repeat split; discriminate.
  - split; [exact in_place_reachable_fee_full |].
    vm_compute. repeat split; discriminate.
Qed.

(** *** The ledger in the scenario of the test *)

Lemma reachable_unstaked :
  reachable mock_verifyInput vault_address w_unstaked.
Proof.
  apply (reach_step M mock_verifyInput vault_address _ w_staked
           (Transact M tx_unstake_half)).
  - exact reachable_staked.
  - discriminate.
  - trivial.
Qed.

(** Witness of X1: from the stake to the withdrawal of the test. *)
Lemma token_addresses_are_fixed_witness :
  reachable mock_verifyInput vault_address w_staked /\
  evolves mock_verifyInput vault_address w_staked w_unstaked /\
  _getToken METH (vault w_staked) <> 0%N /\
  _getToken METH (vault w_unstaked) = _getToken METH (vault w_staked).
Proof.
  split; [exact reachable_staked |].
  split; [exact evolves_staked_unstaked |].
  exact (token_addresses_are_fixed M mock_verifyInput vault_address
           w_staked w_unstaked METH reachable_staked
           evolves_staked_unstaked).
Defined.

(** Witness of X2: the log after the stake and the withdrawal of the test
    holds the two calls, each with its event. *)
Lemma calls_and_events_pair_up_witness :
  reachable mock_verifyInput vault_address w_unstaked /\
  length (log w_unstaked) = 4%nat /\
  paired vault_address (vault w_unstaked) (log w_unstaked) = true.
Proof.
  split; [exact reachable_unstaked |]. split; [reflexivity |].
  exact (calls_and_events_pair_up M mock_verifyInput vault_address
           w_unstaked reachable_unstaked).
Defined.

(** Witness of X3: after her stake alice's slot is written, bob's is not. *)
Lemma stake_slot_is_empty_until_used_witness :
  reachable mock_verifyInput vault_address w_staked /\
  touched alice METH (log w_staked) = true /\
  touched bob METH (log w_staked) = false /\
  (getEncryptedStake bob METH (vault w_staked) = 0%N <->
   touched bob METH (log w_staked) = false).
Proof.
  split; [exact reachable_staked |].
  split; [reflexivity |]. split; [reflexivity |].
  exact (stake_slot_is_empty_until_used M mock_verifyInput vault_address
           w_staked bob METH reachable_staked).
Defined.

(** Witness of X4: the stake of the test commits; with a proof made for
    bob it fails for the proof. *)
Lemma stake_fails_for_three_reasons_only_witness :
  reachable mock_verifyInput vault_address w_approved /\
  fst (execute mock_verifyInput vault_address tx_stake_half w_approved)
  = None /\
  fst (execute mock_verifyInput vault_address
         (TxStake alice METH 500000%N (proof_for bob)) w_approved)
  = Some InvalidProof.
Proof.
  split; [exact reachable_approved |]. split.
  - unfold tx_stake_half.
    rewrite (stake_fails_for_three_reasons_only M mock_verifyInput
               vault_address w_approved alice METH 500000%N
               (proof_for alice) reachable_approved).
    reflexivity.
  - rewrite (stake_fails_for_three_reasons_only M mock_verifyInput
               vault_address w_approved alice METH 500000%N
               (proof_for bob) reachable_approved).
    reflexivity.
Defined.

(** Witness of X5: the withdrawal of the test, and one of more than the
    stake. *)
Lemma unstake_pays_at_most_the_stake_witness :
  reachable mock_verifyInput vault_address w_staked /\
  fst (execute mock_verifyInput vault_address tx_unstake_too_much w_staked)
  = None /\
  exists token amount sent,
    effects mock_verifyInput vault_address tx_unstake_too_much w_staked =
    [Call_confidentialTransfer token alice amount sent;
     Unstaked alice METH sent] /\
    0 <= cleartext
           (fhevm (snd (execute mock_verifyInput vault_address
                          tx_unstake_too_much w_staked))) amount
      <= stake_of w_staked alice METH /\
    stake_of (snd (execute mock_verifyInput vault_address
                     tx_unstake_too_much w_staked)) alice METH
    = stake_of w_staked alice METH
      - cleartext
          (fhevm (snd (execute mock_verifyInput vault_address
                         tx_unstake_too_much w_staked))) amount.
Proof.
  split; [exact reachable_staked |]. split; [reflexivity |].
  exact (unstake_pays_at_most_the_stake M mock_verifyInput vault_address
           w_staked alice METH 600000%N (proof_for alice) reachable_staked
           eq_refl).
Defined.

(** Witness of X6: the withdrawal of the test. *)
Lemma unstake_never_credits_witness :
  reachable mock_verifyInput vault_address w_staked /\
  stake_of w_unstaked alice METH <= stake_of w_staked alice METH /\
  total_staked w_unstaked METH <= total_staked w_staked METH.
Proof.
  split; [exact reachable_staked |].
  exact (unstake_never_credits M mock_verifyInput vault_address w_staked
           alice METH 500000%N (proof_for alice) alice METH
           reachable_staked).
Defined.

(** Witness of X8: what the test reads after the stake. *)
Lemma owner_can_decrypt_stake_witness :
  reachable mock_verifyInput vault_address w_staked /\
  stake_of w_staked alice METH < 2 ^ 53 /\
  decryptBalance (fhevm w_staked) vault_address
    (getEncryptedStake alice METH (vault w_staked)) alice
  = Some 500000.
Proof.
  split; [exact reachable_staked |]. split; [reflexivity |].
  apply (owner_can_decrypt_stake M mock_verifyInput vault_address w_staked
           alice METH reachable_staked).
  reflexivity.
Defined.

(** Witness of X9: after the stake of the test. *)
Lemma vault_is_solvent_witness :
  reachable mock_verifyInput vault_address w_staked /\
  total_staked w_staked METH = staked_sum w_staked METH /\
  staked_sum w_staked METH
  <= ERC7984.balanceOf (tokenState METH w_staked) vault_address.
Proof.
  split; [exact reachable_staked |].
  exact (vault_is_solvent mock_verifyInput vault_address w_staked METH
           reachable_staked).
Defined.

Lemma alice_reads_her_stake :
  (3%N, alice) ∈ acl_persistent (fhevm w_staked).
Proof. refine (bool_decide_unpack _ _). vm_compute. exact I. Qed.


End ScenarioFacts.
